(** * manga_manager: img_operations/images_operations.py

    A shallow embedding of the page-splitting core of
    [manga_manager/img_operations/images_operations.py] and the properties
    its specification states about it.

    Conventions of the embedding.
    - Python [int] is [Z]; [//] is [Z.div] (floor division).
    - A Python [float] is an IEEE 754 double.  A finite double is a
      rational, so floats are the rationals [q : Q] that [fl] leaves
      unchanged, and every float operation of the code ([/], [*], [-],
      the conversion of an [int]) is the exact operation followed by [fl],
      the rounding to the nearest number with a 53-bit significand, ties to
      the even significand.  The exponent is not bounded: the embedding
      has no infinities, no subnormal numbers and no [OverflowError] of a
      division, which only differs from the hardware on magnitudes outside
      [2^-1022, 2^1024).  [int(x)] is truncation toward zero.
    - A [try: ... except Exception] block is a computation in the [result]
      monad below, with the handler applied to [Raise].
    - A PIL image is its size together with a raster, a function from
      column and row to the pixel value; only the pixels inside
      [0 <= x < width], [0 <= y < height] are ever read. *)

From Stdlib Require Import Ascii.
From Stdlib Require Import ZArith QArith Qround Qabs Qpower List Bool.
From Stdlib Require Import Lia Lqa Sorted.
Import ListNotations.
Local Open Scope Z_scope.

(** ** Exceptions *)

Inductive exn : Type :=
| ZeroDivisionError
| ValueError
| OverflowError.

Inductive result (A : Type) : Type :=
| Ok (a : A)
| Raise (e : exn).

Arguments Ok {A} a.
Arguments Raise {A} e.

Definition bind {A B : Type} (m : result A) (k : A -> result B) : result B :=
  match m with
  | Ok a => k a
  | Raise e => Raise e
  end.

Notation "x <- m ;; k" := (bind m (fun x => k))
  (at level 61, m at next level, right associativity).

(** [try: body / except Exception: handler]. *)
Definition try_except {A : Type} (body : result A) (handler : A) : A :=
  match body with
  | Ok a => a
  | Raise _ => handler
  end.

(** ** Python built-ins *)

(** [range(n)] *)
Definition range (n : Z) : list Z := map Z.of_nat (seq 0 (Z.to_nat n)).

(** [all(p(v) for v in l)] *)
Definition py_all {A : Type} (p : A -> bool) (l : list A) : bool := forallb p l.

(** *** Doubles

    The binade of a positive rational: [2 ^ Qlog2 q <= q < 2 ^ (Qlog2 q + 1)]. *)
Definition Qlog2 (q : Q) : Z :=
  if Qle_bool 1 q then Z.log2 (Qfloor q) else - Z.log2_up (Qceiling (/ q)).

(** The nearest integer, a tie going to the even one. *)
Definition round_half_even (q : Q) : Z :=
  let f := Qfloor q in
  match (q - inject_Z f ?= 1 # 2)%Q with
  | Lt => f
  | Gt => f + 1
  | Eq => if Z.even f then f else f + 1
  end.

(** A positive rational rounded to 53 significant bits: the significand
    [q / 2 ^ e] lies in [[2^52, 2^53)] and is rounded to an integer. *)
Definition round_pos (q : Q) : Q :=
  let e := Qlog2 q - 52 in
  (inject_Z (round_half_even (q / 2 ^ e)) * 2 ^ e)%Q.

(** The double nearest to [q]. *)
Definition fl (q : Q) : Q :=
  match Qnum q with
  | Z0 => 0%Q
  | Zpos _ => round_pos q
  | Zneg _ => (- round_pos (- q))%Q
  end.

(** The unit roundoff [2^-53]: the relative error of [fl] is at most this. *)
Definition u53 : Q := 1 # 9007199254740992.

(** [float(z)], the conversion an [int] undergoes when it meets a float. *)
Definition float_of_int (z : Z) : Q := fl (inject_Z z).

(** [a / b] on two ints: the quotient, correctly rounded. *)
Definition truediv (a b : Z) : result Q :=
  if b =? 0 then Raise ZeroDivisionError else Ok (fl (inject_Z a / inject_Z b)).

(** [a / q] on floats. *)
Definition fdiv (a : Q) (q : Q) : result Q :=
  if Qeq_bool q 0 then Raise ZeroDivisionError else Ok (fl (a / q)).

(** [a * b] on floats. *)
Definition fmul (a b : Q) : Q := fl (a * b).

(** [a - b] on floats. *)
Definition fsub (a b : Q) : Q := fl (a - b).

(** [int(q)] *)
Definition py_int (q : Q) : Z := if Qle_bool 0 q then Qfloor q else Qceiling q.

(** [a > b] on floats. *)
Definition Qgtb (a b : Q) : bool := negb (Qle_bool a b).

(** [sum(l)] *)
Definition zsum (l : list Z) : Z := fold_right Z.add 0 l.

(** ** The imaging library (PIL, numpy) as the code uses it *)

Definition rgb : Type := (Z * Z * Z)%type.

Definition BLACK : rgb := (0, 0, 0).
Definition WHITE : rgb := (255, 255, 255).

(** Mode "L" holds one intensity per pixel, mode "RGB" three channels. *)
Inductive Raster : Type :=
| RasterL (f : Z -> Z -> Z)
| RasterRGB (f : Z -> Z -> rgb).

Record Image : Type := mkImage {
  width : Z;
  height : Z;
  raster : Raster
}.

(** [(x0, y0, x1, y1)]: left, upper, right, lower. *)
Definition Box : Type := (Z * Z * Z * Z)%type.

(** The sizes that the C core of the library takes are C ints. *)
Definition is_c_int (z : Z) : bool := (- 2 ^ 31 <=? z) && (z <? 2 ^ 31).

(** The ITU-R 601-2 luma transform of [Image.convert('L')], in the
    fixed-point form the library computes it. *)
Definition luma (p : rgb) : Z :=
  let '(r, g, b) := p in
  (r * 19595 + g * 38470 + b * 7471 + 32768) / 65536.

(** [image.convert('L')], as the raster of intensities. *)
Definition convert_L (image : Image) : Z -> Z -> Z :=
  match raster image with
  | RasterL f => f
  | RasterRGB f => fun x y => luma (f x y)
  end.

(** The pixels of an image as RGB triples (a grey level fills the three
    channels), as [paste] into an RGB image reads them. *)
Definition as_rgb (image : Image) : Z -> Z -> rgb :=
  match raster image with
  | RasterL f => fun x y => (f x y, f x y, f x y)
  | RasterRGB f => f
  end.

Definition shift_raster (r : Raster) (dx dy : Z) : Raster :=
  match r with
  | RasterL f => RasterL (fun x y => f (x + dx) (y + dy))
  | RasterRGB f => RasterRGB (fun x y => f (x + dx) (y + dy))
  end.

(** [image.crop((x0, y0, x1, y1))] *)
Definition crop (image : Image) (box : Box) : Image :=
  let '(x0, y0, x1, y1) := box in
  mkImage (x1 - x0) (y1 - y0) (shift_raster (raster image) x0 y0).

(** [grayscale_img.crop((0, y, width, y + 1)).getdata()]: the intensities
    of row [y], left to right. *)
Definition row_data (g : Z -> Z -> Z) (w y : Z) : list Z :=
  map (fun x => g x y) (range w).

(** ** detect_blank_or_dark_spaces

    The loop of line 118 appends the rows that pass the test of line 120,
    in the order of [range(height)].  No step of the body raises, so the
    handler of line 126 is never run. *)

Definition row_is_dead (g : Z -> Z -> Z) (w : Z)
  (threshold_light threshold_dark : Z) (y : Z) : bool :=
  py_all (fun pixel => pixel >? threshold_light) (row_data g w y)
  || py_all (fun pixel => pixel <? threshold_dark) (row_data g w y).

Definition detect_blank_or_dark_spaces (image : Image)
  (threshold_light threshold_dark : Z) : list Z :=
  let grayscale_img := convert_L image in
  filter (row_is_dead grayscale_img (width image) threshold_light threshold_dark)
         (range (height image)).

(** ** crop_image_by_blank_or_dark_space *)

(** [~(blank_mask | dark_mask)] at column [x], row [y]. *)
Definition crop_mask (g : Z -> Z -> Z) (blank_threshold dark_threshold : Z)
  (x y : Z) : bool :=
  negb ((g x y >? blank_threshold) || (g x y <? dark_threshold)).

(** [np.argwhere(mask)] of an array of shape (h, w): the (row, column)
    pairs where the mask holds, in row-major order. *)
Definition argwhere (mask : Z -> Z -> bool) (w h : Z) : list (Z * Z) :=
  flat_map (fun y => map (fun x => (y, x)) (filter (fun x => mask x y) (range w)))
           (range h).

(** [coords.min(axis=0)] and [coords.max(axis=0)] of a non-empty array
    with first row [c]. *)
Definition coords_min (c : Z * Z) (cs : list (Z * Z)) : Z * Z :=
  fold_left (fun m p => (Z.min (fst m) (fst p), Z.min (snd m) (snd p))) cs c.

Definition coords_max (c : Z * Z) (cs : list (Z * Z)) : Z * Z :=
  fold_left (fun m p => (Z.max (fst m) (fst p), Z.max (snd m) (snd p))) cs c.

(** The box the function crops to, when [coords.size > 0] (lines 145-146). *)
Definition content_box (image : Image) (blank_threshold dark_threshold : Z)
  : option Box :=
  let np_image := convert_L image in
  let coords :=
    argwhere (crop_mask np_image blank_threshold dark_threshold)
             (width image) (height image) in
  match coords with
  | [] => None
  | c :: cs =>
      let '(y0, x0) := coords_min c cs in
      let '(my, mx) := coords_max c cs in
      let '(y1, x1) := (my + 1, mx + 1) in
      Some (x0, y0, x1, y1)
  end.

(** Lines 144-152; no step of the body raises, so the handler of line 153
    is never run. *)
Definition crop_image_by_blank_or_dark_space (image : Image)
  (blank_threshold dark_threshold : Z) : Image :=
  match content_box image blank_threshold dark_threshold with
  | Some box => crop image box
  | None => image
  end.

(** ** average_brightness, best_background_for_image *)

(** [image.getdata()] of a single-band image. *)
Definition getdata (g : Z -> Z -> Z) (w h : Z) : list Z :=
  flat_map (row_data g w) (range h).

(** [ImageStat.Stat(im).mean[0]]: the sum of the intensities over their
    count, as a double.  (Pillow adds the intensities up in a double, which
    is exact while the sum stays below [2^53].)  On an image without pixels
    the quotient is [0 / 0]: Pillow up to 11.3 raises [ZeroDivisionError],
    which is what is written here; later versions answer 0.  No property
    below rests on that case: they are stated for images that have
    pixels, or hold with either answer. *)
Definition stat_mean (g : Z -> Z -> Z) (w h : Z) : result Q :=
  let data := getdata g w h in
  truediv (zsum data) (Z.of_nat (length data)).

Definition average_brightness (image : Image) : result Q :=
  let grayscale_image := convert_L image in
  stat_mean grayscale_image (width image) (height image).

Definition best_background_for_image (image : Image) : result rgb :=
  avg_brightness <- average_brightness image ;;
  let contrast_with_white := Qabs (fsub (float_of_int 255) avg_brightness) in
  let contrast_with_black := avg_brightness in
  if Qgtb contrast_with_white contrast_with_black
  then Ok BLACK
  else Ok WHITE.

(** ** is_not_manga *)

(** [np.all(p)] over an array of shape (h, w). *)
Definition np_all (p : Z -> Z -> bool) (w h : Z) : bool :=
  forallb (fun y => forallb (fun x => p x y) (range w)) (range h).

Definition channel0 (p : rgb) : Z := fst (fst p).
Definition channel1 (p : rgb) : Z := snd (fst p).
Definition channel2 (p : rgb) : Z := snd p.

Definition is_colored (image : Image) : bool :=
  match raster image with
  | RasterL _ => false
  | RasterRGB f =>
      if np_all (fun x y => channel0 (f x y) =? channel1 (f x y))
                (width image) (height image)
         && np_all (fun x y => channel1 (f x y) =? channel2 (f x y))
                   (width image) (height image)
      then false
      else true
  end.

(** The [try] block of lines 83-103; the division of line 84 raises on an
    image of height 0. *)
Definition is_not_manga_body (image : Image) : result bool :=
  aspect_ratio <- truediv (width image) (height image) ;;
  let colored := is_colored image in
  if Qgtb aspect_ratio (3 # 2) && colored then Ok true
  else if negb colored then Ok false
  else Ok true.

Definition is_not_manga (image : Image) : bool :=
  try_except (is_not_manga_body image) false.

(** ** enhance_image_for_screen *)

Section Screen.

(** The Lanczos resampling filter of [Image.resize]: the raster it computes
    for a requested width and height.  Its values are the library's
    business; nothing below depends on them. *)
Variable lanczos : Image -> Z -> Z -> Raster.

(** [final_document_width] and [final_document_height] of
    [manga_processor/env_vars.py], the default canvas. *)
Variables final_document_width final_document_height : Z.

(** [img.resize((w, h), Image.Resampling.LANCZOS)]: a copy when the size
    is already the requested one; otherwise the sides go to the C core as
    C ints ([OverflowError] when one does not fit), which raises
    [ValueError] when a side is below one pixel and resamples otherwise. *)
Definition resize (image : Image) (size : Z * Z) : result Image :=
  let '(w, h) := size in
  if (width image =? w) && (height image =? h) then Ok image
  else if negb (is_c_int w) || negb (is_c_int h) then Raise OverflowError
  else if (w <? 1) || (h <? 1) then Raise ValueError
  else Ok (mkImage w h (lanczos image w h)).

(** [Image.new(mode="RGB", size=(w, h), color=c)]: [ValueError] on a
    negative side, [OverflowError] on one that is not a C int. *)
Definition new_rgb (size : Z * Z) (color : rgb) : result Image :=
  let '(w, h) := size in
  if (w <? 0) || (h <? 0) then Raise ValueError
  else if negb (is_c_int w) || negb (is_c_int h) then Raise OverflowError
  else Ok (mkImage w h (RasterRGB (fun _ _ => color))).

(** [dst.paste(im, (px, py))] into an RGB image: the pixels of [im] cover
    the rectangle of its size whose upper left corner is [(px, py)]. *)
Definition paste (dst im : Image) (pos : Z * Z) : Image :=
  let '(px, py) := pos in
  mkImage (width dst) (height dst)
    (RasterRGB (fun x y =>
       if (px <=? x) && (x <? px + width im) && (py <=? y) && (y <? py + height im)
       then as_rgb im (x - px) (y - py)
       else as_rgb dst x y)).

(** Lines 163-172: the size the image is resized to. *)
Definition fitted_size (img_width img_height screen_width screen_height : Z)
  : result (Z * Z) :=
  img_aspect_ratio <- truediv img_width img_height ;;
  screen_aspect_ratio <- truediv screen_width screen_height ;;
  if Qgtb img_aspect_ratio screen_aspect_ratio then
    q <- fdiv (float_of_int screen_width) img_aspect_ratio ;;
    Ok (screen_width, py_int q)
  else
    Ok (py_int (fmul (float_of_int screen_height) img_aspect_ratio),
        screen_height).

(** What the [try] block of [enhance_image_for_screen] computes. *)
Record Fit : Type := mkFit {
  new_size : Z * Z;
  resized_img : Image;
  background : rgb;
  paste_at : Z * Z;
  new_img : Image
}.

Definition enhance_body (img : Image) (screen_width screen_height : Z)
  : result Fit :=
  sz <- fitted_size (width img) (height img) screen_width screen_height ;;
  let '(new_width, new_height) := sz in
  resized <- resize img (new_width, new_height) ;;
  color <- best_background_for_image resized ;;
  canvas <- new_rgb (screen_width, screen_height) color ;;
  let paste_x := (screen_width - new_width) / 2 in
  let paste_y := (screen_height - new_height) / 2 in
  Ok (mkFit sz resized color (paste_x, paste_y)
            (paste canvas resized (paste_x, paste_y))).

(** The handler of line 184 returns [img] itself. *)
Definition enhance_image_for_screen (img : Image)
  (screen_width screen_height : Z) : Image :=
  try_except
    (f <- enhance_body img screen_width screen_height ;; Ok (new_img f))
    img.

(** ** split_image_by_blank_or_dark_spaces *)

(** The loop state: the images appended so far and the heights of the
    segments the warning of line 216 reported. *)
Definition SplitState : Type := (list Image * list Z)%type.

(** One iteration of the loop of line 206, at index [i]. *)
Definition split_step (image : Image) (min_gap min_segment_height : Z)
  (split_positions : list Z) (st : SplitState) (i : nat) : SplitState :=
  let '(cropped_images, skipped) := st in
  let prev := nth (i - 1) split_positions 0 in
  let cur := nth i split_positions 0 in
  if cur - prev >? min_gap then
    let segment := crop image (0, prev, width image, cur) in
    if height segment >=? min_segment_height then
      let segment_cropped := crop_image_by_blank_or_dark_space segment 240 30 in
      let segment_enhanced :=
        enhance_image_for_screen segment_cropped
          final_document_width final_document_height in
      (cropped_images ++ [segment_enhanced], skipped)
    else (cropped_images, skipped ++ [height segment])
  else st.

Definition split_positions_of (image : Image)
  (threshold_light threshold_dark : Z) : list Z :=
  let blank_spaces :=
    detect_blank_or_dark_spaces image threshold_light threshold_dark in
  [0] ++ blank_spaces ++ [height image].

Definition split_loop (image : Image)
  (threshold_light threshold_dark min_gap min_segment_height : Z) : SplitState :=
  let split_positions := split_positions_of image threshold_light threshold_dark in
  fold_left (split_step image min_gap min_segment_height split_positions)
            (seq 1 (length split_positions - 1)) ([], []).

(** The callees handle their own exceptions, so the handler of line 221 is
    never run. *)
Definition split_image_by_blank_or_dark_spaces (image : Image)
  (threshold_light threshold_dark min_gap min_segment_height : Z) : list Image :=
  fst (split_loop image threshold_light threshold_dark min_gap min_segment_height).

(** ** The row ranges of the split loop

    The loop of line 206 visits the consecutive pairs [(prev, cur)] of
    [split_positions]; these definitions name the ranges it considers,
    keeps and skips, so that the properties can speak of segments as row
    ranges [[prev, cur)]. *)

Definition Segment : Type := (Z * Z)%type.

Definition seg_height (s : Segment) : Z := snd s - fst s.

Fixpoint adjacent_pairs (l : list Z) : list Segment :=
  match l with
  | [] => []
  | a :: t =>
      match t with
      | [] => []
      | b :: _ => (a, b) :: adjacent_pairs t
      end
  end.

(** The test of line 207. *)
Definition wider_than_gap (min_gap : Z) (s : Segment) : bool :=
  seg_height s >? min_gap.

(** The test of line 211. *)
Definition tall_enough (min_segment_height : Z) (s : Segment) : bool :=
  seg_height s >=? min_segment_height.

Definition candidate_ranges (image : Image)
  (threshold_light threshold_dark min_gap : Z) : list Segment :=
  filter (wider_than_gap min_gap)
         (adjacent_pairs (split_positions_of image threshold_light threshold_dark)).

Definition emitted_segments (image : Image)
  (threshold_light threshold_dark min_gap min_segment_height : Z) : list Segment :=
  filter (tall_enough min_segment_height)
         (candidate_ranges image threshold_light threshold_dark min_gap).

Definition skipped_segments (image : Image)
  (threshold_light threshold_dark min_gap min_segment_height : Z) : list Segment :=
  filter (fun s => negb (tall_enough min_segment_height s))
         (candidate_ranges image threshold_light threshold_dark min_gap).

(** Lines 208-213 for the row range [s]. *)
Definition process_segment (image : Image) (s : Segment) : Image :=
  enhance_image_for_screen
    (crop_image_by_blank_or_dark_space
       (crop image (0, fst s, width image, snd s)) 240 30)
    final_document_width final_document_height.

(** Two segments in top-to-bottom order without a common row. *)
Definition seg_before (a b : Segment) : Prop := snd a <= fst b.

(** ** split_and_crop_image *)

Inductive Branch : Type :=
| MangaBranch   (* the [else] of line 235: one crop, one fit *)
| StripBranch.  (* line 231: the splitter *)

(** The test of line 230. *)
Definition page_branch (image : Image) (page_num : Z) : Branch :=
  if negb (page_num =? 0) && is_not_manga image then StripBranch else MangaBranch.

(** Lines 227-242; [img_index] is only logged.  The callees handle their
    own exceptions, so the handler of line 240 is never run. *)
Definition split_and_crop_image (image : Image) (page_num img_index : Z)
  : list Image :=
  match page_branch image page_num with
  | StripBranch =>
      fold_left (fun images image_segment => images ++ [image_segment])
                (split_image_by_blank_or_dark_spaces image 240 15 20 75) []
  | MangaBranch =>
      let image_cropped :=
        enhance_image_for_screen
          (crop_image_by_blank_or_dark_space image 240 30)
          final_document_width final_document_height in
      [] ++ [image_cropped]
  end.

End Screen.

(** ** Vocabulary of the specification *)

(** The image has multi-channel colour: it is RGB and the channels of
    some pixel differ. *)
Definition has_color (image : Image) : Prop :=
  match raster image with
  | RasterL _ => False
  | RasterRGB f =>
      exists x y, 0 <= x < width image /\ 0 <= y < height image
                  /\ ~ (channel0 (f x y) = channel1 (f x y)
                        /\ channel1 (f x y) = channel2 (f x y))
  end.

(** The aspect ratio [width / height] exceeds 1.5. *)
Definition is_wide (image : Image) : Prop :=
  height image <> 0 /\ (3 # 2 < inject_Z (width image) / inject_Z (height image))%Q.

(** A pixel of the image that the content mask keeps: its intensity is
    neither above the light threshold nor below the dark one. *)
Definition content_pixel (image : Image) (blank_threshold dark_threshold : Z)
  (x y : Z) : Prop :=
  0 <= x < width image /\ 0 <= y < height image
  /\ ~ convert_L image x y > blank_threshold
  /\ ~ convert_L image x y < dark_threshold.

(** The box holds every content pixel. *)
Definition covers (image : Image) (blank_threshold dark_threshold : Z)
  (box : Box) : Prop :=
  let '(x0, y0, x1, y1) := box in
  forall x y, content_pixel image blank_threshold dark_threshold x y ->
              x0 <= x < x1 /\ y0 <= y < y1.

(** Box [a] lies inside box [b]. *)
Definition box_inside (a b : Box) : Prop :=
  let '(ax0, ay0, ax1, ay1) := a in
  let '(bx0, by0, bx1, by1) := b in
  bx0 <= ax0 /\ by0 <= ay0 /\ ax1 <= bx1 /\ ay1 <= by1.

(** A covering box inside every covering box. *)
Definition minimal_cover (image : Image) (blank_threshold dark_threshold : Z)
  (box : Box) : Prop :=
  covers image blank_threshold dark_threshold box
  /\ forall b, covers image blank_threshold dark_threshold b -> box_inside box b.

(** The sum of the intensities of the image, the numerator of its mean. *)
Definition gray_sum (image : Image) : Z :=
  zsum (getdata (convert_L image) (width image) (height image)).

(** ** Pages and filters to run the definitions on *)

(** Nearest-neighbour sampling, a resampling filter that computes. *)
Definition nearest_neighbour (image : Image) (w h : Z) : Raster :=
  match raster image with
  | RasterL f =>
      RasterL (fun x y => f (x * width image / w) (y * height image / h))
  | RasterRGB f =>
      RasterRGB (fun x y => f (x * width image / w) (y * height image / h))
  end.

(** An RGB page of one colour. *)
Definition plain_page (w h : Z) (color : rgb) : Image :=
  mkImage w h (RasterRGB (fun _ _ => color)).

(** The 800x2000 page of the segmentation scenario: two 50-pixel black
    bands, rows 600..649 and 1400..1449, on a background of grey level
    [bg] (255 is white). *)
Definition in_band (y : Z) : bool :=
  ((600 <=? y) && (y <? 650)) || ((1400 <=? y) && (y <? 1450)).

Definition banded_page (bg : Z) : Image :=
  mkImage 800 2000
    (RasterRGB (fun _ y => if in_band y then (0, 0, 0) else (bg, bg, bg))).

(** ** temporal_pdf_image

    The two computations of the function that are not file access: the
    path of the temporary file (lines 264 and 281) and the size the image
    is resized to (lines 268-278).  A path is the list of its characters. *)

Definition path : Type := list ascii.

(** [s.split('.')[0]]: the characters before the first dot, all of them
    when there is none. *)
Fixpoint before_first_dot (s : path) : path :=
  match s with
  | [] => []
  | c :: t => if Ascii.eqb c "."%char then [] else c :: before_first_dot t
  end.

Definition temporal_pdf_path (image_path : path) : path :=
  let image_path := before_first_dot image_path in
  image_path ++ ["."; "p"; "d"; "f"]%char.

(** The argument of [img.resize] at line 278; the division of line 269 is
    not inside a [try].  [width] and [height] are ints, as annotated, so
    [int()] of the side that was matched is that side. *)
Definition temporal_pdf_size (img_width img_height width height : Z)
  : result (Z * Z) :=
  aspect <- truediv img_width img_height ;;
  if Qgtb aspect 1 then
    new_height <- fdiv (float_of_int width) aspect ;;
    Ok (py_int (inject_Z width), py_int new_height)
  else
    Ok (py_int (fmul (float_of_int height) aspect), py_int (inject_Z height)).

(** ** delete_images_in_folder

    The folder is the list of its entries, and [os.listdir] lists it (an
    existing folder).  [os.remove] may raise for a file (a lock, a
    permission): [remove_fails] says for which names. *)

Record DirEntry : Type := mkEntry {
  entry_name : path;
  entry_is_file : bool
}.

Definition Folder : Type := list DirEntry.

Definition path_eqb (a b : path) : bool :=
  if list_eq_dec ascii_dec a b then true else false.

(** [c.lower()] on an ASCII character. *)
Definition ascii_lower (c : ascii) : ascii :=
  let n := N_of_ascii c in
  if ((65 <=? n) && (n <=? 90))%N then ascii_of_N (n + 32) else c.

(** [s.lower()] *)
Definition lower (s : path) : path := map ascii_lower s.

(** [s.startswith(p)] *)
Fixpoint startswith (s p : path) : bool :=
  match p with
  | [] => true
  | c :: p' =>
      match s with
      | [] => false
      | d :: s' => Ascii.eqb d c && startswith s' p'
      end
  end.

(** [s.endswith(p)] and [s.endswith(tuple)] *)
Definition endswith (s p : path) : bool := startswith (rev s) (rev p).

Definition endswith_any (s : path) (extensions : list path) : bool :=
  existsb (endswith s) extensions.

(** The default of the parameter [extensions]. *)
Definition image_extensions : list path :=
  [ ["p"; "n"; "g"]; ["j"; "p"; "g"]; ["j"; "p"; "e"; "g"];
    ["b"; "m"; "p"]; ["g"; "i"; "f"] ]%char.

(** [os.listdir], [os.path.isfile] and [os.remove] on the folder. *)
Definition listdir (folder : Folder) : list path := map entry_name folder.

Definition isfile (folder : Folder) (name : path) : bool :=
  existsb (fun e => path_eqb (entry_name e) name && entry_is_file e) folder.

Definition remove_entry (folder : Folder) (name : path) : Folder :=
  filter (fun e => negb (path_eqb (entry_name e) name)) folder.

Section Delete.

Variable remove_fails : path -> bool.

Definition os_remove (folder : Folder) (name : path) : option Folder :=
  if remove_fails name then None else Some (remove_entry folder name).

(** The loop of line 252 over the remaining names; an exception of
    [os.remove] ends it with the folder as it is (line 258). *)
Fixpoint delete_loop (extensions : list path) (files : list path)
  (folder : Folder) : Folder :=
  match files with
  | [] => folder
  | file :: rest =>
      if endswith_any (lower file) extensions && isfile folder file then
        match os_remove folder file with
        | Some folder' => delete_loop extensions rest folder'
        | None => folder
        end
      else delete_loop extensions rest folder
  end.

Definition delete_images_in_folder (folder : Folder) (extensions : list path)
  : Folder :=
  let files := listdir folder in
  delete_loop extensions files folder.

End Delete.

(** The test of line 255 on an entry. *)
Definition is_image_file (extensions : list path) (e : DirEntry) : bool :=
  endswith_any (lower (entry_name e)) extensions && entry_is_file e.

(** The name of the entry is one of [files]. *)
Definition named_in (files : list path) (e : DirEntry) : bool :=
  existsb (path_eqb (entry_name e)) files.

(** ** load_image_by_path, load_images_list_by_path, image_generator

    [image_open] is [Image.open] followed by the decoding of the file, on
    the file system at hand: [None] when it raises.  [path_join] is
    [os.path.join]. *)

(** [image.convert('RGB')] *)
Definition convert_RGB (image : Image) : Image :=
  mkImage (width image) (height image) (RasterRGB (as_rgb image)).

Section Loading.

Variable image_open : path -> option Image.
Variable path_join : path -> path -> path.

Definition load_image_by_path (image_file_path image_folder_path : path)
  : option Image :=
  let full_path := path_join image_folder_path image_file_path in
  match image_open full_path with
  | Some image => Some (convert_RGB image)
  | None => None
  end.

(** The loop of line 311; an exception leaves it with the images loaded
    so far (line 315). *)
Fixpoint load_loop (image_folder_path : path) (image_files_paths : list path)
  (images : list Image) : list Image :=
  match image_files_paths with
  | [] => images
  | image_path :: rest =>
      let full_path := path_join image_folder_path image_path in
      match image_open full_path with
      | Some image =>
          load_loop image_folder_path rest (images ++ [convert_RGB image])
      | None => images
      end
  end.

Definition load_images_list_by_path (image_files_paths : list path)
  (image_folder_path : path) : list Image :=
  load_loop image_folder_path image_files_paths [].

(** How a generator ends: exhausted, or with an exception. *)
Inductive GeneratorEnd : Type :=
| StopIteration
| Raised.

(** The images the generator yields, in order, and how it ends.  When
    [load_image_by_path] returns [None] the [with] statement of line 295
    raises, as [None] is no context manager. *)
Fixpoint image_generator (image_files_paths : list path)
  (image_folder_path : path) : list Image * GeneratorEnd :=
  match image_files_paths with
  | [] => ([], StopIteration)
  | image_file_path :: rest =>
      match load_image_by_path image_file_path image_folder_path with
      | Some image =>
          let image := convert_RGB image in
          let '(yielded, e) := image_generator rest image_folder_path in
          (image :: yielded, e)
      | None => ([], Raised)
      end
  end.

End Loading.

(** * Properties *)

(** ** Ranges and sums *)

Lemma In_range (n x : Z) : In x (range n) <-> 0 <= x < n.
Proof.
  unfold range. rewrite in_map_iff. split.
  - intros [k [<- Hk]]. apply in_seq in Hk. lia.
  - intros H. exists (Z.to_nat x). split; [lia|]. apply in_seq. lia.
Qed.

Lemma length_range (n : Z) : length (range n) = Z.to_nat n.
Proof. unfold range. now rewrite length_map, length_seq. Qed.

Lemma range_nonpos (n : Z) : n <= 0 -> range n = [].
Proof. intros H. unfold range. now replace (Z.to_nat n) with 0%nat by lia. Qed.

Lemma seq_lt_sorted (n s : nat) :
  StronglySorted Z.lt (map Z.of_nat (seq s n)).
Proof.
  revert s. induction n as [|n IH]; intros s; simpl; constructor.
  - apply IH.
  - apply Forall_forall. intros x Hx. apply in_map_iff in Hx.
    destruct Hx as [k [<- Hk]]. apply in_seq in Hk. lia.
Qed.

Lemma range_sorted (n : Z) : StronglySorted Z.lt (range n).
Proof. apply seq_lt_sorted. Qed.

Lemma StronglySorted_filter {A : Type} (R : A -> A -> Prop) (p : A -> bool) l :
  StronglySorted R l -> StronglySorted R (filter p l).
Proof.
  induction 1 as [|a l Hs IH Hf]; simpl; [constructor|].
  destruct (p a); [|exact IH]. constructor; [exact IH|].
  apply Forall_forall. intros x Hx. apply filter_In in Hx.
  rewrite Forall_forall in Hf. now apply Hf.
Qed.

(** ** The dead rows *)

(** The dead rows come out strictly increasing and inside the image. *)
Lemma detect_sorted image tl td :
  StronglySorted Z.lt (detect_blank_or_dark_spaces image tl td).
Proof. apply StronglySorted_filter, range_sorted. Qed.

Lemma detect_in_bounds image tl td y :
  In y (detect_blank_or_dark_spaces image tl td) -> 0 <= y < height image.
Proof.
  unfold detect_blank_or_dark_spaces. intros H. apply filter_In in H.
  now apply In_range.
Qed.

Lemma split_positions_sorted image tl td :
  0 <= height image ->
  StronglySorted Z.le (split_positions_of image tl td).
Proof.
  intros Hh. unfold split_positions_of. simpl.
  assert (Hs : StronglySorted Z.le
                 (detect_blank_or_dark_spaces image tl td ++ [height image])).
  { pose proof (detect_sorted image tl td) as S.
    pose proof (detect_in_bounds image tl td) as B.
    induction (detect_blank_or_dark_spaces image tl td) as [|a l IH]; simpl.
    - repeat constructor.
    - inversion S as [|? ? S' F]; subst. constructor.
      + apply IH; [exact S'|]. intros y Hy. apply B. now right.
      + apply Forall_app. split.
        * eapply Forall_impl; [|exact F]. simpl. intros; lia.
        * constructor; [|constructor]. specialize (B a (or_introl eq_refl)). lia. }
  constructor; [exact Hs|].
  apply Forall_forall. intros x Hx. apply in_app_iff in Hx. destruct Hx as [Hx|Hx].
  - apply detect_in_bounds in Hx. lia.
  - simpl in Hx. destruct Hx as [<-|[]]. exact Hh.
Qed.

(** ** The split loop as a pass over consecutive split positions *)

Lemma pairs_by_index (l : list Z) :
  map (fun i => (nth (i - 1) l 0, nth i l 0)) (seq 1 (length l - 1))
  = adjacent_pairs l.
Proof.
  induction l as [|a t IH]; [reflexivity|].
  destruct t as [|b t]; [reflexivity|].
  replace (length (a :: b :: t) - 1)%nat with (S (length (b :: t) - 1))
    by (simpl; lia).
  cbn [seq map].
  rewrite <- seq_shift, map_map.
  change (adjacent_pairs (a :: b :: t)) with ((a, b) :: adjacent_pairs (b :: t)).
  rewrite <- IH. f_equal. apply map_ext_in. intros i Hi. apply in_seq in Hi.
  destruct i as [|i]; [lia|].
  cbn [nth]. replace (S (S i) - 1)%nat with (S i) by lia.
  replace (S i - 1)%nat with i by lia. reflexivity.
Qed.

Lemma fold_left_map_arg {A B C : Type} (f : A -> C -> A) (g : B -> C) l a :
  fold_left f (map g l) a = fold_left (fun a x => f a (g x)) l a.
Proof. revert a. induction l as [|x l IH]; intros a; simpl; [reflexivity|apply IH]. Qed.

Lemma fold_left_pointwise {A B : Type} (f g : A -> B -> A) l a :
  (forall a x, f a x = g a x) -> fold_left f l a = fold_left g l a.
Proof.
  intros E. revert a. induction l as [|x l IH]; intros a; simpl; [reflexivity|].
  now rewrite E, IH.
Qed.

Section SplitLoop.

Variable lanczos : Image -> Z -> Z -> Raster.
Variables final_document_width final_document_height : Z.

Let process := process_segment lanczos final_document_width final_document_height.

Lemma split_fold image min_gap min_seg (pairs : list Segment) acc skipped :
  fold_left
    (fun (st : SplitState) (s : Segment) =>
       let '(cropped_images, sk) := st in
       if snd s - fst s >? min_gap then
         if height (crop image (0, fst s, width image, snd s)) >=? min_seg
         then (cropped_images ++ [process image s], sk)
         else (cropped_images,
               sk ++ [height (crop image (0, fst s, width image, snd s))])
       else st)
    pairs (acc, skipped)
  = (acc ++ map (process image)
            (filter (tall_enough min_seg) (filter (wider_than_gap min_gap) pairs)),
     skipped ++ map seg_height
            (filter (fun s => negb (tall_enough min_seg s))
                    (filter (wider_than_gap min_gap) pairs))).
Proof.
  revert acc skipped.
  induction pairs as [|s pairs IH]; intros acc skipped.
  - simpl. now rewrite !app_nil_r.
  - cbn [fold_left filter].
    change (snd s - fst s >? min_gap) with (wider_than_gap min_gap s).
    change (height (crop image (0, fst s, width image, snd s)) >=? min_seg)
      with (tall_enough min_seg s).
    destruct (wider_than_gap min_gap s); [|apply IH].
    cbn [filter]. destruct (tall_enough min_seg s); cbn [negb map];
      rewrite IH, <- app_assoc; reflexivity.
Qed.

(** The loop appends one processed image per emitted segment, in order,
    and reports the height of every skipped one. *)
Lemma split_loop_segments image tl td min_gap min_seg :
  split_loop lanczos final_document_width final_document_height
             image tl td min_gap min_seg
  = (map (process image) (emitted_segments image tl td min_gap min_seg),
     map seg_height (skipped_segments image tl td min_gap min_seg)).
Proof.
  unfold split_loop, emitted_segments, skipped_segments, candidate_ranges.
  set (ps := split_positions_of image tl td).
  rewrite <- (pairs_by_index ps).
  rewrite <- (app_nil_l (map (process image) _)).
  rewrite <- (app_nil_l (map seg_height _)).
  rewrite <- split_fold, fold_left_map_arg.
  apply fold_left_pointwise. intros [acc sk] i. reflexivity.
Qed.

End SplitLoop.

(** ** Order and disjointness of the segments *)

Lemma adjacent_pairs_In (l : list Z) (s : Segment) :
  In s (adjacent_pairs l) -> In (fst s) l /\ In (snd s) l.
Proof.
  induction l as [|a t IH]; [intros []|].
  destruct t as [|b t]; [intros []|].
  change (adjacent_pairs (a :: b :: t)) with ((a, b) :: adjacent_pairs (b :: t)).
  intros [<-|H].
  - simpl. auto.
  - destruct (IH H) as [H1 H2]. split; now right.
Qed.

Lemma adjacent_pairs_sorted (l : list Z) :
  StronglySorted Z.le l -> StronglySorted seg_before (adjacent_pairs l).
Proof.
  induction 1 as [|a t Hs IH Hf]; [constructor|].
  destruct t as [|b t]; [constructor|].
  change (adjacent_pairs (a :: b :: t)) with ((a, b) :: adjacent_pairs (b :: t)).
  constructor; [exact IH|].
  apply Forall_forall. intros s Hs'. apply adjacent_pairs_In in Hs'.
  unfold seg_before. simpl.
  destruct Hs' as [[<-|Hin] _]; [lia|].
  inversion Hs as [|? ? _ Fb]; subst. rewrite Forall_forall in Fb.
  now apply Fb.
Qed.

Lemma emitted_sorted image tl td min_gap min_seg :
  StronglySorted seg_before (emitted_segments image tl td min_gap min_seg).
Proof.
  unfold emitted_segments, candidate_ranges.
  do 2 apply StronglySorted_filter.
  destruct (Z.le_gt_cases 0 (height image)) as [Hh|Hh].
  - apply adjacent_pairs_sorted, split_positions_sorted, Hh.
  - unfold split_positions_of, detect_blank_or_dark_spaces.
    rewrite range_nonpos by lia. simpl. repeat constructor.
Qed.

(** C8: the segments the split loop emits are the consecutive pairs
    [(prev, cur)] of split positions with [cur - prev > min_gap] and
    [cur - prev >= min_segment_height], each processed on its own and in the
    order of the positions: any two of them are disjoint with the earlier
    one above the later one, a pair is emitted or skipped only when it is
    wider than [min_gap], and a pair lower than [min_segment_height] is
    reported as skipped and is not part of any emitted segment. *)
Theorem split_segments_ordered_disjoint_tall
  (lanczos : Image -> Z -> Z -> Raster) (fdw fdh : Z)
  (image : Image) (tl td min_gap min_seg : Z) :
  let segs := emitted_segments image tl td min_gap min_seg in
  let skipped := skipped_segments image tl td min_gap min_seg in
  let pairs := adjacent_pairs (split_positions_of image tl td) in
  split_image_by_blank_or_dark_spaces lanczos fdw fdh image tl td min_gap min_seg
    = map (process_segment lanczos fdw fdh image) segs
  /\ snd (split_loop lanczos fdw fdh image tl td min_gap min_seg)
     = map seg_height skipped
  /\ StronglySorted seg_before segs
  /\ (forall s, In s segs ->
        In s pairs /\ seg_height s > min_gap /\ seg_height s >= min_seg)
  /\ (forall s, In s skipped ->
        In s pairs /\ seg_height s > min_gap /\ seg_height s < min_seg
        /\ ~ In s segs)
  /\ (forall s, In s pairs -> seg_height s > min_gap ->
        In s segs \/ In s skipped).
Proof.
  intros segs skipped pairs.
  unfold split_image_by_blank_or_dark_spaces.
  rewrite split_loop_segments. cbn [fst snd].
  split; [reflexivity|]. split; [reflexivity|].
  split; [apply emitted_sorted|].
  subst segs skipped pairs.
  unfold emitted_segments, skipped_segments, candidate_ranges.
  repeat split.
  - apply filter_In in H. destruct H as [H _]. now apply filter_In in H.
  - apply filter_In in H. destruct H as [H _]. apply filter_In in H.
    destruct H as [_ H]. unfold wider_than_gap in H. lia.
  - apply filter_In in H. destruct H as [_ H]. unfold tall_enough in H. lia.
  - apply filter_In in H. destruct H as [H _]. now apply filter_In in H.
  - apply filter_In in H. destruct H as [H _]. apply filter_In in H.
    destruct H as [_ H]. unfold wider_than_gap in H. lia.
  - apply filter_In in H. destruct H as [_ H]. unfold tall_enough in H. lia.
  - intros H'. apply filter_In in H. apply filter_In in H'.
    destruct H as [_ H]. destruct H' as [_ H'].
    rewrite H' in H. discriminate.
  - intros s Hs Hg.
    assert (Hc : In s (filter (wider_than_gap min_gap)
                         (adjacent_pairs (split_positions_of image tl td)))).
    { apply filter_In. split; [exact Hs|]. unfold wider_than_gap. lia. }
    destruct (tall_enough min_seg s) eqn:E.
    + left. apply filter_In. auto.
    + right. apply filter_In. rewrite E. auto.
Qed.

(** ** Pages whose rows are all dead *)

Lemma filter_all {A : Type} (p : A -> bool) (l : list A) :
  (forall x, In x l -> p x = true) -> filter p l = l.
Proof.
  induction l as [|a l IH]; intros H; simpl; [reflexivity|].
  rewrite (H a (or_introl eq_refl)). f_equal. apply IH. intros x Hx. apply H. now right.
Qed.

Lemma filter_none {A : Type} (p : A -> bool) (l : list A) :
  (forall x, In x l -> p x = false) -> filter p l = [].
Proof.
  induction l as [|a l IH]; intros H; simpl; [reflexivity|].
  rewrite (H a (or_introl eq_refl)). apply IH. intros x Hx. apply H. now right.
Qed.

(** The consecutive pairs of [s, s+1, ..., s+n] are one row apart. *)
Lemma consecutive_pairs_unit (n s : nat) (p : Segment) :
  In p (adjacent_pairs (map Z.of_nat (seq s n) ++ [Z.of_nat (s + n)])) ->
  seg_height p = 1.
Proof.
  revert s. induction n as [|n IH]; intros s; [intros []|].
  cbn [seq map app].
  replace (s + S n)%nat with (S s + n)%nat by lia.
  assert (E : exists t, map Z.of_nat (seq (S s) n) ++ [Z.of_nat (S s + n)]
                        = Z.of_nat (S s) :: t).
  { destruct n; simpl; [rewrite Nat.add_0_r|]; eauto. }
  destruct E as [t E]. specialize (IH (S s)). rewrite E in *.
  change (adjacent_pairs (Z.of_nat s :: Z.of_nat (S s) :: t))
    with ((Z.of_nat s, Z.of_nat (S s)) :: adjacent_pairs (Z.of_nat (S s) :: t)).
  intros [<-|H]; [unfold seg_height; cbn [fst snd]; lia|now apply IH].
Qed.

Section AllDead.

Variables (image : Image) (tl td : Z).

Hypothesis all_dead :
  forall y, 0 <= y < height image ->
            row_is_dead (convert_L image) (width image) tl td y = true.

Lemma all_dead_positions :
  split_positions_of image tl td = [0] ++ range (height image) ++ [height image].
Proof.
  unfold split_positions_of, detect_blank_or_dark_spaces.
  rewrite filter_all; [reflexivity|].
  intros y Hy. apply all_dead. now apply In_range.
Qed.

Lemma all_dead_gaps (p : Segment) :
  In p (adjacent_pairs (split_positions_of image tl td)) -> seg_height p <= 1.
Proof.
  rewrite all_dead_positions.
  destruct (Z.le_gt_cases (height image) 0) as [Hh|Hh].
  - rewrite range_nonpos by exact Hh. simpl.
    intros [<-|[]]. unfold seg_height. simpl. lia.
  - unfold range.
    replace (height image) with (Z.of_nat (0 + Z.to_nat (height image))) at 2 by lia.
    destruct (Z.to_nat (height image)) as [|n] eqn:E; [lia|].
    change ([0] ++ map Z.of_nat (seq 0 (S n)) ++ [Z.of_nat (0 + S n)])
      with (0 :: (map Z.of_nat (seq 0 (S n)) ++ [Z.of_nat (0 + S n)])).
    cbn [seq map app adjacent_pairs].
    intros [<-|H]; [unfold seg_height; cbn [fst snd]; lia|].
    enough (seg_height p = 1) by lia.
    apply (consecutive_pairs_unit (S n) 0). exact H.
Qed.

Lemma all_dead_no_candidates (min_gap : Z) :
  1 <= min_gap -> candidate_ranges image tl td min_gap = [].
Proof.
  intros Hg. unfold candidate_ranges. apply filter_none.
  intros p Hp. apply all_dead_gaps in Hp. unfold wider_than_gap. lia.
Qed.

End AllDead.

Lemma fold_left_append {A : Type} (l acc : list A) :
  fold_left (fun images image_segment => images ++ [image_segment]) l acc
  = acc ++ l.
Proof.
  revert acc. induction l as [|a l IH]; intros acc; simpl.
  - now rewrite app_nil_r.
  - rewrite IH, <- app_assoc. reflexivity.
Qed.

Section StripBranch.

Variable lanczos : Image -> Z -> Z -> Raster.
Variables final_document_width final_document_height : Z.

Lemma no_candidates_no_images image tl td min_gap min_seg :
  candidate_ranges image tl td min_gap = [] ->
  split_image_by_blank_or_dark_spaces lanczos final_document_width
    final_document_height image tl td min_gap min_seg = [].
Proof.
  intros H. unfold split_image_by_blank_or_dark_spaces.
  rewrite split_loop_segments. unfold emitted_segments. now rewrite H.
Qed.

Lemma strip_branch_images image page_num img_index :
  page_branch image page_num = StripBranch ->
  split_and_crop_image lanczos final_document_width final_document_height
    image page_num img_index
  = split_image_by_blank_or_dark_spaces lanczos final_document_width
      final_document_height image 240 15 20 75.
Proof.
  intros H. unfold split_and_crop_image. rewrite H. apply fold_left_append.
Qed.

End StripBranch.

(** C10: when every row of the image is dead and [min_gap >= 1],
    consecutive split positions are at most one row apart, no range exceeds
    [min_gap], and [split_image_by_blank_or_dark_spaces] returns the empty
    list; such a page sent through the strip-style branch of
    [split_and_crop_image] contributes no output image. *)
Theorem all_rows_dead_split_empty
  (lanczos : Image -> Z -> Z -> Raster) (fdw fdh : Z)
  (image : Image) (tl td min_gap min_seg : Z) :
  (forall y, 0 <= y < height image ->
             row_is_dead (convert_L image) (width image) tl td y = true) ->
  1 <= min_gap ->
  (forall p, In p (adjacent_pairs (split_positions_of image tl td)) ->
             seg_height p <= 1)
  /\ split_image_by_blank_or_dark_spaces lanczos fdw fdh image
       tl td min_gap min_seg = []
  /\ (forall page_num img_index,
        tl = 240 -> td = 15 ->
        page_branch image page_num = StripBranch ->
        split_and_crop_image lanczos fdw fdh image page_num img_index = []).
Proof.
  intros Hdead Hgap. split; [|split].
  - intros p. now apply all_dead_gaps.
  - apply no_candidates_no_images. now apply all_dead_no_candidates.
  - intros page_num img_index -> -> Hb.
    rewrite strip_branch_images by exact Hb.
    apply no_candidates_no_images. apply all_dead_no_candidates; [exact Hdead|lia].
Qed.

(** Instance of C10: a 4x3 page of the near-white colour (255, 255, 250). *)
Lemma all_rows_dead_split_empty_witness :
  1 <= 20
  /\ split_image_by_blank_or_dark_spaces nearest_neighbour 1072 1448
       (plain_page 4 3 (255, 255, 250)) 240 15 20 75 = []
  /\ split_and_crop_image nearest_neighbour 1072 1448
       (plain_page 4 3 (255, 255, 250)) 1 0 = [].
Proof.
  destruct (all_rows_dead_split_empty nearest_neighbour 1072 1448
              (plain_page 4 3 (255, 255, 250)) 240 15 20 75) as [_ [H1 H2]].
  - intros y Hy. simpl in Hy.
    assert (E : y = 0 \/ y = 1 \/ y = 2) by lia.
    destruct E as [->|[->| ->]]; reflexivity.
  - lia.
  - split; [lia|]. split; [exact H1|]. apply H2; reflexivity.
Defined.

(** ** The banded page of the segmentation scenario *)

Lemma row_is_dead_uniform g w tl td y v :
  0 < w ->
  (forall x, 0 <= x < w -> g x y = v) ->
  row_is_dead g w tl td y = (v >? tl) || (v <? td).
Proof.
  intros Hw Hu. unfold row_is_dead, py_all, row_data.
  assert (E : map (fun x => g x y) (range w) = map (fun _ => v) (range w)).
  { apply map_ext_in. intros x Hx. apply Hu. now apply In_range. }
  rewrite E.
  assert (N : exists a l, range w = a :: l).
  { unfold range. destruct (Z.to_nat w) eqn:Ew; [lia|]. simpl. eauto. }
  destruct N as [a [l ->]].
  assert (A : forall (p : Z -> bool) (k : list Z),
             forallb p (map (fun _ => v) (a :: k)) = p v).
  { intros p k. simpl. induction k as [|b k IH]; simpl.
    - apply andb_true_r.
    - simpl in IH. destruct (p v); [exact IH|reflexivity]. }
  now rewrite !A.
Qed.

Lemma banded_page_dead_rows bg y :
  row_is_dead (convert_L (banded_page bg)) (width (banded_page bg)) 240 15 y
  = in_band y || (luma (bg, bg, bg) >? 240) || (luma (bg, bg, bg) <? 15).
Proof.
  rewrite (row_is_dead_uniform _ _ _ _ _
             (luma (if in_band y then (0, 0, 0) else (bg, bg, bg)))).
  - destruct (in_band y); [reflexivity|]. reflexivity.
  - reflexivity.
  - intros x _. reflexivity.
Qed.

Lemma white_page_all_dead y :
  0 <= y < height (banded_page 255) ->
  row_is_dead (convert_L (banded_page 255)) (width (banded_page 255)) 240 15 y
  = true.
Proof.
  intros _. rewrite banded_page_dead_rows.
  destruct (in_band y); reflexivity.
Qed.

Lemma grey_page_dead_rows :
  detect_blank_or_dark_spaces (banded_page 128) 240 15
  = filter in_band (range 2000).
Proof.
  unfold detect_blank_or_dark_spaces. apply filter_ext. intros y.
  rewrite banded_page_dead_rows.
  destruct (in_band y); reflexivity.
Qed.

Lemma grey_page_segments :
  emitted_segments (banded_page 128) 240 15 20 75
  = [(0, 600); (649, 1400); (1449, 2000)].
Proof.
  unfold emitted_segments, candidate_ranges, split_positions_of.
  rewrite grey_page_dead_rows. vm_compute. reflexivity.
Qed.

(** C1, as the code has it: on the all-white 800x2000 page with the two
    black bands every row is dead (a white row is a dead row as much as a
    black one), so the pipeline with [min_gap = 20] and
    [min_segment_height = 75] yields no segment at all; on the same page
    with a mid-grey (128) background, where the dead rows are exactly the
    rows of the two bands, it yields the three segments [0,600),
    [649,1400), [1449,2000) in that order, each starting at the last dead
    row of the band above it. *)
Theorem banded_page_segments
  (lanczos : Image -> Z -> Z -> Raster) (fdw fdh : Z) :
  (emitted_segments (banded_page 255) 240 15 20 75 = []
   /\ split_image_by_blank_or_dark_spaces lanczos fdw fdh
        (banded_page 255) 240 15 20 75 = [])
  /\ (detect_blank_or_dark_spaces (banded_page 128) 240 15
        = filter in_band (range 2000)
      /\ emitted_segments (banded_page 128) 240 15 20 75
        = [(0, 600); (649, 1400); (1449, 2000)]
      /\ split_image_by_blank_or_dark_spaces lanczos fdw fdh
           (banded_page 128) 240 15 20 75
         = map (process_segment lanczos fdw fdh (banded_page 128))
               [(0, 600); (649, 1400); (1449, 2000)]).
Proof.
  split; [split|split; [|split]].
  - unfold emitted_segments.
    rewrite all_dead_no_candidates;
      [reflexivity|exact white_page_all_dead|lia].
  - apply no_candidates_no_images.
    apply all_dead_no_candidates; [exact white_page_all_dead|lia].
  - exact grey_page_dead_rows.
  - exact grey_page_segments.
  - unfold split_image_by_blank_or_dark_spaces.
    rewrite split_loop_segments, grey_page_segments. reflexivity.
Qed.

(** C1 as stated fails: the all-white banded page yields no segment, not
    the three of the scenario. *)
Lemma white_banded_page_no_segments :
  split_image_by_blank_or_dark_spaces nearest_neighbour 1072 1448
    (banded_page 255) 240 15 20 75 = []
  /\ emitted_segments (banded_page 255) 240 15 20 75
     <> [(0, 600); (650, 1400); (1450, 2000)].
Proof.
  assert (E : candidate_ranges (banded_page 255) 240 15 20 = []).
  { apply all_dead_no_candidates; [exact white_page_all_dead|lia]. }
  split.
  - apply no_candidates_no_images. exact E.
  - unfold emitted_segments. rewrite E. discriminate.
Qed.

(** ** Page classification *)

Lemma np_all_spec (p : Z -> Z -> bool) (w h : Z) :
  np_all p w h = true <->
  forall x y, 0 <= x < w -> 0 <= y < h -> p x y = true.
Proof.
  unfold np_all. rewrite forallb_forall. split.
  - intros H x y Hx Hy.
    specialize (H y (proj2 (In_range h y) Hy)).
    rewrite forallb_forall in H. apply H. now apply In_range.
  - intros H y Hy. apply forallb_forall. intros x Hx.
    apply H; now apply In_range.
Qed.

Lemma forallb_false_ex {A : Type} (p : A -> bool) (l : list A) :
  forallb p l = false -> exists x, In x l /\ p x = false.
Proof.
  induction l as [|a l IH]; simpl; [discriminate|].
  destruct (p a) eqn:E; simpl.
  - intros H. destruct (IH H) as [x [Hx Hp]]. exists x. auto.
  - intros _. exists a. auto.
Qed.

Lemma np_all_false (p : Z -> Z -> bool) (w h : Z) :
  np_all p w h = false ->
  exists x y, 0 <= x < w /\ 0 <= y < h /\ p x y = false.
Proof.
  unfold np_all. intros H.
  apply forallb_false_ex in H. destruct H as [y [Hy H]].
  apply forallb_false_ex in H. destruct H as [x [Hx H]].
  exists x, y. apply In_range in Hx, Hy. auto.
Qed.

Lemma is_colored_spec (image : Image) :
  is_colored image = true <-> has_color image.
Proof.
  unfold is_colored, has_color. destruct (raster image) as [f|f].
  - split; [discriminate|intros []].
  - destruct (np_all (fun x y => channel0 (f x y) =? channel1 (f x y))
                (width image) (height image)) eqn:Ea;
      [destruct (np_all (fun x y => channel1 (f x y) =? channel2 (f x y))
                   (width image) (height image)) eqn:Eb|]; cbn [andb].
    + split; [discriminate|].
      intros [x [y [Hx [Hy Hne]]]]. exfalso. apply Hne.
      rewrite np_all_spec in Ea, Eb.
      specialize (Ea x y Hx Hy). specialize (Eb x y Hx Hy).
      apply Z.eqb_eq in Ea, Eb. auto.
    + split; [intros _|reflexivity].
      apply np_all_false in Eb. destruct Eb as [x [y [Hx [Hy E]]]].
      exists x, y. apply Z.eqb_neq in E. tauto.
    + split; [intros _|reflexivity].
      apply np_all_false in Ea. destruct Ea as [x [y [Hx [Hy E]]]].
      exists x, y. apply Z.eqb_neq in E. tauto.
Qed.

Lemma is_not_manga_is_colored (image : Image) :
  is_not_manga image = is_colored image.
Proof.
  unfold is_not_manga, is_not_manga_body, truediv.
  destruct (height image =? 0) eqn:Eh.
  - cbn [bind try_except]. symmetry.
    destruct (is_colored image) eqn:Ec; [|reflexivity].
    apply is_colored_spec in Ec. unfold has_color in Ec.
    destruct (raster image); [destruct Ec|].
    destruct Ec as [x [y [_ [Hy _]]]]. apply Z.eqb_eq in Eh. lia.
  - cbn [bind].
    destruct (is_colored image); cbn [negb];
      destruct (Qgtb _ _); reflexivity.
Qed.

(** C2, as the code has it: [is_not_manga] answers true exactly for the
    images that have multi-channel colour, whatever their aspect ratio (its
    three branches return true for wide coloured, false for grey and true
    for the remaining, coloured, images); so a page goes to the strip-style
    branch exactly when its index is not 0 and it has colour, every
    greyscale image is treated as manga-style, and a narrow coloured page is
    not. *)
Theorem strip_branch_iff_colored (image : Image) (page_num : Z) :
  (is_not_manga image = true <-> has_color image)
  /\ (page_branch image page_num = StripBranch <->
      page_num <> 0 /\ has_color image)
  /\ (is_colored image = false -> is_not_manga image = false)
  /\ ((exists f, raster image = RasterL f) -> is_not_manga image = false).
Proof.
  rewrite is_not_manga_is_colored.
  split; [apply is_colored_spec|]. split; [|split].
  - unfold page_branch. rewrite is_not_manga_is_colored, <- is_colored_spec.
    destruct (page_num =? 0) eqn:E; cbn [negb andb].
    + apply Z.eqb_eq in E. split; [discriminate|tauto].
    + apply Z.eqb_neq in E. destruct (is_colored image).
      * tauto.
      * split; [discriminate|]. intros [_ H]. discriminate.
  - auto.
  - intros [f Hf]. unfold is_colored. now rewrite Hf.
Qed.

(** C2 as stated fails: a 100x100 red page has aspect ratio 1 <= 1.5 and is
    yet classified as not manga, and goes to the strip branch as page 1. *)
Lemma narrow_red_page_is_not_manga :
  ~ is_wide (plain_page 100 100 (255, 0, 0))
  /\ is_not_manga (plain_page 100 100 (255, 0, 0)) = true
  /\ page_branch (plain_page 100 100 (255, 0, 0)) 1 = StripBranch.
Proof.
  split; [|split].
  - intros [_ H]. vm_compute in H. discriminate.
  - vm_compute. reflexivity.
  - vm_compute. reflexivity.
Qed.

(** C3: with page index 0 the test of line 230 fails whatever the image,
    so [split_and_crop_image] takes the manga-style branch and returns
    exactly one image, the fit of the single content crop. *)
Theorem first_page_is_manga_style
  (lanczos : Image -> Z -> Z -> Raster) (fdw fdh : Z)
  (image : Image) (img_index : Z) :
  page_branch image 0 = MangaBranch
  /\ split_and_crop_image lanczos fdw fdh image 0 img_index
     = [enhance_image_for_screen lanczos
          (crop_image_by_blank_or_dark_space image 240 30) fdw fdh]
  /\ length (split_and_crop_image lanczos fdw fdh image 0 img_index) = 1%nat.
Proof.
  split; [reflexivity|]. split; reflexivity.
Qed.

(** ** Content crop *)

Lemma In_argwhere (mask : Z -> Z -> bool) (w h y x : Z) :
  In (y, x) (argwhere mask w h) <->
  0 <= x < w /\ 0 <= y < h /\ mask x y = true.
Proof.
  unfold argwhere. rewrite in_flat_map. split.
  - intros [y' [Hy' H]]. apply in_map_iff in H.
    destruct H as [x' [E Hx']]. inversion E; subst.
    apply filter_In in Hx'. rewrite In_range in Hx', Hy'. tauto.
  - intros [Hx [Hy Hm]]. exists y. split; [now apply In_range|].
    apply in_map_iff. exists x. split; [reflexivity|].
    apply filter_In. split; [now apply In_range|exact Hm].
Qed.

Lemma crop_mask_spec (image : Image) (bt dt x y : Z) :
  0 <= x < width image -> 0 <= y < height image ->
  (crop_mask (convert_L image) bt dt x y = true <-> content_pixel image bt dt x y).
Proof.
  intros Hx Hy. unfold crop_mask, content_pixel.
  rewrite negb_true_iff, orb_false_iff. split.
  - intros [H1 H2]. repeat split; try lia.
  - intros [_ [_ [H1 H2]]]. split; lia.
Qed.

Lemma In_coords (image : Image) (bt dt y x : Z) :
  In (y, x) (argwhere (crop_mask (convert_L image) bt dt)
                      (width image) (height image))
  <-> content_pixel image bt dt x y.
Proof.
  rewrite In_argwhere. split.
  - intros [Hx [Hy H]]. now apply crop_mask_spec.
  - intros H. pose proof H as [Hx [Hy _]].
    repeat split; try lia. now apply crop_mask_spec.
Qed.

Lemma fold_min_le (l : list Z) (a v : Z) :
  In v (a :: l) -> fold_left Z.min l a <= v.
Proof.
  revert a v. induction l as [|b l IH]; intros a v Hv.
  - destruct Hv as [<-|[]]. simpl. lia.
  - cbn [fold_left].
    pose proof (IH (Z.min a b) (Z.min a b) (or_introl eq_refl)) as Hm.
    destruct Hv as [<-|[<-|H]]; [lia|lia|].
    apply IH. now right.
Qed.

Lemma fold_min_In (l : list Z) (a : Z) : In (fold_left Z.min l a) (a :: l).
Proof.
  revert a. induction l as [|b l IH]; intros a; [now left|].
  cbn [fold_left].
  destruct (IH (Z.min a b)) as [H|H]; [|right; now right].
  rewrite <- H.
  destruct (Z.min_spec a b) as [[_ E]|[_ E]]; rewrite E;
    [now left|right; now left].
Qed.

Lemma fold_max_ge (l : list Z) (a v : Z) :
  In v (a :: l) -> v <= fold_left Z.max l a.
Proof.
  revert a v. induction l as [|b l IH]; intros a v Hv.
  - destruct Hv as [<-|[]]. simpl. lia.
  - cbn [fold_left].
    pose proof (IH (Z.max a b) (Z.max a b) (or_introl eq_refl)) as Hm.
    destruct Hv as [<-|[<-|H]]; [lia|lia|].
    apply IH. now right.
Qed.

Lemma fold_max_In (l : list Z) (a : Z) : In (fold_left Z.max l a) (a :: l).
Proof.
  revert a. induction l as [|b l IH]; intros a; [now left|].
  cbn [fold_left].
  destruct (IH (Z.max a b)) as [H|H]; [|right; now right].
  rewrite <- H.
  destruct (Z.max_spec a b) as [[_ E]|[_ E]]; rewrite E;
    [right; now left|now left].
Qed.

Lemma coords_min_fold (c : Z * Z) (cs : list (Z * Z)) :
  coords_min c cs
  = (fold_left Z.min (map fst cs) (fst c), fold_left Z.min (map snd cs) (snd c)).
Proof.
  unfold coords_min. revert c.
  induction cs as [|d cs IH]; intros c; simpl; [now destruct c|].
  now rewrite IH.
Qed.

Lemma coords_max_fold (c : Z * Z) (cs : list (Z * Z)) :
  coords_max c cs
  = (fold_left Z.max (map fst cs) (fst c), fold_left Z.max (map snd cs) (snd c)).
Proof.
  unfold coords_max. revert c.
  induction cs as [|d cs IH]; intros c; simpl; [now destruct c|].
  now rewrite IH.
Qed.

(** The box of a non-empty coordinate array: every coordinate lies in it
    and each of its four sides is touched by one. *)
Lemma content_box_spec (image : Image) (bt dt : Z) (x0 y0 x1 y1 : Z) :
  content_box image bt dt = Some (x0, y0, x1, y1) ->
  covers image bt dt (x0, y0, x1, y1)
  /\ (exists y, content_pixel image bt dt x0 y)
  /\ (exists x, content_pixel image bt dt x y0)
  /\ (exists y, content_pixel image bt dt (x1 - 1) y)
  /\ (exists x, content_pixel image bt dt x (y1 - 1)).
Proof.
  unfold content_box.
  pose proof (In_coords image bt dt) as HI.
  destruct (argwhere _ _ _) as [|c cs]; [discriminate|].
  rewrite coords_min_fold, coords_max_fold. intros E. inversion E; subst; clear E.
  assert (F : forall p, In p (c :: cs) -> In (fst p) (fst c :: map fst cs)).
  { intros p Hp. change (fst c :: map fst cs) with (map fst (c :: cs)).
    now apply in_map. }
  assert (S : forall p, In p (c :: cs) -> In (snd p) (snd c :: map snd cs)).
  { intros p Hp. change (snd c :: map snd cs) with (map snd (c :: cs)).
    now apply in_map. }
  assert (F' : forall v, In v (fst c :: map fst cs) -> exists x, In (v, x) (c :: cs)).
  { intros v Hv. change (fst c :: map fst cs) with (map fst (c :: cs)) in Hv.
    apply in_map_iff in Hv. destruct Hv as [[a b] [<- Hp]]. now exists b. }
  assert (S' : forall v, In v (snd c :: map snd cs) -> exists y, In (y, v) (c :: cs)).
  { intros v Hv. change (snd c :: map snd cs) with (map snd (c :: cs)) in Hv.
    apply in_map_iff in Hv. destruct Hv as [[a b] [<- Hp]]. now exists a. }
  split; [|split; [|split; [|split]]].
  - intros x y Hc. apply HI in Hc.
    pose proof (fold_min_le _ _ _ (F _ Hc)). pose proof (fold_min_le _ _ _ (S _ Hc)).
    pose proof (fold_max_ge _ _ _ (F _ Hc)). pose proof (fold_max_ge _ _ _ (S _ Hc)).
    cbn [fst snd] in *. lia.
  - destruct (S' _ (fold_min_In (map snd cs) (snd c))) as [y Hy].
    exists y. now apply HI.
  - destruct (F' _ (fold_min_In (map fst cs) (fst c))) as [x Hx].
    exists x. now apply HI.
  - destruct (S' _ (fold_max_In (map snd cs) (snd c))) as [y Hy].
    exists y. replace (_ + 1 - 1) with (fold_left Z.max (map snd cs) (snd c)) by lia.
    now apply HI.
  - destruct (F' _ (fold_max_In (map fst cs) (fst c))) as [x Hx].
    exists x. replace (_ + 1 - 1) with (fold_left Z.max (map fst cs) (fst c)) by lia.
    now apply HI.
Qed.

Lemma content_box_some (image : Image) (bt dt x y : Z) :
  content_pixel image bt dt x y ->
  exists box, content_box image bt dt = Some box.
Proof.
  intros H. apply In_coords in H. unfold content_box.
  destruct (argwhere _ _ _) as [|c cs]; [destruct H|].
  destruct (coords_min c cs) as [y0 x0]. destruct (coords_max c cs) as [my mx].
  eauto.
Qed.

Lemma content_box_none (image : Image) (bt dt : Z) :
  (forall x y, ~ content_pixel image bt dt x y) ->
  content_box image bt dt = None.
Proof.
  intros H. unfold content_box.
  pose proof (In_coords image bt dt) as HI.
  destruct (argwhere _ _ _) as [|[y x] cs]; [reflexivity|].
  exfalso. apply (H x y). apply HI. now left.
Qed.

(** C5: when some pixel of the image is neither above the light threshold
    nor below the dark one, [crop_image_by_blank_or_dark_space] returns the
    image cropped to a box that lies within the image, covers every such
    pixel and is inside every box that covers them all; it is the only box
    with that property. *)
Theorem crop_to_minimal_bounding_box (image : Image) (bt dt : Z) :
  (exists x y, content_pixel image bt dt x y) ->
  exists x0 y0 x1 y1 : Z,
    content_box image bt dt = Some (x0, y0, x1, y1)
    /\ crop_image_by_blank_or_dark_space image bt dt
       = crop image (x0, y0, x1, y1)
    /\ (0 <= x0 < x1 /\ x1 <= width image)
    /\ (0 <= y0 < y1 /\ y1 <= height image)
    /\ minimal_cover image bt dt (x0, y0, x1, y1)
    /\ (forall b, minimal_cover image bt dt b -> b = (x0, y0, x1, y1)).
Proof.
  intros [x [y Hc]].
  destruct (content_box_some image bt dt x y Hc) as [[[[x0 y0] x1] y1] Hb].
  exists x0, y0, x1, y1.
  destruct (content_box_spec image bt dt x0 y0 x1 y1 Hb)
    as [Hcov [[ya Ha] [[xb Hb'] [[yc Hc'] [xd Hd]]]]].
  assert (Hmin : minimal_cover image bt dt (x0, y0, x1, y1)).
  { split; [exact Hcov|]. intros [[[bx0 by0] bx1] by1] Hcb. unfold covers in Hcb.
    pose proof (Hcb _ _ Ha). pose proof (Hcb _ _ Hb').
    pose proof (Hcb _ _ Hc'). pose proof (Hcb _ _ Hd).
    unfold box_inside. lia. }
  split; [exact Hb|]. split.
  { unfold crop_image_by_blank_or_dark_space. now rewrite Hb. }
  pose proof (Hcov _ _ Hc) as Hin.
  destruct Ha as [Ha1 _]. destruct Hb' as [_ [Hb1 _]].
  destruct Hc' as [Hc1 _]. destruct Hd as [_ [Hd1 _]].
  split; [lia|]. split; [lia|]. split; [exact Hmin|].
  intros [[[bx0 by0] bx1] by1] [Hcb Hleast].
  pose proof (Hleast _ Hcov) as I1.
  pose proof (proj2 Hmin _ Hcb) as I2.
  unfold box_inside in I1, I2.
  repeat f_equal; lia.
Qed.

(** Instance of C5: a 3x3 white page with one mid-grey pixel at column 1,
    row 2 is cropped to that pixel. *)
Lemma crop_to_minimal_bounding_box_witness :
  exists x0 y0 x1 y1 : Z,
    let image :=
      mkImage 3 3 (RasterL (fun x y => if (x =? 1) && (y =? 2) then 128 else 255)) in
    content_box image 240 30 = Some (x0, y0, x1, y1)
    /\ crop_image_by_blank_or_dark_space image 240 30
       = crop image (x0, y0, x1, y1)
    /\ (0 <= x0 < x1 /\ x1 <= width image)
    /\ (0 <= y0 < y1 /\ y1 <= height image)
    /\ minimal_cover image 240 30 (x0, y0, x1, y1)
    /\ (forall b, minimal_cover image 240 30 b -> b = (x0, y0, x1, y1)).
Proof.
  apply (crop_to_minimal_bounding_box
           (mkImage 3 3
              (RasterL (fun x y => if (x =? 1) && (y =? 2) then 128 else 255)))
           240 30).
  exists 1, 2. vm_compute.
  repeat split; try reflexivity; intro; discriminate.
Defined.

(** C9: when every pixel of the image is above the blank threshold or
    below the dark threshold, no coordinate survives the mask and
    [crop_image_by_blank_or_dark_space] returns the image it was given. *)
Theorem crop_without_content_returns_image (image : Image) (bt dt : Z) :
  (forall x y, 0 <= x < width image -> 0 <= y < height image ->
               convert_L image x y > bt \/ convert_L image x y < dt) ->
  content_box image bt dt = None
  /\ crop_image_by_blank_or_dark_space image bt dt = image.
Proof.
  intros H.
  assert (E : content_box image bt dt = None).
  { apply content_box_none. intros x y [Hx [Hy [H1 H2]]].
    destruct (H x y Hx Hy); contradiction. }
  split; [exact E|].
  unfold crop_image_by_blank_or_dark_space. now rewrite E.
Qed.

(** Instance of C9: the 100x100 page of intensity 250 of the scenario. *)
Lemma crop_without_content_returns_image_witness :
  crop_image_by_blank_or_dark_space (plain_page 100 100 (250, 250, 250)) 240 30
  = plain_page 100 100 (250, 250, 250).
Proof.
  apply (crop_without_content_returns_image
           (plain_page 100 100 (250, 250, 250)) 240 30).
  intros x y _ _. left. reflexivity.
Defined.

(** ** Doubles

    What the rounding [fl] does: it is monotone, leaves doubles (the
    integers below [2^53] among them) unchanged, commutes with the sign,
    and moves a number by at most the fraction [u53] of itself. *)

Lemma two_pow_pos (e : Z) : (0 < 2 ^ e)%Q.
Proof. apply Qpower_0_lt. reflexivity. Qed.

Lemma two_pow_Z (k : Z) : 0 <= k -> (inject_Z (2 ^ k) == 2 ^ k)%Q.
Proof. intros H. now rewrite Zpower_Qpower. Qed.

Lemma two_pow_le (a b : Z) : a <= b -> (2 ^ a <= 2 ^ b)%Q.
Proof. intros H. apply Qpower_le_compat_l; [exact H|discriminate]. Qed.

Lemma two_pow_lt (a b : Z) : a < b -> (2 ^ a < 2 ^ b)%Q.
Proof. intros H. apply Qpower_lt_compat_l; [exact H|reflexivity]. Qed.

Lemma two_pow_add (a b : Z) : (2 ^ (a + b) == 2 ^ a * 2 ^ b)%Q.
Proof. apply Qpower_plus. discriminate. Qed.

Lemma two_pow_succ (a : Z) : (2 ^ (a + 1) == 2 * 2 ^ a)%Q.
Proof. rewrite two_pow_add. rewrite Qmult_comm. reflexivity. Qed.

Lemma Qlog2_spec (q : Q) :
  (0 < q)%Q -> (2 ^ Qlog2 q <= q /\ q < 2 ^ (Qlog2 q + 1))%Q.
Proof.
  intros Hq. unfold Qlog2. destruct (Qle_bool 1 q) eqn:E.
  - apply Qle_bool_iff in E.
    assert (Hf : 1 <= Qfloor q).
    { change 1 with (Qfloor 1). now apply Qfloor_resp_le. }
    destruct (Z.log2_spec (Qfloor q) ltac:(lia)) as [L1 L2].
    pose proof (Z.log2_nonneg (Qfloor q)) as Hn.
    split.
    + rewrite <- two_pow_Z by assumption.
      apply Qle_trans with (inject_Z (Qfloor q)); [|apply Qfloor_le].
      rewrite <- Zle_Qle. exact L1.
    + rewrite <- two_pow_Z by lia.
      apply Qlt_le_trans with (inject_Z (Qfloor q + 1)); [apply Qlt_floor|].
      rewrite <- Zle_Qle. lia.
  - assert (Hq1 : (q < 1)%Q).
    { apply Qnot_le_lt. intros C. apply Qle_bool_iff in C. congruence. }
    assert (Hnz : ~ (q == 0)%Q) by (intros C; rewrite C in Hq; discriminate).
    assert (Hx : (1 < / q)%Q).
    { apply Qlt_shift_inv_l; [exact Hq|]. now rewrite Qmult_1_l. }
    set (c := Qceiling (/ q)).
    assert (Hc : 1 < c).
    { rewrite Zlt_Qlt. apply Qlt_le_trans with (/ q)%Q; [exact Hx|apply Qle_ceiling]. }
    destruct (Z.log2_up_spec c Hc) as [L1 L2].
    pose proof (Z.log2_up_pos c Hc) as Hp.
    split.
    + rewrite Qpower_opp. apply Qle_shift_inv_r; [apply two_pow_pos|].
      apply Qle_trans with (q * / q)%Q; [rewrite Qmult_inv_r by exact Hnz; discriminate|].
      apply Qmult_le_l; [exact Hq|].
      apply Qle_trans with (inject_Z c); [apply Qle_ceiling|].
      rewrite <- two_pow_Z by lia. rewrite <- Zle_Qle. exact L2.
    + replace (- Z.log2_up c + 1) with (- (Z.log2_up c - 1)) by lia.
      rewrite Qpower_opp. apply Qlt_shift_inv_l; [apply two_pow_pos|].
      apply Qlt_le_trans with (q * / q)%Q; [|rewrite Qmult_inv_r by exact Hnz; discriminate].
      apply Qmult_lt_l; [exact Hq|].
      apply Qle_lt_trans with (inject_Z (c - 1)); [|apply Qceiling_lt].
      rewrite <- two_pow_Z by lia. rewrite <- Zle_Qle.
      replace (Z.pred (Z.log2_up c)) with (Z.log2_up c - 1) in L1 by lia. lia.
Qed.

Lemma two_pow_interval_unique (q : Q) (a b : Z) :
  (2 ^ a <= q)%Q -> (q < 2 ^ (a + 1))%Q ->
  (2 ^ b <= q)%Q -> (q < 2 ^ (b + 1))%Q -> a = b.
Proof.
  intros A1 A2 B1 B2.
  destruct (Z.lt_trichotomy a b) as [H|[H|H]]; [exfalso|exact H|exfalso].
  - assert (2 ^ (a + 1) <= 2 ^ b)%Q by (apply two_pow_le; lia).
    apply (Qlt_irrefl q). eapply Qlt_le_trans; [exact A2|].
    eapply Qle_trans; eassumption.
  - assert (2 ^ (b + 1) <= 2 ^ a)%Q by (apply two_pow_le; lia).
    apply (Qlt_irrefl q). eapply Qlt_le_trans; [exact B2|].
    eapply Qle_trans; eassumption.
Qed.

Lemma Qlog2_unique (q : Q) (a : Z) :
  (2 ^ a <= q)%Q -> (q < 2 ^ (a + 1))%Q -> Qlog2 q = a.
Proof.
  intros A1 A2.
  assert (Hq : (0 < q)%Q) by (eapply Qlt_le_trans; [apply (two_pow_pos a)|exact A1]).
  destruct (Qlog2_spec q Hq) as [B1 B2].
  now apply (two_pow_interval_unique q).
Qed.

Lemma Qlog2_comp (x y : Q) : (x == y)%Q -> Qlog2 x = Qlog2 y.
Proof.
  intros E. unfold Qlog2. rewrite (Qleb_comp 1%Q 1%Q (Qeq_refl 1%Q) x y E).
  rewrite (Qfloor_comp x y E).
  assert (E' : (/ x == / y)%Q) by now rewrite E.
  now rewrite (Qceiling_comp _ _ E').
Qed.

Lemma floor_bounds (q : Q) :
  (inject_Z (Qfloor q) <= q /\ q < inject_Z (Qfloor q) + 1)%Q.
Proof.
  split; [apply Qfloor_le|].
  pose proof (Qlt_floor q) as H. rewrite inject_Z_plus in H. exact H.
Qed.

Lemma rhe_cases (q : Q) :
  round_half_even q = Qfloor q \/ round_half_even q = Qfloor q + 1.
Proof.
  unfold round_half_even. destruct (_ ?= _)%Q; auto. destruct (Z.even _); auto.
Qed.

Lemma rhe_comp (x y : Q) : (x == y)%Q -> round_half_even x = round_half_even y.
Proof.
  intros E. unfold round_half_even. rewrite (Qfloor_comp x y E).
  assert (E' : (x - inject_Z (Qfloor y) == y - inject_Z (Qfloor y))%Q) by now rewrite E.
  now rewrite (Qcompare_comp _ _ E' (1 # 2)%Q (1 # 2)%Q (Qeq_refl _)).
Qed.

Lemma rhe_near (q : Q) :
  (q - (1 # 2) <= inject_Z (round_half_even q)
   /\ inject_Z (round_half_even q) <= q + (1 # 2))%Q.
Proof.
  destruct (floor_bounds q) as [F1 F2]. unfold round_half_even.
  destruct (Qcompare_spec (q - inject_Z (Qfloor q)) (1 # 2)) as [E|L|G].
  - destruct (Z.even (Qfloor q)); rewrite ?inject_Z_plus;
      change (inject_Z 1) with 1%Q; lra.
  - lra.
  - rewrite inject_Z_plus. change (inject_Z 1) with 1%Q. lra.
Qed.

Lemma rhe_int (z : Z) : round_half_even (inject_Z z) = z.
Proof.
  unfold round_half_even. rewrite Qfloor_Z.
  assert (E : ((inject_Z z - inject_Z z ?= 1 # 2) = Lt)%Q).
  { apply Qlt_alt. unfold Qminus. rewrite Qplus_opp_r. reflexivity. }
  now rewrite E.
Qed.

Lemma rhe_mono (x y : Q) :
  (x <= y)%Q -> round_half_even x <= round_half_even y.
Proof.
  intros H. pose proof (Qfloor_resp_le x y H) as Hf.
  destruct (Z.eq_dec (Qfloor x) (Qfloor y)) as [E|N].
  - unfold round_half_even. rewrite E.
    destruct (Qcompare_spec (x - inject_Z (Qfloor y)) (1 # 2)) as [E1|L1|G1];
      destruct (Qcompare_spec (y - inject_Z (Qfloor y)) (1 # 2)) as [E2|L2|G2];
      try lia; try (exfalso; lra); destruct (Z.even (Qfloor y)); lia.
  - destruct (rhe_cases x) as [-> | ->]; destruct (rhe_cases y) as [-> | ->]; lia.
Qed.

Lemma scaled_bounds (q : Q) :
  (0 < q)%Q ->
  (2 ^ 52 <= q / 2 ^ (Qlog2 q - 52) /\ q / 2 ^ (Qlog2 q - 52) < 2 ^ 53)%Q.
Proof.
  intros Hq. destruct (Qlog2_spec q Hq) as [L1 L2]. split.
  - apply Qle_shift_div_l; [apply two_pow_pos|].
    rewrite <- two_pow_add. now replace (52 + (Qlog2 q - 52)) with (Qlog2 q) by lia.
  - apply Qlt_shift_div_r; [apply two_pow_pos|].
    rewrite <- two_pow_add.
    now replace (53 + (Qlog2 q - 52)) with (Qlog2 q + 1) by lia.
Qed.

Lemma mantissa_bounds (q : Q) :
  (0 < q)%Q ->
  2 ^ 52 <= round_half_even (q / 2 ^ (Qlog2 q - 52)) <= 2 ^ 53.
Proof.
  intros Hq. destruct (scaled_bounds q Hq) as [S1 S2]. split.
  - rewrite <- (rhe_int (2 ^ 52)). apply rhe_mono.
    now rewrite two_pow_Z by lia.
  - rewrite <- (rhe_int (2 ^ 53)). apply rhe_mono.
    rewrite two_pow_Z by lia. now apply Qlt_le_weak.
Qed.

Lemma scaled_mul (q : Q) (e : Z) : (q / 2 ^ e * 2 ^ e == q)%Q.
Proof.
  field. intros C. pose proof (two_pow_pos e) as H. rewrite C in H. discriminate.
Qed.

(** The value of a double with mantissa [m] and exponent [e]. *)
Lemma round_pos_representable (q : Q) (m e : Z) :
  2 ^ 52 <= m < 2 ^ 53 ->
  (q == inject_Z m * 2 ^ e)%Q ->
  (round_pos q == q)%Q.
Proof.
  intros [M1 M2] E.
  assert (L : Qlog2 q = e + 52).
  { apply Qlog2_unique; rewrite E.
    - rewrite two_pow_add, Qmult_comm.
      apply Qmult_le_compat_r; [|apply Qlt_le_weak, two_pow_pos].
      rewrite <- two_pow_Z by lia. now rewrite <- Zle_Qle.
    - replace (e + 52 + 1) with (53 + e) by lia. rewrite two_pow_add.
      apply Qmult_lt_compat_r; [apply two_pow_pos|].
      rewrite <- two_pow_Z by lia. now rewrite <- Zlt_Qlt. }
  unfold round_pos. rewrite L. replace (e + 52 - 52) with e by lia.
  assert (S : (q / 2 ^ e == inject_Z m)%Q).
  { rewrite E. field. intros C. pose proof (two_pow_pos e) as H.
    rewrite C in H. discriminate. }
  rewrite (rhe_comp _ _ S), rhe_int. now rewrite E.
Qed.

Lemma round_pos_bounds (q : Q) :
  (0 < q)%Q ->
  (2 ^ Qlog2 q <= round_pos q /\ round_pos q <= 2 ^ (Qlog2 q + 1))%Q.
Proof.
  intros Hq. destruct (mantissa_bounds q Hq) as [M1 M2]. unfold round_pos.
  set (e := Qlog2 q - 52). set (m := round_half_even _) in *. split.
  - replace (Qlog2 q) with (52 + e) at 1 by (unfold e; lia).
    rewrite two_pow_add.
    apply Qmult_le_compat_r; [|apply Qlt_le_weak, two_pow_pos].
    rewrite <- two_pow_Z by lia. now rewrite <- Zle_Qle.
  - replace (Qlog2 q + 1) with (53 + e) by (unfold e; lia).
    rewrite two_pow_add.
    apply Qmult_le_compat_r; [|apply Qlt_le_weak, two_pow_pos].
    rewrite <- two_pow_Z by lia. now rewrite <- Zle_Qle.
Qed.

Lemma round_pos_pos (q : Q) : (0 < q)%Q -> (0 < round_pos q)%Q.
Proof.
  intros Hq. eapply Qlt_le_trans; [apply (two_pow_pos (Qlog2 q))|].
  now apply round_pos_bounds.
Qed.

Lemma round_pos_comp (x y : Q) : (x == y)%Q -> (round_pos x == round_pos y)%Q.
Proof.
  intros E. unfold round_pos. rewrite (Qlog2_comp x y E).
  assert (E' : (x / 2 ^ (Qlog2 y - 52) == y / 2 ^ (Qlog2 y - 52))%Q) by now rewrite E.
  now rewrite (rhe_comp _ _ E').
Qed.

Lemma round_pos_idem (q : Q) :
  (0 < q)%Q -> (round_pos (round_pos q) == round_pos q)%Q.
Proof.
  intros Hq. destruct (mantissa_bounds q Hq) as [M1 M2].
  set (e := Qlog2 q - 52) in *. set (m := round_half_even (q / 2 ^ e)) in *.
  assert (R : (round_pos q == inject_Z m * 2 ^ e)%Q) by reflexivity.
  destruct (Z.eq_dec m (2 ^ 53)) as [E|N].
  - apply (round_pos_representable _ (2 ^ 52) (e + 1)); [lia|].
    rewrite R, E, two_pow_succ.
    change (inject_Z (2 ^ 53)) with (2 * inject_Z (2 ^ 52))%Q. ring.
  - apply (round_pos_representable _ m e); [lia|exact R].
Qed.

Lemma Qlog2_mono (x y : Q) : (0 < x)%Q -> (x <= y)%Q -> Qlog2 x <= Qlog2 y.
Proof.
  intros Hx H.
  assert (Hy : (0 < y)%Q) by (eapply Qlt_le_trans; eassumption).
  destruct (Qlog2_spec x Hx) as [X1 X2]. destruct (Qlog2_spec y Hy) as [Y1 Y2].
  destruct (Z.le_gt_cases (Qlog2 x) (Qlog2 y)) as [L|G]; [exact L|exfalso].
  assert (2 ^ (Qlog2 y + 1) <= 2 ^ Qlog2 x)%Q by (apply two_pow_le; lia).
  apply (Qlt_irrefl y). eapply Qlt_le_trans; [exact Y2|].
  eapply Qle_trans; [eassumption|]. eapply Qle_trans; eassumption.
Qed.

Lemma round_pos_mono (x y : Q) :
  (0 < x)%Q -> (x <= y)%Q -> (round_pos x <= round_pos y)%Q.
Proof.
  intros Hx H.
  assert (Hy : (0 < y)%Q) by (eapply Qlt_le_trans; eassumption).
  pose proof (Qlog2_mono x y Hx H) as L.
  destruct (Z.eq_dec (Qlog2 x) (Qlog2 y)) as [E|N].
  - unfold round_pos. rewrite E.
    apply Qmult_le_compat_r; [|apply Qlt_le_weak, two_pow_pos].
    rewrite <- Zle_Qle. apply rhe_mono.
    apply Qmult_le_compat_r; [exact H|].
    apply Qlt_le_weak, Qinv_lt_0_compat, two_pow_pos.
  - destruct (round_pos_bounds x Hx) as [_ X]. destruct (round_pos_bounds y Hy) as [Y _].
    eapply Qle_trans; [exact X|]. eapply Qle_trans; [|exact Y].
    apply two_pow_le. lia.
Qed.

Lemma round_pos_error (q : Q) :
  (0 < q)%Q -> (q * (1 - u53) <= round_pos q /\ round_pos q <= q * (1 + u53))%Q.
Proof.
  intros Hq. destruct (scaled_bounds q Hq) as [S1 _]. unfold round_pos.
  set (e := Qlog2 q - 52) in *.
  destruct (rhe_near (q / 2 ^ e)) as [N1 N2].
  set (m := inject_Z (round_half_even (q / 2 ^ e))) in *.
  pose proof (two_pow_pos e) as Ht.
  pose proof (scaled_mul q e) as Hs.
  set (s := (q / 2 ^ e)%Q) in *. set (t := (2 ^ e)%Q) in *.
  change (2 ^ 52)%Q with (4503599627370496 # 1) in S1.
  assert (B1 : (s * (1 - u53) <= m)%Q) by (unfold u53; lra).
  assert (B2 : (m <= s * (1 + u53))%Q) by (unfold u53; lra).
  split.
  - rewrite <- Hs at 1.
    setoid_replace (s * t * (1 - u53))%Q with (s * (1 - u53) * t)%Q by ring.
    apply Qmult_le_compat_r; [exact B1|lra].
  - rewrite <- Hs at 1.
    setoid_replace (s * t * (1 + u53))%Q with (s * (1 + u53) * t)%Q by ring.
    apply Qmult_le_compat_r; [exact B2|lra].
Qed.

Lemma fl_pos (q : Q) : (0 < q)%Q -> fl q = round_pos q.
Proof.
  destruct q as [[|p|p] d]; unfold Qlt; cbn [Qnum Qden]; intros H;
    try lia; reflexivity.
Qed.

Lemma fl_neg (q : Q) : (q < 0)%Q -> fl q = (- round_pos (- q))%Q.
Proof.
  destruct q as [[|p|p] d]; unfold Qlt; cbn [Qnum Qden]; intros H;
    try lia; reflexivity.
Qed.

Lemma fl_zero (q : Q) : (q == 0)%Q -> fl q = 0%Q.
Proof.
  destruct q as [[|p|p] d]; unfold Qeq; cbn [Qnum Qden]; intros H;
    try lia; reflexivity.
Qed.

Lemma Q_sign (q : Q) : (q < 0)%Q \/ (q == 0)%Q \/ (0 < q)%Q.
Proof.
  destruct (Q_dec q 0) as [[L|G]|E]; auto.
Qed.

Lemma fl_comp (x y : Q) : (x == y)%Q -> (fl x == fl y)%Q.
Proof.
  intros E. destruct (Q_sign x) as [L|[Z|G]].
  - rewrite (fl_neg x L). assert (L' : (y < 0)%Q) by now rewrite <- E.
    rewrite (fl_neg y L'). apply Qopp_comp, round_pos_comp. now rewrite E.
  - rewrite (fl_zero x Z). assert (Z' : (y == 0)%Q) by now rewrite <- E.
    now rewrite (fl_zero y Z').
  - rewrite (fl_pos x G). assert (G' : (0 < y)%Q) by now rewrite <- E.
    rewrite (fl_pos y G'). now apply round_pos_comp.
Qed.

Lemma fl_pos_pos (q : Q) : (0 < q)%Q -> (0 < fl q)%Q.
Proof. intros H. rewrite (fl_pos q H). now apply round_pos_pos. Qed.

Lemma fl_neg_neg (q : Q) : (q < 0)%Q -> (fl q < 0)%Q.
Proof.
  intros H. rewrite (fl_neg q H).
  assert (0 < round_pos (- q))%Q by (apply round_pos_pos; lra). lra.
Qed.

Lemma fl_nonneg (q : Q) : (0 <= q)%Q -> (0 <= fl q)%Q.
Proof.
  intros H. destruct (Q_sign q) as [L|[Z|G]]; [lra| |].
  - rewrite (fl_zero q Z). apply Qle_refl.
  - apply Qlt_le_weak. now apply fl_pos_pos.
Qed.

Lemma fl_opp (q : Q) : (fl (- q) == - fl q)%Q.
Proof.
  destruct (Q_sign q) as [L|[Z|G]].
  - assert (G : (0 < - q)%Q) by lra.
    rewrite (fl_pos _ G), (fl_neg _ L). ring.
  - assert (Z' : (- q == 0)%Q) by lra.
    rewrite (fl_zero _ Z), (fl_zero _ Z'). reflexivity.
  - assert (L : (- q < 0)%Q) by lra.
    rewrite (fl_neg _ L), (fl_pos _ G).
    apply Qopp_comp, round_pos_comp. ring.
Qed.

Lemma fl_mono (x y : Q) : (x <= y)%Q -> (fl x <= fl y)%Q.
Proof.
  intros H. destruct (Q_sign x) as [L|[Z|G]].
  - destruct (Qlt_le_dec y 0) as [Ly|Gy].
    + rewrite (fl_neg x L), (fl_neg y Ly).
      assert (round_pos (- y) <= round_pos (- x))%Q
        by (apply round_pos_mono; lra). lra.
    + pose proof (fl_neg_neg x L). pose proof (fl_nonneg y Gy). lra.
  - rewrite (fl_zero x Z). apply fl_nonneg. lra.
  - assert (Gy : (0 < y)%Q) by lra.
    rewrite (fl_pos x G), (fl_pos y Gy). now apply round_pos_mono.
Qed.

Lemma fl_idem (q : Q) : (fl (fl q) == fl q)%Q.
Proof.
  destruct (Q_sign q) as [L|[Z|G]].
  - rewrite (fl_neg q L). rewrite fl_opp.
    assert (P : (0 < - q)%Q) by lra.
    rewrite (fl_pos _ (round_pos_pos _ P)). now rewrite round_pos_idem.
  - rewrite (fl_zero q Z). reflexivity.
  - rewrite (fl_pos q G). rewrite (fl_pos _ (round_pos_pos _ G)).
    now apply round_pos_idem.
Qed.

Lemma fl_error (q : Q) :
  (0 <= q)%Q -> (q * (1 - u53) <= fl q /\ fl q <= q * (1 + u53))%Q.
Proof.
  intros H. destruct (Q_sign q) as [L|[Z|G]]; [lra| |].
  - rewrite (fl_zero q Z), Z. split; lra.
  - rewrite (fl_pos q G). now apply round_pos_error.
Qed.

Lemma fl_abs (q : Q) : (Qabs (fl q) == fl (Qabs q))%Q.
Proof.
  destruct (Qlt_le_dec q 0) as [L|G].
  - rewrite (fl_comp _ _ (Qabs_neg q ltac:(lra))), fl_opp.
    apply Qabs_neg. pose proof (fl_neg_neg q L). lra.
  - rewrite (fl_comp _ _ (Qabs_pos q G)). apply Qabs_pos. now apply fl_nonneg.
Qed.

Lemma fl_representable (m e : Z) :
  2 ^ 52 <= m < 2 ^ 53 -> (fl (inject_Z m * 2 ^ e) == inject_Z m * 2 ^ e)%Q.
Proof.
  intros Hm.
  assert (P : (0 < inject_Z m * 2 ^ e)%Q).
  { apply Qmult_lt_0_compat; [|apply two_pow_pos].
    change 0%Q with (inject_Z 0). rewrite <- Zlt_Qlt. lia. }
  rewrite (fl_pos _ P). now apply (round_pos_representable _ m e).
Qed.

(** Integers below [2^53] are doubles. *)
Lemma fl_Z (z : Z) : 0 <= z < 2 ^ 53 -> (fl (inject_Z z) == inject_Z z)%Q.
Proof.
  intros [H0 H1]. destruct (Z.eq_dec z 0) as [->|N]; [reflexivity|].
  assert (Hz : 0 < z) by lia.
  destruct (Z.log2_spec z Hz) as [L1 L2].
  assert (Hk : 0 <= Z.log2 z <= 52).
  { split; [apply Z.log2_nonneg|].
    enough (Z.log2 z < 53) by lia. apply Z.log2_lt_pow2; lia. }
  set (k := Z.log2 z) in *.
  assert (E : (inject_Z z == inject_Z (z * 2 ^ (52 - k)) * 2 ^ (k - 52))%Q).
  { rewrite inject_Z_mult, two_pow_Z by lia.
    rewrite <- Qmult_assoc, <- two_pow_add.
    replace (52 - k + (k - 52)) with 0 by lia. change (2 ^ 0)%Q with 1%Q. ring. }
  rewrite (fl_comp _ _ E), fl_representable; [now rewrite <- E|].
  replace (2 ^ 52) with (2 ^ k * 2 ^ (52 - k))
    by (rewrite <- Z.pow_add_r by lia; f_equal; lia).
  replace (2 ^ 53) with (2 ^ Z.succ k * 2 ^ (52 - k))
    by (rewrite <- Z.pow_add_r by lia; f_equal; lia).
  assert (0 < 2 ^ (52 - k)) by (apply Z.pow_pos_nonneg; lia).
  split; [apply Z.mul_le_mono_nonneg_r; lia|apply Z.mul_lt_mono_pos_r; lia].
Qed.

Lemma fl_half_255 : (fl (255 # 2) == 255 # 2)%Q.
Proof. vm_compute. reflexivity. Qed.

(** ** Float arithmetic of the code, in integers *)

Lemma Qgtb_spec (a b : Q) : Qgtb a b = true <-> (b < a)%Q.
Proof.
  unfold Qgtb. rewrite negb_true_iff. split.
  - intros H. apply Qnot_le_lt. intros L. apply Qle_bool_iff in L. congruence.
  - intros H. destruct (Qle_bool a b) eqn:E; [|reflexivity].
    apply Qle_bool_iff in E. now apply Qlt_not_le in H.
Qed.

Lemma Qgtb_false (a b : Q) : Qgtb a b = false <-> (a <= b)%Q.
Proof.
  unfold Qgtb. rewrite negb_false_iff. apply Qle_bool_iff.
Qed.

Lemma py_int_nonneg (q : Q) : (0 <= q)%Q -> py_int q = Qfloor q.
Proof. intros H. unfold py_int. apply Qle_bool_iff in H. now rewrite H. Qed.

Lemma py_int_zero (q : Q) : (q == 0)%Q -> py_int q = 0.
Proof.
  intros E. unfold py_int.
  destruct (Qle_bool 0 q).
  - rewrite (Qfloor_comp _ _ E). reflexivity.
  - rewrite (Qceiling_comp _ _ E). reflexivity.
Qed.

Lemma py_int_inject (z : Z) : py_int (inject_Z z) = z.
Proof.
  unfold py_int. destruct (Qle_bool 0 (inject_Z z));
    [apply Qfloor_Z|apply Qceiling_Z].
Qed.

Lemma inject_Z_nonzero (a : Z) : a <> 0 -> ~ (inject_Z a == 0)%Q.
Proof.
  intros Ha C. apply Ha. apply inject_Z_injective. exact C.
Qed.

Lemma inject_Z_pos (a : Z) : 0 < a -> (0 < inject_Z a)%Q.
Proof. intros H. change 0%Q with (inject_Z 0). now rewrite <- Zlt_Qlt. Qed.

Lemma inject_Z_nonneg (a : Z) : 0 <= a -> (0 <= inject_Z a)%Q.
Proof. intros H. change 0%Q with (inject_Z 0). now rewrite <- Zle_Qle. Qed.

Lemma ratio_pos (a b : Z) : 0 < a -> 0 < b -> (0 < inject_Z a / inject_Z b)%Q.
Proof.
  intros Ha Hb. apply Qlt_shift_div_l; [now apply inject_Z_pos|].
  rewrite Qmult_0_l. now apply inject_Z_pos.
Qed.

Lemma ratio_nonneg (a b : Z) : 0 <= a -> 0 < b -> (0 <= inject_Z a / inject_Z b)%Q.
Proof.
  intros Ha Hb. apply Qle_shift_div_l; [now apply inject_Z_pos|].
  rewrite Qmult_0_l. now apply inject_Z_nonneg.
Qed.

Lemma ratio_mul (a b : Z) : b <> 0 -> (inject_Z a / inject_Z b * inject_Z b == inject_Z a)%Q.
Proof. intros Hb. field. now apply inject_Z_nonzero. Qed.

Lemma float_of_int_exact (z : Z) :
  0 <= z < 2 ^ 53 -> (float_of_int z == inject_Z z)%Q.
Proof. apply fl_Z. Qed.

(** A double that lies within one [q]-th of [p / q] truncates to the floor
    of [p / q], or to one less when [p / q] is a whole number. *)
Lemma floor_near (x : Q) (p q : Z) :
  0 < q ->
  (inject_Z p - 1 < inject_Z q * x)%Q -> (inject_Z q * x < inject_Z p + 1)%Q ->
  p / q - 1 <= Qfloor x <= p / q /\ (Qfloor x < p / q -> p mod q = 0).
Proof.
  intros Hq L U.
  pose proof (Qfloor_le x) as F1. pose proof (Qlt_floor x) as F2.
  pose proof (inject_Z_pos q Hq) as Q0.
  set (n := Qfloor x) in *.
  assert (A : q * n <= p).
  { enough (q * n < p + 1) by lia.
    rewrite Zlt_Qlt, inject_Z_plus, inject_Z_mult.
    eapply Qle_lt_trans; [|exact U]. apply Qmult_le_l; assumption. }
  assert (B : p <= q * (n + 1)).
  { enough (p - 1 < q * (n + 1)) by lia.
    rewrite Zlt_Qlt. unfold Z.sub. rewrite inject_Z_plus, inject_Z_mult.
    eapply Qlt_trans; [exact L|]. apply Qmult_lt_l; assumption. }
  assert (C : n <= p / q) by (apply Z.div_le_lower_bound; lia).
  assert (D : p / q <= n + 1) by (apply Z.div_le_upper_bound; lia).
  split; [lia|]. intros Lt. assert (E : p / q = n + 1) by lia.
  pose proof (Z.mul_div_le p q Hq) as M. rewrite E in M.
  assert (p = q * (n + 1)) by lia.
  subst p. rewrite Z.mul_comm. apply Z.mod_mul. lia.
Qed.

(** The error of [s / fl r] computed in doubles, [r] positive. *)
Lemma div_error (a r y x H : Q) :
  (0 < r -> 0 <= H -> 0 <= y -> 0 < a ->
   r * (1 - u53) <= a -> a <= r * (1 + u53) ->
   y * (1 - u53) <= x -> x <= y * (1 + u53) ->
   y * a * H <= 2 ^ 51 ->
   y * a * H - 1 < r * H * x /\ r * H * x < y * a * H + 1)%Q.
Proof.
  intros Hr HH Hy Ha A1 A2 X1 X2 P1.
  change (2 ^ 51)%Q with (2251799813685248 # 1) in P1.
  unfold u53 in *.
  assert (X0 : (0 <= x)%Q) by nra.
  assert (N1 : (0 <= H * x)%Q) by (apply Qmult_le_0_compat; assumption).
  assert (N2 : (0 <= a * H)%Q) by (apply Qmult_le_0_compat; lra).
  pose proof (Qmult_le_compat_r _ _ _ A1 N1) as M1.
  pose proof (Qmult_le_compat_r _ _ _ A2 N1) as M2.
  pose proof (Qmult_le_compat_r _ _ _ X1 N2) as M3.
  pose proof (Qmult_le_compat_r _ _ _ X2 N2) as M4.
  assert (P0 : (0 <= y * a * H)%Q).
  { apply Qmult_le_0_compat; [apply Qmult_le_0_compat|]; lra. }
  split; nra.
Qed.

(** The error of [s * fl r] computed in doubles, [r] not negative. *)
Lemma mul_error (a r s x H : Q) :
  (0 <= r -> 0 <= H -> 0 <= s ->
   r * (1 - u53) <= a -> a <= r * (1 + u53) ->
   s * a * (1 - u53) <= x -> x <= s * a * (1 + u53) ->
   s * (r * H) <= 2 ^ 51 ->
   s * (r * H) - 1 < H * x /\ H * x < s * (r * H) + 1)%Q.
Proof.
  intros Hr HH Hs A1 A2 X1 X2 P1.
  change (2 ^ 51)%Q with (2251799813685248 # 1) in P1.
  unfold u53 in *.
  assert (N1 : (0 <= s * H)%Q) by (apply Qmult_le_0_compat; assumption).
  pose proof (Qmult_le_compat_r _ _ _ A1 N1) as M1.
  pose proof (Qmult_le_compat_r _ _ _ A2 N1) as M2.
  pose proof (Qmult_le_compat_r _ _ _ X1 HH) as M3.
  pose proof (Qmult_le_compat_r _ _ _ X2 HH) as M4.
  assert (P0 : (0 <= s * (r * H))%Q).
  { apply Qmult_le_0_compat; [|apply Qmult_le_0_compat]; lra. }
  split; nra.
Qed.

Lemma fl_lt_sep (x y : Q) :
  (0 <= x)%Q -> (x * (1 + 4 * u53) <= y)%Q -> (x < y)%Q -> (fl x < fl y)%Q.
Proof.
  intros Hx H L.
  destruct (fl_error x Hx) as [_ X]. destruct (fl_error y ltac:(lra)) as [Y _].
  unfold u53 in *.
  destruct (Qle_lt_or_eq _ _ Hx) as [P|Z].
  - lra.
  - rewrite (fl_zero x) by (now symmetry).
    apply fl_pos_pos. lra.
Qed.

(** [a / b > c / d] on doubles is the comparison of the exact ratios when
    [c * b] stays below [2^51]. *)
Lemma aspect_gtb (a b c d : Z) :
  0 < b -> 0 < d -> 0 <= c -> c * b <= 2 ^ 51 ->
  Qgtb (fl (inject_Z a / inject_Z b)) (fl (inject_Z c / inject_Z d))
  = (c * b <? a * d).
Proof.
  intros Hb Hd Hc Hcb.
  pose proof (inject_Z_pos b Hb) as Qb. pose proof (inject_Z_pos d Hd) as Qd.
  pose proof (ratio_mul a b ltac:(lia)) as Ea.
  pose proof (ratio_mul c d ltac:(lia)) as Ec.
  pose proof (ratio_nonneg c d Hc Hd) as Xc.
  set (y := (inject_Z a / inject_Z b)%Q) in *.
  set (x := (inject_Z c / inject_Z d)%Q) in *.
  destruct (Z.ltb_spec (c * b) (a * d)) as [L|L].
  - apply Qgtb_spec. 
    assert (L' : (inject_Z (c * b) + 1 <= inject_Z (a * d))%Q).
    { change 1%Q with (inject_Z 1). rewrite <- inject_Z_plus, <- Zle_Qle. lia. }
    assert (B : (inject_Z (c * b) <= 2 ^ 51)%Q).
    { rewrite <- two_pow_Z by lia. now rewrite <- Zle_Qle. }
    rewrite !inject_Z_mult in L'. rewrite inject_Z_mult in B.
    rewrite <- Ea, <- Ec in L'. rewrite <- Ec in B.
    change (2 ^ 51)%Q with (2251799813685248 # 1) in B.
    set (K := (inject_Z b * inject_Z d)%Q).
    assert (K0 : (0 < K)%Q) by (apply Qmult_lt_0_compat; assumption).
    assert (S : (x * (1 + 4 * u53) * K <= y * K)%Q).
    { unfold K, u53. nra. }
    assert (S' : (x * (1 + 4 * u53) <= y)%Q).
    { apply (Qmult_le_r _ _ K K0). exact S. }
    apply fl_lt_sep; [exact Xc|exact S'|].
    assert (P : (x * K < y * K)%Q) by (unfold K; nra).
    exact (proj1 (Qmult_lt_r _ _ K K0) P).
  - apply Qgtb_false. apply fl_mono.
    assert (L' : (inject_Z (a * d) <= inject_Z (c * b))%Q) by now rewrite <- Zle_Qle.
    rewrite !inject_Z_mult in L'. rewrite <- Ea, <- Ec in L'.
    set (K := (inject_Z b * inject_Z d)%Q).
    assert (K0 : (0 < K)%Q) by (apply Qmult_lt_0_compat; assumption).
    apply (Qmult_le_r _ _ K K0). unfold K. nra.
Qed.

Lemma positive_nonzero (q : Q) : (0 < q)%Q -> Qeq_bool q 0 = false.
Proof.
  intros H. destruct (Qeq_bool q 0) eqn:E; [|reflexivity].
  apply Qeq_bool_iff in E. rewrite E in H. discriminate.
Qed.

Lemma Qfloor_nonneg (x : Q) : (0 <= x)%Q -> 0 <= Qfloor x.
Proof. intros H. change 0 with (Qfloor 0). now apply Qfloor_resp_le. Qed.

Lemma Qfloor_below (x : Q) (n : Z) : (x < inject_Z n + 1)%Q -> Qfloor x <= n.
Proof.
  intros H. enough (Qfloor x < n + 1) by lia.
  rewrite Zlt_Qlt, inject_Z_plus. eapply Qle_lt_trans; [apply Qfloor_le|exact H].
Qed.

Lemma div_side (s w h : Z) :
  0 <= s < 2 ^ 53 -> 0 < w -> 0 < h -> s * h <= 2 ^ 51 ->
  let x := fl (float_of_int s / fl (inject_Z w / inject_Z h)) in
  (0 <= x)%Q
  /\ (inject_Z (s * h) - 1 < inject_Z w * x)%Q
  /\ (inject_Z w * x < inject_Z (s * h) + 1)%Q.
Proof.
  intros Hs Hw Hh Hp.
  pose proof (ratio_pos w h Hw Hh) as R0.
  pose proof (ratio_mul w h ltac:(lia)) as ER.
  set (r := (inject_Z w / inject_Z h)%Q) in *.
  destruct (fl_error r ltac:(lra)) as [A1 A2].
  pose proof (fl_pos_pos r R0) as A0.
  set (a := fl r) in *.
  set (y := (inject_Z s / a)%Q).
  assert (Ey : (y * a == inject_Z s)%Q) by (unfold y; field; lra).
  assert (Y0 : (0 <= y)%Q).
  { apply Qle_shift_div_l; [exact A0|]. rewrite Qmult_0_l.
    apply inject_Z_nonneg; lia. }
  assert (Ex : (float_of_int s / a == y)%Q)
    by (unfold y; now rewrite float_of_int_exact).
  intros x. assert (Efl : (x == fl y)%Q) by (unfold x; apply fl_comp, Ex).
  destruct (fl_error y Y0) as [X1 X2].
  assert (P : (y * a * inject_Z h <= 2 ^ 51)%Q).
  { rewrite Ey, <- inject_Z_mult, <- two_pow_Z by lia. now rewrite <- Zle_Qle. }
  pose proof (div_error a r y (fl y) (inject_Z h) R0
                (inject_Z_nonneg h ltac:(lia)) Y0 A0 A1 A2 X1 X2 P) as [D1 D2].
  rewrite Ey, ER, <- inject_Z_mult in D1, D2.
  rewrite Efl. split; [now apply fl_nonneg|]. split; assumption.
Qed.

Lemma mul_side (s w h : Z) :
  0 <= s < 2 ^ 53 -> 0 <= w -> 0 < h -> s * w <= 2 ^ 51 ->
  let x := fl (float_of_int s * fl (inject_Z w / inject_Z h)) in
  (0 <= x)%Q
  /\ (inject_Z (s * w) - 1 < inject_Z h * x)%Q
  /\ (inject_Z h * x < inject_Z (s * w) + 1)%Q.
Proof.
  intros Hs Hw Hh Hp.
  pose proof (ratio_nonneg w h Hw Hh) as R0.
  pose proof (ratio_mul w h ltac:(lia)) as ER.
  set (r := (inject_Z w / inject_Z h)%Q) in *.
  destruct (fl_error r R0) as [A1 A2].
  pose proof (fl_nonneg r R0) as A0.
  set (a := fl r) in *.
  pose proof (inject_Z_nonneg s ltac:(lia)) as S0.
  assert (T0 : (0 <= inject_Z s * a)%Q) by (now apply Qmult_le_0_compat).
  assert (Ex : (float_of_int s * a == inject_Z s * a)%Q)
    by (now rewrite float_of_int_exact).
  intros x. assert (Efl : (x == fl (inject_Z s * a))%Q)
    by (unfold x; apply fl_comp, Ex).
  destruct (fl_error _ T0) as [X1 X2].
  assert (P : (inject_Z s * (r * inject_Z h) <= 2 ^ 51)%Q).
  { rewrite ER, <- inject_Z_mult, <- two_pow_Z by lia. now rewrite <- Zle_Qle. }
  pose proof (mul_error a r (inject_Z s) (fl (inject_Z s * a)) (inject_Z h) R0
                (inject_Z_nonneg h ltac:(lia)) S0 A1 A2 X1 X2 P) as [D1 D2].
  rewrite ER, <- inject_Z_mult in D1, D2.
  rewrite Efl. split; [now apply fl_nonneg|]. split; assumption.
Qed.

(** [int(s / (w / h))] in doubles against the floor of [s * h / w]. *)
Lemma int_div_aspect (s w h : Z) :
  0 <= s < 2 ^ 53 -> 0 < w -> 0 < h -> s * h <= 2 ^ 51 ->
  let n := py_int (fl (float_of_int s / fl (inject_Z w / inject_Z h))) in
  0 <= n /\ s * h / w - 1 <= n <= s * h / w
  /\ (n < s * h / w -> (s * h) mod w = 0).
Proof.
  intros Hs Hw Hh Hp n.
  destruct (div_side s w h Hs Hw Hh Hp) as [X0 [L U]].
  unfold n. rewrite py_int_nonneg by exact X0.
  split; [now apply Qfloor_nonneg|]. now apply floor_near.
Qed.

(** [int(s * (w / h))] in doubles against the floor of [s * w / h]. *)
Lemma int_mul_aspect (s w h : Z) :
  0 <= s < 2 ^ 53 -> 0 <= w -> 0 < h -> s * w <= 2 ^ 51 ->
  let n := py_int (fl (float_of_int s * fl (inject_Z w / inject_Z h))) in
  0 <= n /\ s * w / h - 1 <= n <= s * w / h
  /\ (n < s * w / h -> (s * w) mod h = 0).
Proof.
  intros Hs Hw Hh Hp n.
  destruct (mul_side s w h Hs Hw Hh Hp) as [X0 [L U]].
  unfold n. rewrite py_int_nonneg by exact X0.
  split; [now apply Qfloor_nonneg|]. now apply floor_near.
Qed.

Lemma fitted_size_cases (iw ih sw sh : Z) :
  ih <> 0 -> sh <> 0 ->
  fitted_size iw ih sw sh
  = if Qgtb (fl (inject_Z iw / inject_Z ih)) (fl (inject_Z sw / inject_Z sh))
    then q <- fdiv (float_of_int sw) (fl (inject_Z iw / inject_Z ih)) ;;
         Ok (sw, py_int q)
    else Ok (py_int (fmul (float_of_int sh) (fl (inject_Z iw / inject_Z ih))), sh).
Proof.
  intros Hih Hsh. unfold fitted_size, truediv.
  destruct (Z.eqb_spec ih 0); [contradiction|].
  destruct (Z.eqb_spec sh 0); [contradiction|]. reflexivity.
Qed.

Lemma fitted_size_when_wide (iw ih sw sh : Z) :
  0 < iw -> 0 < ih -> 0 <= sw -> 0 < sh -> sw * ih <= 2 ^ 51 ->
  sw * ih < iw * sh ->
  fitted_size iw ih sw sh
  = Ok (sw, py_int (fl (float_of_int sw / fl (inject_Z iw / inject_Z ih)))).
Proof.
  intros Hiw Hih Hsw Hsh Hp L.
  rewrite fitted_size_cases by lia. rewrite aspect_gtb by lia.
  destruct (Z.ltb_spec (sw * ih) (iw * sh)); [|lia].
  unfold fdiv. rewrite positive_nonzero; [reflexivity|].
  apply fl_pos_pos. now apply ratio_pos.
Qed.

Lemma fitted_size_when_tall (iw ih sw sh : Z) :
  0 <= iw -> 0 < ih -> 0 <= sw -> 0 < sh -> sw * ih <= 2 ^ 51 ->
  iw * sh <= sw * ih ->
  fitted_size iw ih sw sh
  = Ok (py_int (fl (float_of_int sh * fl (inject_Z iw / inject_Z ih))), sh).
Proof.
  intros Hiw Hih Hsw Hsh Hp L.
  rewrite fitted_size_cases by lia. rewrite aspect_gtb by lia.
  destruct (Z.ltb_spec (sw * ih) (iw * sh)); [lia|]. reflexivity.
Qed.

(** On an image that has rows and a canvas that has rows the size
    computation raises nothing. *)
Lemma fitted_size_total (iw ih sw sh : Z) :
  0 <= iw -> 0 < ih -> 0 <= sw -> 0 < sh ->
  exists nw nh, fitted_size iw ih sw sh = Ok (nw, nh).
Proof.
  intros Hiw Hih Hsw Hsh. rewrite fitted_size_cases by lia.
  pose proof (fl_nonneg _ (ratio_nonneg sw sh Hsw Hsh)) as S0.
  destruct (Qgtb _ _) eqn:T; [|eauto].
  apply Qgtb_spec in T. unfold fdiv.
  rewrite positive_nonzero by lra. cbn [bind]. eauto.
Qed.

(** Whatever the image, the size it is resized to lies inside a canvas
    whose sides are C ints. *)
Lemma fitted_within_canvas (iw ih sw sh nw nh : Z) :
  0 <= iw -> 0 < ih -> 0 <= sw < 2 ^ 31 -> 0 < sh < 2 ^ 31 ->
  fitted_size iw ih sw sh = Ok (nw, nh) ->
  0 <= nw <= sw /\ 0 <= nh <= sh /\ (nw = sw \/ nh = sh).
Proof.
  intros Hiw Hih Hsw Hsh. rewrite fitted_size_cases by lia.
  pose proof (ratio_nonneg iw ih Hiw Hih) as R0.
  pose proof (ratio_nonneg sw sh ltac:(lia) ltac:(lia)) as G0.
  pose proof (ratio_mul sw sh ltac:(lia)) as EG.
  set (r := (inject_Z iw / inject_Z ih)%Q) in *.
  set (g := (inject_Z sw / inject_Z sh)%Q) in *.
  pose proof (fl_nonneg r R0) as A0. pose proof (fl_nonneg g G0) as S0.
  destruct (fl_error g G0) as [G1 G2].
  pose proof (inject_Z_nonneg sw ltac:(lia)) as Qsw.
  pose proof (inject_Z_pos sh ltac:(lia)) as Qsh.
  assert (Bsw : (inject_Z sw <= 2 ^ 31)%Q).
  { rewrite <- two_pow_Z by lia. rewrite <- Zle_Qle. lia. }
  assert (Bsh : (inject_Z sh <= 2 ^ 31)%Q).
  { rewrite <- two_pow_Z by lia. rewrite <- Zle_Qle. lia. }
  change (2 ^ 31)%Q with (2147483648 # 1) in Bsw, Bsh.
  set (a := fl r) in *. set (s := fl g) in *.
  destruct (Qgtb a s) eqn:T.
  - (* wide *)
    apply Qgtb_spec in T. assert (Apos : (0 < a)%Q) by lra.
    unfold fdiv. rewrite (positive_nonzero a Apos). cbn [bind].
    intros E. injection E as E1 E2. subst nw.
    set (y := (inject_Z sw / a)%Q).
    assert (Ey : (y * a == inject_Z sw)%Q) by (unfold y; field; lra).
    assert (Y0 : (0 <= y)%Q).
    { apply Qle_shift_div_l; [exact Apos|]. now rewrite Qmult_0_l. }
    assert (Ex : (fl (float_of_int sw / a) == fl y)%Q).
    { apply fl_comp. unfold y. rewrite float_of_int_exact by lia. reflexivity. }
    destruct (fl_error y Y0) as [_ X2].
    assert (X0 : (0 <= fl (float_of_int sw / a))%Q) by (rewrite Ex; now apply fl_nonneg).
    rewrite py_int_nonneg in E2 by exact X0.
    split; [lia|]. split; [|now left]. rewrite <- E2.
    split; [now apply Qfloor_nonneg|]. apply Qfloor_below. rewrite Ex.
    destruct (Z.eq_dec sw 0) as [Z|NZ].
    + assert (y == 0)%Q by (unfold y; rewrite Z; unfold Qdiv; apply Qmult_0_l).
      rewrite (fl_zero y) by assumption. lra.
    + assert (Gpos : (0 < g)%Q) by (apply ratio_pos; lia).
      assert (Ypos : (0 < y)%Q).
      { apply Qlt_shift_div_l; [exact Apos|]. rewrite Qmult_0_l.
        apply inject_Z_pos. lia. }
      assert (M1 : (y * (g * (1 - u53)) <= y * s)%Q)
        by (apply Qmult_le_l; assumption).
      assert (M2 : (y * s < y * a)%Q) by (apply Qmult_lt_l; assumption).
      assert (M3 : (g * (y * (1 - u53)) < g * inject_Z sh)%Q).
      { rewrite EG. rewrite <- Ey.
        eapply Qle_lt_trans; [|exact M2].
        setoid_replace (g * (y * (1 - u53)))%Q with (y * (g * (1 - u53)))%Q by ring.
        exact M1. }
      pose proof (proj1 (Qmult_lt_l _ _ g Gpos) M3) as M4.
      unfold u53 in *. lra.
  - (* tall *)
    apply Qgtb_false in T.
    intros E. injection E as E1 E2. subst nh.
    assert (T0 : (0 <= inject_Z sh * a)%Q)
      by (apply Qmult_le_0_compat; [lra|exact A0]).
    assert (Ex : (fmul (float_of_int sh) a == fl (inject_Z sh * a))%Q).
    { unfold fmul. apply fl_comp. rewrite float_of_int_exact by lia. reflexivity. }
    destruct (fl_error _ T0) as [_ X2].
    assert (X0 : (0 <= fmul (float_of_int sh) a)%Q) by (rewrite Ex; now apply fl_nonneg).
    rewrite py_int_nonneg in E1 by exact X0.
    split; [|split; [lia|now right]]. rewrite <- E1.
    split; [now apply Qfloor_nonneg|]. apply Qfloor_below. rewrite Ex.
    assert (M1 : (inject_Z sh * a <= inject_Z sh * (g * (1 + u53)))%Q).
    { apply Qmult_le_l; [exact Qsh|]. lra. }
    assert (M2 : (inject_Z sh * (g * (1 + u53)) == inject_Z sw * (1 + u53))%Q).
    { rewrite <- EG. ring. }
    rewrite M2 in M1. unfold u53 in *. nra.
Qed.

(** ** The contrast test *)

Lemma float_255 : (float_of_int 255 == 255)%Q.
Proof. vm_compute. reflexivity. Qed.

(** [|255 - m| > m] says that [m] is below 127.5. *)
Lemma exact_contrast (m : Q) : (m < Qabs (255 - m))%Q <-> (m < 255 # 2)%Q.
Proof.
  split; intros H.
  - apply Qnot_le_lt. intros C.
    assert (L : (Qabs (255 - m) <= m)%Q)
      by (apply Qabs_Qle_condition; split; lra).
    lra.
  - pose proof (Qle_Qabs (255 - m)). lra.
Qed.

(** The test of line 39, computed in doubles on a double [m], agrees with
    the exact one. *)
Lemma contrast_test (m : Q) :
  (fl m == m)%Q ->
  Qgtb (Qabs (fsub (float_of_int 255) m)) m = Qgtb (255 # 2) m.
Proof.
  intros Hm. unfold fsub.
  assert (E : (fl (float_of_int 255 - m) == fl (255 - m))%Q)
    by (apply fl_comp; now rewrite float_255).
  destruct (Qlt_le_dec m (255 # 2)) as [L|G].
  - assert (T : Qgtb (255 # 2) m = true) by now apply Qgtb_spec.
    rewrite T. apply Qgtb_spec.
    assert (F : (fl (255 # 2) <= fl (255 - m))%Q) by (apply fl_mono; lra).
    rewrite fl_half_255 in F.
    pose proof (Qle_Qabs (fl (float_of_int 255 - m))) as A.
    rewrite E in A at 1. lra.
  - assert (T : Qgtb (255 # 2) m = false) by now apply Qgtb_false.
    rewrite T. apply Qgtb_false.
    rewrite fl_abs. rewrite <- Hm at 2. apply fl_mono.
    rewrite float_255. apply Qabs_Qle_condition. split; lra.
Qed.



(** ** Background colour *)

Lemma length_getdata (g : Z -> Z -> Z) (w h : Z) :
  length (getdata g w h) = (Z.to_nat h * Z.to_nat w)%nat.
Proof.
  unfold getdata. rewrite <- (length_range h).
  induction (range h) as [|y l IH]; [reflexivity|].
  cbn [flat_map length]. rewrite length_app, IH.
  unfold row_data. rewrite length_map, length_range. reflexivity.
Qed.

Lemma count_getdata (g : Z -> Z -> Z) (w h : Z) :
  0 <= w -> 0 <= h -> Z.of_nat (length (getdata g w h)) = w * h.
Proof. intros Hw Hh. rewrite length_getdata. nia. Qed.

(** The mean of an image that has pixels: the double nearest to the sum of
    its grey intensities over their count. *)
Lemma average_brightness_defined (image : Image) :
  0 < width image -> 0 < height image ->
  average_brightness image
  = Ok (fl (inject_Z (gray_sum image) / inject_Z (width image * height image))).
Proof.
  intros Hw Hh. unfold average_brightness, stat_mean, truediv, gray_sum.
  rewrite count_getdata by lia.
  destruct (Z.eqb_spec (width image * height image) 0) as [E|_]; [nia|reflexivity].
Qed.

(** The background of an image that has pixels: black when its mean, as
    the code computes it, is below 127.5. *)
Lemma best_background_by_mean (image : Image) :
  0 < width image -> 0 < height image ->
  best_background_for_image image
  = Ok (if Qgtb (255 # 2)
             (fl (inject_Z (gray_sum image) / inject_Z (width image * height image)))
        then BLACK else WHITE).
Proof.
  intros Hw Hh. unfold best_background_for_image.
  rewrite average_brightness_defined by assumption. cbn [bind].
  rewrite contrast_test by apply fl_idem.
  destruct (Qgtb _ _); reflexivity.
Qed.

(** C6: an image that has pixels has a mean intensity [m], the sum of its
    grey intensities over the number of its pixels as a double (the exact
    quotient rounded to the nearest double), and the background chosen is
    BLACK exactly when [|255 - m| > m] and WHITE otherwise; a tie
    [|255 - m| = m] gives WHITE, and no other colour is ever chosen.  The
    code rounds [255 - m] to a double before it compares; that does not
    change the outcome. *)
Theorem background_by_contrast (image : Image) :
  0 < width image -> 0 < height image ->
  exists m : Q,
    average_brightness image = Ok m
    /\ m = fl (inject_Z (gray_sum image) / inject_Z (width image * height image))
    /\ (best_background_for_image image = Ok BLACK <-> (m < Qabs (255 - m))%Q)
    /\ (best_background_for_image image = Ok WHITE <-> ~ (m < Qabs (255 - m))%Q)
    /\ ((Qabs (255 - m) == m)%Q -> best_background_for_image image = Ok WHITE)
    /\ (best_background_for_image image = Ok BLACK
        \/ best_background_for_image image = Ok WHITE).
Proof.
  intros Hw Hh. eexists. split; [apply average_brightness_defined; assumption|].
  split; [reflexivity|].
  rewrite best_background_by_mean by assumption.
  set (m := fl (inject_Z _ / inject_Z _)).
  destruct (Qgtb (255 # 2) m) eqn:E.
  - assert (L : (m < Qabs (255 - m))%Q) by (apply exact_contrast, Qgtb_spec, E).
    split; [tauto|]. split; [|split; [|now left]].
    + split; [discriminate|]. intros N. contradiction.
    + intros T. rewrite T in L. exfalso. exact (Qlt_irrefl _ L).
  - assert (N : ~ (m < Qabs (255 - m))%Q).
    { intros L. apply exact_contrast, Qgtb_spec in L. congruence. }
    split; [|split; [tauto|split; [reflexivity|now right]]].
    split; [discriminate|]. intros L. contradiction.
Qed.

(** Instance of C6: a 2x2 page of intensity 127 gets BLACK, one of
    intensity 128 gets WHITE. *)
Lemma background_by_contrast_witness :
  (exists m : Q,
     average_brightness (plain_page 2 2 (127, 127, 127)) = Ok m
     /\ (m < Qabs (255 - m))%Q
     /\ best_background_for_image (plain_page 2 2 (127, 127, 127)) = Ok BLACK)
  /\ (exists m : Q,
     average_brightness (plain_page 2 2 (128, 128, 128)) = Ok m
     /\ ~ (m < Qabs (255 - m))%Q
     /\ best_background_for_image (plain_page 2 2 (128, 128, 128)) = Ok WHITE).
Proof.
  split.
  - destruct (background_by_contrast (plain_page 2 2 (127, 127, 127)))
      as [m [Hm [_ [Hb _]]]]; [simpl; lia|simpl; lia|].
    exists m. split; [exact Hm|].
    assert (B : best_background_for_image (plain_page 2 2 (127, 127, 127))
                = Ok BLACK) by (vm_compute; reflexivity).
    split; [apply Hb, B|exact B].
  - destruct (background_by_contrast (plain_page 2 2 (128, 128, 128)))
      as [m [Hm [_ [_ [Hw _]]]]]; [simpl; lia|simpl; lia|].
    exists m. split; [exact Hm|].
    assert (B : best_background_for_image (plain_page 2 2 (128, 128, 128))
                = Ok WHITE) by (vm_compute; reflexivity).
    split; [apply Hw, B|exact B].
Defined.


Lemma best_background_two_colours (image : Image) :
  0 < width image -> 0 < height image ->
  exists c, best_background_for_image image = Ok c /\ (c = BLACK \/ c = WHITE).
Proof.
  intros Hw Hh. rewrite best_background_by_mean by assumption.
  destruct (Qgtb _ _); eexists; split; try reflexivity; auto.
Qed.

(** ** Fitting to the canvas *)

Lemma is_c_int_spec (z : Z) : is_c_int z = true <-> - 2 ^ 31 <= z < 2 ^ 31.
Proof. unfold is_c_int. rewrite andb_true_iff, Z.leb_le, Z.ltb_lt. tauto. Qed.

Lemma c_int_sides (w h : Z) :
  0 <= w < 2 ^ 31 -> 0 <= h < 2 ^ 31 ->
  negb (is_c_int w) || negb (is_c_int h) = false.
Proof.
  intros Hw Hh.
  rewrite (proj2 (is_c_int_spec w)), (proj2 (is_c_int_spec h)) by lia.
  reflexivity.
Qed.

Section Fit.

Variable lanczos : Image -> Z -> Z -> Raster.

Lemma resize_ok (img : Image) (w h : Z) :
  1 <= w < 2 ^ 31 -> 1 <= h < 2 ^ 31 ->
  exists r, resize lanczos img (w, h) = Ok r /\ width r = w /\ height r = h.
Proof.
  intros Hw Hh. unfold resize. rewrite c_int_sides by lia.
  destruct ((width img =? w) && (height img =? h)) eqn:E.
  - apply andb_true_iff in E. destruct E as [Ew Eh].
    apply Z.eqb_eq in Ew, Eh. exists img. auto.
  - destruct (Z.ltb_spec w 1); [lia|]. destruct (Z.ltb_spec h 1); [lia|].
    cbn [orb]. eexists. split; [reflexivity|]. auto.
Qed.

Lemma resize_fails (img : Image) (w h : Z) :
  0 < width img -> 0 < height img -> w < 1 \/ h < 1 ->
  exists e, resize lanczos img (w, h) = Raise e.
Proof.
  intros Hiw Hih Hs. unfold resize.
  destruct ((width img =? w) && (height img =? h)) eqn:E.
  - apply andb_true_iff in E. destruct E as [Ew Eh].
    apply Z.eqb_eq in Ew, Eh. lia.
  - destruct (negb (is_c_int w) || negb (is_c_int h));
      [eexists; reflexivity|].
    destruct (Z.ltb_spec w 1); [eexists; reflexivity|].
    destruct (Z.ltb_spec h 1); [eexists; reflexivity|lia].
Qed.



(** The [try] block of [enhance_image_for_screen] once the resize has
    succeeded and the background is chosen. *)
Lemma enhance_body_ok (img r : Image) (sw sh nw nh : Z) (color : rgb) :
  fitted_size (width img) (height img) sw sh = Ok (nw, nh) ->
  resize lanczos img (nw, nh) = Ok r ->
  best_background_for_image r = Ok color ->
  0 <= sw < 2 ^ 31 -> 0 <= sh < 2 ^ 31 ->
  enhance_body lanczos img sw sh
  = Ok (mkFit (nw, nh) r color ((sw - nw) / 2, (sh - nh) / 2)
          (paste (mkImage sw sh (RasterRGB (fun _ _ => color))) r
                 ((sw - nw) / 2, (sh - nh) / 2))).
Proof.
  intros Hf Hr Hc Hsw Hsh. unfold enhance_body.
  rewrite Hf. cbn [bind]. rewrite Hr. cbn [bind]. rewrite Hc. cbn [bind].
  unfold new_rgb. rewrite c_int_sides by assumption.
  destruct (Z.ltb_spec sw 0); [lia|]. destruct (Z.ltb_spec sh 0); [lia|].
  reflexivity.
Qed.

End Fit.

(** The distance of a side from the exact proportion [p / q], once it is
    the floor of [p / q] or one less on a whole [p / q]. *)
Lemma within_one_pixel (p q n : Z) :
  0 < q -> p / q - 1 <= n <= p / q -> (n < p / q -> p mod q = 0) ->
  0 <= p - n * q <= q.
Proof.
  intros Hq Hn Hm.
  pose proof (Z.div_mod p q ltac:(lia)) as D.
  pose proof (Z.mod_pos_bound p q Hq) as M.
  destruct (Z.eq_dec n (p / q)) as [->|N]; [nia|].
  assert (E : n = p / q - 1) by lia.
  specialize (Hm ltac:(lia)). nia.
Qed.

(** C4, as the code has it, for an image with positive sides and a canvas
    whose sides are positive C ints.  The image is resized to the canvas
    width or to the canvas height, and the size it is resized to never
    exceeds the canvas.  While [canvas_width * image_height] stays within
    [2^51] the choice is the one of the exact aspect ratios: the canvas
    width with the proportional height when the image aspect exceeds the
    canvas aspect, else the canvas height with the proportional width; the
    proportional side, computed in doubles and truncated, is the exact
    proportion rounded down, or one pixel less than an exact proportion
    that is a whole number (the doubles then fall just short of it): at
    most one pixel under the exact proportion.  When both sides are at
    least one pixel the function returns an image of exactly the canvas
    size, the resized image pasted at [((canvas_width - new_width) // 2,
    (canvas_height - new_height) // 2)], inside the canvas, on a black or
    white background.  When a side comes out as zero the resize fails and
    the function returns its input unchanged. *)
Theorem fit_to_canvas
  (lanczos : Image -> Z -> Z -> Raster) (img : Image) (sw sh : Z) :
  0 < width img -> 0 < height img ->
  0 < sw < 2 ^ 31 -> 0 < sh < 2 ^ 31 ->
  exists nw nh : Z,
    fitted_size (width img) (height img) sw sh = Ok (nw, nh)
    /\ (sw * height img <= 2 ^ 51 ->
        sw * height img < width img * sh ->
        nw = sw
        /\ sw * height img / width img - 1 <= nh <= sw * height img / width img
        /\ (nh < sw * height img / width img ->
            (sw * height img) mod width img = 0)
        /\ 0 <= sw * height img - nh * width img <= width img)
    /\ (sw * height img <= 2 ^ 51 ->
        width img * sh <= sw * height img ->
        nh = sh
        /\ sh * width img / height img - 1 <= nw <= sh * width img / height img
        /\ (nw < sh * width img / height img ->
            (sh * width img) mod height img = 0)
        /\ 0 <= sh * width img - nw * height img <= height img)
    /\ (nw = sw \/ nh = sh)
    /\ (0 <= nw <= sw /\ 0 <= nh <= sh)
    /\ (1 <= nw -> 1 <= nh ->
        exists fit : Fit,
          enhance_body lanczos img sw sh = Ok fit
          /\ new_size fit = (nw, nh)
          /\ (width (resized_img fit) = nw /\ height (resized_img fit) = nh)
          /\ (background fit = BLACK \/ background fit = WHITE)
          /\ paste_at fit = ((sw - nw) / 2, (sh - nh) / 2)
          /\ (0 <= fst (paste_at fit) /\ fst (paste_at fit) + nw <= sw)
          /\ (0 <= snd (paste_at fit) /\ snd (paste_at fit) + nh <= sh)
          /\ new_img fit
             = paste (mkImage sw sh (RasterRGB (fun _ _ => background fit)))
                     (resized_img fit) (paste_at fit)
          /\ enhance_image_for_screen lanczos img sw sh = new_img fit
          /\ width (enhance_image_for_screen lanczos img sw sh) = sw
          /\ height (enhance_image_for_screen lanczos img sw sh) = sh)
    /\ (nw < 1 \/ nh < 1 ->
        enhance_image_for_screen lanczos img sw sh = img).
Proof.
  intros Hiw Hih Hsw Hsh.
  set (W := width img) in *. set (H := height img) in *.
  destruct (fitted_size_total W H sw sh ltac:(lia) Hih ltac:(lia) ltac:(lia))
    as [nw [nh Hf]].
  assert (Hwide : sw * H <= 2 ^ 51 -> sw * H < W * sh ->
                  nw = sw /\ sw * H / W - 1 <= nh <= sw * H / W
                  /\ (nh < sw * H / W -> (sw * H) mod W = 0)
                  /\ 0 <= sw * H - nh * W <= W).
  { intros P1 L. pose proof Hf as Hf'.
    rewrite fitted_size_when_wide in Hf' by lia.
    injection Hf' as E1 E2.
    destruct (int_div_aspect sw W H ltac:(lia) ltac:(lia) ltac:(lia) P1)
      as [_ [B M]]. rewrite E2 in B, M.
    split; [now symmetry|]. split; [exact B|]. split; [exact M|].
    apply within_one_pixel; [lia|exact B|exact M]. }
  assert (Htall : sw * H <= 2 ^ 51 -> W * sh <= sw * H ->
                  nh = sh /\ sh * W / H - 1 <= nw <= sh * W / H
                  /\ (nw < sh * W / H -> (sh * W) mod H = 0)
                  /\ 0 <= sh * W - nw * H <= H).
  { intros P1 L. pose proof Hf as Hf'.
    rewrite fitted_size_when_tall in Hf' by lia.
    injection Hf' as E1 E2.
    destruct (int_mul_aspect sh W H ltac:(lia) ltac:(lia) ltac:(lia)
                ltac:(lia)) as [_ [B M]]. rewrite E1 in B, M.
    split; [now symmetry|]. split; [exact B|]. split; [exact M|].
    apply within_one_pixel; [lia|exact B|exact M]. }
  destruct (fitted_within_canvas W H sw sh nw nh
              ltac:(lia) ltac:(lia) ltac:(lia) ltac:(lia) Hf)
    as [Bw [Bh Hspan]].
  exists nw, nh. split; [exact Hf|]. split; [exact Hwide|].
  split; [exact Htall|]. split; [exact Hspan|]. split; [split; assumption|].
  split.
  - intros Hnw Hnh.
    destruct (resize_ok lanczos img nw nh ltac:(lia) ltac:(lia))
      as [r [Hr [Hrw Hrh]]].
    destruct (best_background_two_colours r ltac:(lia) ltac:(lia))
      as [c [Hc Hbw]].
    pose proof (enhance_body_ok lanczos img r sw sh nw nh c Hf Hr Hc
                  ltac:(lia) ltac:(lia)) as Hb.
    eexists. split; [exact Hb|]. cbn [new_size resized_img background paste_at new_img].
    split; [reflexivity|]. split; [auto|].
    split; [exact Hbw|]. split; [reflexivity|].
    cbn [fst snd].
    assert (0 <= (sw - nw) / 2 /\ (sw - nw) / 2 + nw <= sw).
    { pose proof (Z.mul_div_le (sw - nw) 2 ltac:(lia)).
      pose proof (Z.div_pos (sw - nw) 2 ltac:(lia) ltac:(lia)). lia. }
    assert (0 <= (sh - nh) / 2 /\ (sh - nh) / 2 + nh <= sh).
    { pose proof (Z.mul_div_le (sh - nh) 2 ltac:(lia)).
      pose proof (Z.div_pos (sh - nh) 2 ltac:(lia) ltac:(lia)). lia. }
    split; [assumption|]. split; [assumption|]. split; [reflexivity|].
    unfold enhance_image_for_screen. rewrite Hb. cbn [bind try_except new_img].
    split; [reflexivity|]. split; reflexivity.
  - intros Hz. unfold enhance_image_for_screen, enhance_body.
    fold W H. rewrite Hf. cbn [bind].
    destruct (resize_fails lanczos img nw nh ltac:(lia) ltac:(lia) Hz) as [e He].
    now rewrite He.
Qed.

(** Instance of C4: a 4x2 page on an 8x8 canvas is resized to 8x4 and
    pasted at (0, 2). *)
Lemma fit_to_canvas_witness :
  fitted_size 4 2 8 8 = Ok (8, 4)
  /\ width (enhance_image_for_screen nearest_neighbour
              (plain_page 4 2 (200, 50, 50)) 8 8) = 8
  /\ height (enhance_image_for_screen nearest_neighbour
               (plain_page 4 2 (200, 50, 50)) 8 8) = 8.
Proof.
  destruct (fit_to_canvas nearest_neighbour (plain_page 4 2 (200, 50, 50)) 8 8)
    as [nw [nh [Hf [_ [_ [_ [_ [Hok _]]]]]]]];
    [cbn [width height plain_page]; lia ..|].
  assert (E : fitted_size 4 2 8 8 = Ok (8, 4)) by (vm_compute; reflexivity).
  change (fitted_size 4 2 8 8 = Ok (nw, nh)) in Hf.
  rewrite E in Hf. injection Hf as <- <-.
  split; [exact E|].
  destruct Hok as [fit [_ [_ [_ [_ [_ [_ [_ [_ [_ [Hw Hh]]]]]]]]]]]; [lia|lia|].
  split; assumption.
Defined.

(** C4 as stated fails: a 3000x2 strip on a 1072x1448 canvas would be
    resized to height [int(1072 / 1500.0) = 0]; the resize raises and the
    function returns the strip itself, which is not canvas-sized. *)
Lemma thin_strip_is_not_fitted :
  0 < width (plain_page 3000 2 (128, 128, 128))
  /\ 0 < height (plain_page 3000 2 (128, 128, 128))
  /\ fitted_size 3000 2 1072 1448 = Ok (1072, 0)
  /\ enhance_image_for_screen nearest_neighbour
       (plain_page 3000 2 (128, 128, 128)) 1072 1448
     = plain_page 3000 2 (128, 128, 128)
  /\ width (enhance_image_for_screen nearest_neighbour
              (plain_page 3000 2 (128, 128, 128)) 1072 1448) <> 1072.
Proof.
  split; [reflexivity|]. split; [reflexivity|].
  split; [vm_compute; reflexivity|].
  assert (E : enhance_image_for_screen nearest_neighbour
                (plain_page 3000 2 (128, 128, 128)) 1072 1448
              = plain_page 3000 2 (128, 128, 128)) by (vm_compute; reflexivity).
  split; [exact E|]. rewrite E. discriminate.
Qed.

(** ** Sums over a pasted window *)











(** ** Refitting a fitted image *)

Section Refit.

Variable lanczos : Image -> Z -> Z -> Raster.

Lemma fitted_size_defined (iw ih sw sh : Z) (p : Z * Z) :
  fitted_size iw ih sw sh = Ok p -> ih <> 0 /\ sh <> 0.
Proof.
  unfold fitted_size, truediv.
  destruct (Z.eqb_spec ih 0); [discriminate|].
  destruct (Z.eqb_spec sh 0); [discriminate|]. auto.
Qed.

Lemma enhance_body_inv (img : Image) (sw sh : Z) (fit : Fit) :
  enhance_body lanczos img sw sh = Ok fit ->
  exists nw nh r,
    fitted_size (width img) (height img) sw sh = Ok (nw, nh)
    /\ resize lanczos img (nw, nh) = Ok r
    /\ best_background_for_image r = Ok (background fit)
    /\ 0 <= sw < 2 ^ 31 /\ 0 <= sh < 2 ^ 31
    /\ fit = mkFit (nw, nh) r (background fit) ((sw - nw) / 2, (sh - nh) / 2)
               (paste (mkImage sw sh (RasterRGB (fun _ _ => background fit))) r
                      ((sw - nw) / 2, (sh - nh) / 2)).
Proof.
  unfold enhance_body.
  destruct (fitted_size _ _ _ _) as [[nw nh]|] eqn:Hf; [|discriminate].
  cbn [bind].
  destruct (resize lanczos img (nw, nh)) as [r|] eqn:Hr; [|discriminate].
  cbn [bind].
  destruct (best_background_for_image r) as [c|] eqn:Hc; [|discriminate].
  cbn [bind]. unfold new_rgb.
  destruct (Z.ltb_spec sw 0); [discriminate|].
  destruct (Z.ltb_spec sh 0); [discriminate|].
  cbn [orb].
  destruct (is_c_int sw) eqn:Csw; [|discriminate].
  destruct (is_c_int sh) eqn:Csh; [|discriminate].
  apply is_c_int_spec in Csw, Csh.
  cbn [negb orb bind]. intros E. injection E as E. rewrite <- E.
  cbn [background]. exists nw, nh, r.
  repeat split; first [assumption | lia].
Qed.


End Refit.



(** ** The definitions at work *)

Example content_box_one_pixel :
  content_box
    (mkImage 3 3 (RasterL (fun x y => if (x =? 1) && (y =? 2) then 128 else 255)))
    240 30
  = Some (1, 2, 2, 3).
Proof. reflexivity. Qed.

Example grey_page_is_all_content :
  content_box (plain_page 100 100 (128, 128, 128)) 240 30 = Some (0, 0, 100, 100).
Proof. vm_compute. reflexivity. Qed.

Example short_segment_is_skipped :
  split_loop nearest_neighbour 8 8
    (mkImage 4 100 (RasterL (fun _ y => if y =? 40 then 255 else 128)))
    240 15 20 75
  = ([], [40; 60]).
Proof. vm_compute. reflexivity. Qed.

Example fitted_size_tall : fitted_size 2 4 8 8 = Ok (4, 8).
Proof. vm_compute. reflexivity. Qed.

Example fitted_size_zero_height : fitted_size 4 0 8 8 = Raise ZeroDivisionError.
Proof. reflexivity. Qed.

(** The double of 0.1 is [0x1.999999999999ap-4]; [2^53 + 1] lies halfway
    between two doubles and goes to the even one, [2^53]; and
    [49 * (1 / 49)] is 0.9999999999999999, which [int] truncates to 0. *)
Example double_of_one_tenth :
  (fl (1 # 10) == 3602879701896397 # 36028797018963968)%Q.
Proof. vm_compute. reflexivity. Qed.

Example double_tie_to_even :
  (fl (inject_Z (2 ^ 53 + 1)) == inject_Z (2 ^ 53))%Q
  /\ (fl (inject_Z (2 ^ 53 + 3)) == inject_Z (2 ^ 53 + 4))%Q.
Proof. split; vm_compute; reflexivity. Qed.

Example forty_nine_forty_ninths :
  (fmul (float_of_int 49) (fl (1 # 49)) == 1 - (1 # 2 ^ 53))%Q
  /\ py_int (fmul (float_of_int 49) (fl (1 # 49))) = 0.
Proof. split; vm_compute; reflexivity. Qed.

(** Doubles at work.  The proportion [1448 * 49 / 1448] is the whole number
    49, but [49 / 1448] is rounded and [1448 * (49 / 1448)] comes out as
    48.99999999999999. *)
Example fitted_size_loses_a_pixel :
  fitted_size 49 1448 1072 1448 = Ok (48, 1448).
Proof. vm_compute. reflexivity. Qed.

Example fitted_size_rounds_down :
  fitted_size 67 57 1072 1448 = Ok (1072, 911)
  /\ 1072 * 57 / 67 = 912 /\ (1072 * 57) mod 67 = 0.
Proof. vm_compute. auto. Qed.

(** A 1072x1448 canvas is left alone by the size computation, a 7x55 or a
    1792x828 one is not. *)
Example canvas_sized_image_keeps_its_size :
  fitted_size 1072 1448 1072 1448 = Ok (1072, 1448).
Proof. vm_compute. reflexivity. Qed.

Example canvas_sized_image_shrinks :
  fitted_size 7 55 7 55 = Ok (6, 55)
  /\ fitted_size 1792 828 1792 828 = Ok (1791, 828).
Proof. vm_compute. auto. Qed.

Example temporal_pdf_size_wide :
  temporal_pdf_size 7 3 595 842 = Ok (595, 254) /\ 595 * 3 / 7 = 255.
Proof. vm_compute. auto. Qed.

(** * Further properties of the code *)

(** ** Dead rows *)

Lemma row_is_dead_spec (g : Z -> Z -> Z) (w tl td y : Z) :
  row_is_dead g w tl td y = true <->
  (forall x, 0 <= x < w -> g x y > tl) \/ (forall x, 0 <= x < w -> g x y < td).
Proof.
  unfold row_is_dead, py_all, row_data.
  rewrite orb_true_iff, !forallb_forall. split.
  - intros [H|H]; [left|right]; intros x Hx.
    + assert (I : In (g x y) (map (fun x => g x y) (range w))).
      { apply in_map_iff. exists x. split; [reflexivity|now apply In_range]. }
      specialize (H _ I). lia.
    + assert (I : In (g x y) (map (fun x => g x y) (range w))).
      { apply in_map_iff. exists x. split; [reflexivity|now apply In_range]. }
      specialize (H _ I). lia.
  - intros [H|H]; [left|right]; intros v Hv; apply in_map_iff in Hv;
      destruct Hv as [x [<- Hx]]; apply In_range in Hx; specialize (H x Hx); lia.
Qed.

(** X1: the rows [detect_blank_or_dark_spaces] returns are strictly
    increasing, and a row is returned exactly when it is a row of the image
    whose intensities are all above [threshold_light] or all below
    [threshold_dark]; there are at most [height] of them. *)
Theorem dead_rows_characterised (image : Image) (tl td : Z) :
  StronglySorted Z.lt (detect_blank_or_dark_spaces image tl td)
  /\ (forall y, In y (detect_blank_or_dark_spaces image tl td) <->
        0 <= y < height image
        /\ ((forall x, 0 <= x < width image -> convert_L image x y > tl)
            \/ (forall x, 0 <= x < width image -> convert_L image x y < td)))
  /\ (length (detect_blank_or_dark_spaces image tl td)
      <= Z.to_nat (height image))%nat.
Proof.
  split; [apply detect_sorted|]. split.
  - intros y. unfold detect_blank_or_dark_spaces.
    now rewrite filter_In, In_range, row_is_dead_spec.
  - unfold detect_blank_or_dark_spaces. rewrite <- (length_range (height image)).
    apply filter_length_le.
Qed.

(** X2: an image without columns has only dead rows: every row index is
    returned, and the splitter finds nothing to emit. *)
Theorem no_columns_all_rows_dead
  (lanczos : Image -> Z -> Z -> Raster) (fdw fdh : Z)
  (image : Image) (tl td min_gap min_seg : Z) :
  width image <= 0 -> 1 <= min_gap ->
  detect_blank_or_dark_spaces image tl td = range (height image)
  /\ split_image_by_blank_or_dark_spaces lanczos fdw fdh image
       tl td min_gap min_seg = [].
Proof.
  intros Hw Hg.
  assert (D : forall y, 0 <= y < height image ->
                row_is_dead (convert_L image) (width image) tl td y = true).
  { intros y _. apply row_is_dead_spec. left. intros x Hx. lia. }
  split.
  - unfold detect_blank_or_dark_spaces. apply filter_all.
    intros y Hy. apply D. now apply In_range.
  - apply no_candidates_no_images. now apply all_dead_no_candidates.
Qed.

Lemma no_columns_all_rows_dead_witness :
  detect_blank_or_dark_spaces (plain_page 0 3 (128, 128, 128)) 240 15
  = [0; 1; 2]
  /\ split_image_by_blank_or_dark_spaces nearest_neighbour 8 8
       (plain_page 0 3 (128, 128, 128)) 240 15 20 75 = [].
Proof.
  apply (no_columns_all_rows_dead nearest_neighbour 8 8
           (plain_page 0 3 (128, 128, 128)) 240 15 20 75).
  - simpl. lia.
  - lia.
Defined.

(** ** How much the splitter emits *)

Lemma length_adjacent_pairs (l : list Z) :
  length (adjacent_pairs l) = (length l - 1)%nat.
Proof.
  induction l as [|a t IH]; [reflexivity|].
  destruct t as [|b t]; [reflexivity|].
  change (adjacent_pairs (a :: b :: t)) with ((a, b) :: adjacent_pairs (b :: t)).
  cbn [length] in *. lia.
Qed.

Lemma last_indep (l : list Z) (d d' : Z) : l <> [] -> last l d = last l d'.
Proof.
  induction l as [|a l IH]; [congruence|]. intros _.
  destruct l as [|b l]; [reflexivity|]. cbn [last] in *. apply IH. discriminate.
Qed.

(** The heights of the consecutive pairs add up to the span of the list. *)
Lemma adjacent_pairs_telescope (a : Z) (t : list Z) :
  zsum (map seg_height (adjacent_pairs (a :: t))) = last (a :: t) a - a.
Proof.
  revert a. induction t as [|b t IH]; intros a; [simpl; lia|].
  change (adjacent_pairs (a :: b :: t)) with ((a, b) :: adjacent_pairs (b :: t)).
  cbn [map zsum fold_right]. change (fold_right Z.add 0) with zsum.
  rewrite IH. unfold seg_height. cbn [fst snd].
  change (last (a :: b :: t) a) with (last (b :: t) a).
  rewrite (last_indep (b :: t) a b) by discriminate. lia.
Qed.

Lemma zsum_filter_le {A : Type} (f : A -> Z) (p : A -> bool) (l : list A) :
  (forall x, In x l -> 0 <= f x) ->
  zsum (map f (filter p l)) <= zsum (map f l).
Proof.
  induction l as [|a l IH]; intros H; [simpl; lia|].
  assert (0 <= f a) by (apply H; now left).
  assert (zsum (map f (filter p l)) <= zsum (map f l))
    by (apply IH; intros x Hx; apply H; now right).
  cbn [filter]. destruct (p a); cbn [map zsum fold_right];
    change (fold_right Z.add 0) with zsum; lia.
Qed.

Lemma adjacent_pairs_nonneg (l : list Z) (s : Segment) :
  StronglySorted Z.le l -> In s (adjacent_pairs l) -> fst s <= snd s.
Proof.
  induction 1 as [|a t Hs IH Hf]; [intros []|].
  destruct t as [|b t]; [intros []|].
  change (adjacent_pairs (a :: b :: t)) with ((a, b) :: adjacent_pairs (b :: t)).
  intros [<-|H]; [|now apply IH].
  inversion Hf; subst. assumption.
Qed.

(** No element of a sorted list lies strictly between two neighbours. *)
Lemma between_adjacent (l : list Z) (s : Segment) (y : Z) :
  StronglySorted Z.le l -> In s (adjacent_pairs l) -> In y l ->
  y <= fst s \/ snd s <= y.
Proof.
  induction 1 as [|a t Hs IH Hf]; [intros []|].
  destruct t as [|b t]; [intros []|].
  change (adjacent_pairs (a :: b :: t)) with ((a, b) :: adjacent_pairs (b :: t)).
  rewrite Forall_forall in Hf.
  intros [<-|Hp] Hy; cbn [fst snd].
  - destruct Hy as [<-|[<-|Hy]]; [left; lia|right; lia|right].
    inversion Hs as [|? ? _ Fb]; subst. rewrite Forall_forall in Fb. now apply Fb.
  - destruct Hy as [<-|Hy]; [|now apply IH].
    left. apply Hf. now apply adjacent_pairs_In in Hp.
Qed.

Lemma split_positions_last (image : Image) (tl td : Z) :
  last (split_positions_of image tl td) 0 = height image.
Proof.
  unfold split_positions_of.
  change ([0] ++ ?l) with (0 :: l).
  rewrite app_comm_cons. apply last_last.
Qed.

Lemma split_count_bound
  (lanczos : Image -> Z -> Z -> Raster) (fdw fdh : Z)
  (image : Image) (tl td min_gap min_seg : Z) :
  (length (split_image_by_blank_or_dark_spaces lanczos fdw fdh image
             tl td min_gap min_seg)
   <= length (detect_blank_or_dark_spaces image tl td) + 1)%nat.
Proof.
  unfold split_image_by_blank_or_dark_spaces.
  rewrite split_loop_segments. cbn [fst]. rewrite length_map.
  unfold emitted_segments, candidate_ranges.
  etransitivity; [apply filter_length_le|].
  etransitivity; [apply filter_length_le|].
  rewrite length_adjacent_pairs. unfold split_positions_of.
  cbn [app length]. rewrite length_app. cbn [length]. lia.
Qed.

(** X3: the splitter returns one image per emitted segment, and never more
    images than the page has dead rows plus one. *)
Theorem split_output_count
  (lanczos : Image -> Z -> Z -> Raster) (fdw fdh : Z)
  (image : Image) (tl td min_gap min_seg : Z) :
  length (split_image_by_blank_or_dark_spaces lanczos fdw fdh image
            tl td min_gap min_seg)
  = length (emitted_segments image tl td min_gap min_seg)
  /\ (length (split_image_by_blank_or_dark_spaces lanczos fdw fdh image
                tl td min_gap min_seg)
      <= length (detect_blank_or_dark_spaces image tl td) + 1)%nat.
Proof.
  split; [|apply split_count_bound].
  unfold split_image_by_blank_or_dark_spaces.
  rewrite split_loop_segments. cbn [fst]. now rewrite length_map.
Qed.

(** X4: on a page of non-negative height every emitted segment is a row
    range inside the page, [0 <= start <= end <= height], and the heights
    of the emitted segments add up to at most the height of the page. *)
Theorem segments_within_page (image : Image) (tl td min_gap min_seg : Z) :
  0 <= height image ->
  (forall s, In s (emitted_segments image tl td min_gap min_seg) ->
             0 <= fst s <= snd s /\ snd s <= height image)
  /\ zsum (map seg_height (emitted_segments image tl td min_gap min_seg))
     <= height image.
Proof.
  intros Hh.
  pose proof (split_positions_sorted image tl td Hh) as Hs.
  assert (Hb : forall v, In v (split_positions_of image tl td) ->
                         0 <= v <= height image).
  { intros v Hv. unfold split_positions_of in Hv.
    apply in_app_iff in Hv. destruct Hv as [[<-|[]]|Hv]; [lia|].
    apply in_app_iff in Hv. destruct Hv as [Hv|[<-|[]]]; [|lia].
    apply detect_in_bounds in Hv. lia. }
  split.
  - intros s Hin. unfold emitted_segments, candidate_ranges in Hin.
    apply filter_In in Hin. destruct Hin as [Hin _].
    apply filter_In in Hin. destruct Hin as [Hin _].
    pose proof (adjacent_pairs_nonneg _ _ Hs Hin).
    apply adjacent_pairs_In in Hin. destruct Hin as [H1 H2].
    apply Hb in H1, H2. lia.
  - unfold emitted_segments, candidate_ranges.
    set (pairs := adjacent_pairs (split_positions_of image tl td)).
    assert (N : forall s, In s pairs -> 0 <= seg_height s).
    { intros s Hin. pose proof (adjacent_pairs_nonneg _ _ Hs Hin).
      unfold seg_height. lia. }
    pose proof (zsum_filter_le seg_height (tall_enough min_seg)
                  (filter (wider_than_gap min_gap) pairs)) as L1.
    pose proof (zsum_filter_le seg_height (wider_than_gap min_gap) pairs N) as L2.
    assert (T : zsum (map seg_height pairs) = height image).
    { subst pairs. pose proof (split_positions_last image tl td) as Hl.
      unfold split_positions_of in *. cbn [app] in *.
      rewrite adjacent_pairs_telescope, Hl. lia. }
    assert (zsum (map seg_height
                    (filter (tall_enough min_seg)
                            (filter (wider_than_gap min_gap) pairs)))
            <= zsum (map seg_height (filter (wider_than_gap min_gap) pairs))).
    { apply L1. intros s Hin. apply filter_In in Hin. now apply N. }
    lia.
Qed.

Lemma segments_within_page_witness :
  zsum (map seg_height (emitted_segments (banded_page 128) 240 15 20 75))
  <= 2000.
Proof.
  apply (segments_within_page (banded_page 128) 240 15 20 75).
  simpl. lia.
Defined.

Lemma adjacent_pairs_fst (l : list Z) (z : Z) (s : Segment) :
  In s (adjacent_pairs (l ++ [z])) -> In (fst s) l.
Proof.
  induction l as [|a t IH]; [intros []|].
  destruct t as [|b t].
  - simpl. intros [<-|[]]. now left.
  - change (adjacent_pairs ((a :: b :: t) ++ [z]))
      with ((a, b) :: adjacent_pairs ((b :: t) ++ [z])).
    intros [<-|H]; [now left|right; now apply IH].
Qed.

Lemma adjacent_pairs_snd (a : Z) (l : list Z) (s : Segment) :
  In s (adjacent_pairs (a :: l)) -> In (snd s) l.
Proof.
  revert a. induction l as [|b t IH]; intros a; [intros []|].
  change (adjacent_pairs (a :: b :: t)) with ((a, b) :: adjacent_pairs (b :: t)).
  intros [<-|H]; [now left|right; now apply (IH b)].
Qed.

(** X5: a row range the splitter considers holds no dead row except,
    possibly, its first row: it starts at row 0 or at a dead row, ends at
    the page height or at a dead row, and no row strictly inside it is
    dead. *)
Theorem segments_hold_no_dead_row (image : Image) (tl td min_gap : Z)
  (s : Segment) :
  In s (candidate_ranges image tl td min_gap) ->
  (forall y, fst s < y < snd s ->
             row_is_dead (convert_L image) (width image) tl td y = false)
  /\ (fst s = 0 \/ In (fst s) (detect_blank_or_dark_spaces image tl td))
  /\ (snd s = height image
      \/ In (snd s) (detect_blank_or_dark_spaces image tl td)).
Proof.
  intros Hin. unfold candidate_ranges in Hin.
  apply filter_In in Hin. destruct Hin as [Hin _].
  assert (H1 : fst s = 0 \/ In (fst s) (detect_blank_or_dark_spaces image tl td)).
  { unfold split_positions_of in Hin.
    change ([0] ++ ?l ++ [?h]) with ((0 :: l) ++ [h]) in Hin.
    apply adjacent_pairs_fst in Hin. destruct Hin as [<-|H]; auto. }
  assert (H2 : snd s = height image
               \/ In (snd s) (detect_blank_or_dark_spaces image tl td)).
  { unfold split_positions_of in Hin.
    change ([0] ++ ?l) with (0 :: l) in Hin.
    apply adjacent_pairs_snd in Hin. apply in_app_iff in Hin.
    destruct Hin as [H|[<-|[]]]; auto. }
  split; [|split; assumption].
  intros y Hy.
  destruct (row_is_dead (convert_L image) (width image) tl td y) eqn:E;
    [exfalso|reflexivity].
  assert (B1 : 0 <= fst s).
  { destruct H1 as [->|H]; [lia|]. apply detect_in_bounds in H. lia. }
  assert (B2 : snd s <= height image).
  { destruct H2 as [->|H]; [lia|]. apply detect_in_bounds in H. lia. }
  assert (Hd : In y (split_positions_of image tl td)).
  { unfold split_positions_of. apply in_app_iff. right.
    apply in_app_iff. left. unfold detect_blank_or_dark_spaces.
    apply filter_In. split; [apply In_range; lia|exact E]. }
  assert (Hs : StronglySorted Z.le (split_positions_of image tl td))
    by (apply split_positions_sorted; lia).
  destruct (between_adjacent _ _ _ Hs Hin Hd); lia.
Qed.

(** On the grey banded page the range [649, 1400) starts at a dead row,
    and its row 1000 is not dead. *)
Lemma segments_hold_no_dead_row_witness :
  row_is_dead (convert_L (banded_page 128)) (width (banded_page 128))
              240 15 1000 = false
  /\ In 649 (detect_blank_or_dark_spaces (banded_page 128) 240 15).
Proof.
  destruct (segments_hold_no_dead_row (banded_page 128) 240 15 20 (649, 1400))
    as [H1 [H2 _]].
  - unfold candidate_ranges, split_positions_of.
    rewrite grey_page_dead_rows. vm_compute. auto.
  - split; [apply H1; simpl; lia|].
    destruct H2 as [H2|H2]; [discriminate|exact H2].
Defined.

(** X6: a page without dead rows is not split: when its height exceeds
    [min_gap] and reaches [min_segment_height] the splitter returns the one
    fitted content crop of the whole page, otherwise nothing. *)
Theorem page_without_dead_rows
  (lanczos : Image -> Z -> Z -> Raster) (fdw fdh : Z)
  (image : Image) (tl td min_gap min_seg : Z) :
  (forall y, 0 <= y < height image ->
             row_is_dead (convert_L image) (width image) tl td y = false) ->
  detect_blank_or_dark_spaces image tl td = []
  /\ split_image_by_blank_or_dark_spaces lanczos fdw fdh image
       tl td min_gap min_seg
     = if (height image >? min_gap) && (height image >=? min_seg)
       then [process_segment lanczos fdw fdh image (0, height image)]
       else [].
Proof.
  intros H.
  assert (D : detect_blank_or_dark_spaces image tl td = []).
  { unfold detect_blank_or_dark_spaces. apply filter_none.
    intros y Hy. apply H. now apply In_range. }
  split; [exact D|].
  unfold split_image_by_blank_or_dark_spaces.
  rewrite split_loop_segments. cbn [fst].
  unfold emitted_segments, candidate_ranges, split_positions_of.
  rewrite D. cbn [app adjacent_pairs filter].
  unfold wider_than_gap, tall_enough, seg_height. cbn [fst snd].
  rewrite !Z.sub_0_r.
  destruct (height image >? min_gap); cbn [filter andb map]; [|reflexivity].
  unfold seg_height. cbn [fst snd]. rewrite ?Z.sub_0_r.
  destruct (height image >=? min_seg); reflexivity.
Qed.

Lemma page_without_dead_rows_witness :
  split_image_by_blank_or_dark_spaces nearest_neighbour 8 8
    (plain_page 4 100 (128, 128, 128)) 240 15 20 75
  = [process_segment nearest_neighbour 8 8
       (plain_page 4 100 (128, 128, 128)) (0, 100)].
Proof.
  apply (page_without_dead_rows nearest_neighbour 8 8
           (plain_page 4 100 (128, 128, 128)) 240 15 20 75).
  intros y _.
  rewrite (row_is_dead_uniform _ _ _ _ _ (luma (128, 128, 128)));
    [reflexivity|simpl; lia|reflexivity].
Defined.

(** ** Cropping twice *)

Lemma convert_L_crop (image : Image) (x0 y0 x1 y1 x y : Z) :
  convert_L (crop image (x0, y0, x1, y1)) x y = convert_L image (x + x0) (y + y0).
Proof. unfold convert_L, crop. cbn. now destruct (raster image). Qed.

Lemma as_rgb_crop (image : Image) (x0 y0 x1 y1 x y : Z) :
  as_rgb (crop image (x0, y0, x1, y1)) x y = as_rgb image (x + x0) (y + y0).
Proof. unfold as_rgb, crop. cbn. now destruct (raster image). Qed.

(** The content pixels of the content crop are those of the image, moved
    by the corner of the box. *)
Lemma content_pixel_crop (image : Image) (bt dt x0 y0 x1 y1 : Z) :
  content_box image bt dt = Some (x0, y0, x1, y1) ->
  forall x y,
    content_pixel (crop image (x0, y0, x1, y1)) bt dt x y
    <-> content_pixel image bt dt (x + x0) (y + y0).
Proof.
  intros Hb x y.
  destruct (content_box_spec image bt dt x0 y0 x1 y1 Hb)
    as [Hcov [[ya Ha] [[xb Hb'] [[yc Hc] [xd Hd]]]]].
  unfold content_pixel. rewrite convert_L_crop. cbn [crop width height].
  split.
  - intros [Hx [Hy Hi]].
    destruct Ha as [Ha _]. destruct Hb' as [_ [Hb' _]].
    destruct Hc as [Hc _]. destruct Hd as [_ [Hd _]].
    split; [lia|]. split; [lia|exact Hi].
  - intros Hp. pose proof (Hcov _ _ Hp) as Hin. destruct Hp as [_ [_ Hi]].
    split; [lia|]. split; [lia|exact Hi].
Qed.

Lemma crop_of_tight_image (c : Image) (bt dt : Z) :
  content_box c bt dt = None
  \/ content_box c bt dt = Some (0, 0, width c, height c) ->
  width (crop_image_by_blank_or_dark_space c bt dt) = width c
  /\ height (crop_image_by_blank_or_dark_space c bt dt) = height c
  /\ (forall x y, as_rgb (crop_image_by_blank_or_dark_space c bt dt) x y
                  = as_rgb c x y)
  /\ (forall x y, convert_L (crop_image_by_blank_or_dark_space c bt dt) x y
                  = convert_L c x y).
Proof.
  unfold crop_image_by_blank_or_dark_space. intros [E|E]; rewrite E; [auto|].
  split; [cbn; lia|]. split; [cbn; lia|]. split.
  - intros x y. rewrite as_rgb_crop. now rewrite !Z.add_0_r.
  - intros x y. rewrite convert_L_crop. now rewrite !Z.add_0_r.
Qed.

Lemma content_box_of_crop (image : Image) (bt dt x0 y0 x1 y1 : Z) :
  content_box image bt dt = Some (x0, y0, x1, y1) ->
  content_box (crop image (x0, y0, x1, y1)) bt dt
  = Some (0, 0, x1 - x0, y1 - y0).
Proof.
  intros Hb. set (c := crop image (x0, y0, x1, y1)).
  pose proof (content_pixel_crop image bt dt x0 y0 x1 y1 Hb) as T.
  destruct (content_box_spec image bt dt x0 y0 x1 y1 Hb)
    as [Hcov [[ya Ha] [[xb Hb'] [[yc Hc] [xd Hd]]]]].
  assert (M : forall X Y, content_pixel image bt dt X Y ->
                content_pixel c bt dt (X - x0) (Y - y0)).
  { intros X Y HXY. apply T.
    replace (X - x0 + x0) with X by lia. replace (Y - y0 + y0) with Y by lia.
    exact HXY. }
  destruct (content_box_some c bt dt _ _ (M _ _ Ha)) as [[[[a0 b0] a1] b1] Hbc].
  destruct (content_box_spec c bt dt a0 b0 a1 b1 Hbc)
    as [Hcov' [[ya' Ha'] [[xb' Hb''] [[yc' Hc'] [xd' Hd']]]]].
  pose proof (Hcov' _ _ (M _ _ Ha)). pose proof (Hcov' _ _ (M _ _ Hb')).
  pose proof (Hcov' _ _ (M _ _ Hc)). pose proof (Hcov' _ _ (M _ _ Hd)).
  destruct Ha' as [Ha' _]. destruct Hb'' as [_ [Hb'' _]].
  destruct Hc' as [Hc' _]. destruct Hd' as [_ [Hd' _]].
  cbn [c crop width height] in Ha', Hb'', Hc', Hd'.
  rewrite Hbc. repeat f_equal; lia.
Qed.

(** X7: the content crop is idempotent: cropping the cropped image again
    changes neither its size nor any of its pixels. *)
Theorem content_crop_idempotent (image : Image) (bt dt : Z) :
  let cropped := crop_image_by_blank_or_dark_space image bt dt in
  let again := crop_image_by_blank_or_dark_space cropped bt dt in
  width again = width cropped
  /\ height again = height cropped
  /\ (forall x y, as_rgb again x y = as_rgb cropped x y)
  /\ (forall x y, convert_L again x y = convert_L cropped x y).
Proof.
  intros cropped again. subst again. apply crop_of_tight_image.
  subst cropped. unfold crop_image_by_blank_or_dark_space.
  destruct (content_box image bt dt) as [[[[x0 y0] x1] y1]|] eqn:Hb.
  - right. rewrite (content_box_of_crop image bt dt x0 y0 x1 y1 Hb). reflexivity.
  - now left.
Qed.

(** X19: the content crop is a translation of the image that loses no
    content pixel and never enlarges the image: for some corner
    [(x0, y0)] every pixel of the result is the pixel of the image at that
    offset, and every content pixel of the image is a content pixel of the
    result. *)
Theorem crop_keeps_content (image : Image) (bt dt : Z) :
  let cropped := crop_image_by_blank_or_dark_space image bt dt in
  exists x0 y0 : Z,
    (forall x y, as_rgb cropped x y = as_rgb image (x + x0) (y + y0))
    /\ (forall x y, content_pixel image bt dt x y ->
                    content_pixel cropped bt dt (x - x0) (y - y0))
    /\ width cropped <= width image
    /\ height cropped <= height image.
Proof.
  intros cropped. subst cropped. unfold crop_image_by_blank_or_dark_space.
  destruct (content_box image bt dt) as [[[[x0 y0] x1] y1]|] eqn:Hb.
  - exists x0, y0.
    destruct (content_box_spec image bt dt x0 y0 x1 y1 Hb)
      as [_ [[ya [Ha _]] [[xb [_ [Hb' _]]] [[yc [Hc _]] [xd [_ [Hd _]]]]]]].
    split; [intros x y; apply as_rgb_crop|]. split.
    + intros x y H. apply (content_pixel_crop image bt dt x0 y0 x1 y1 Hb).
      replace (x - x0 + x0) with x by lia. replace (y - y0 + y0) with y by lia.
      exact H.
    + cbn [crop width height]. lia.
  - exists 0, 0. split; [intros x y; now rewrite !Z.add_0_r|]. split.
    + intros x y H. now rewrite !Z.sub_0_r.
    + lia.
Qed.

(** ** Pages and their images *)

(** X8: [split_and_crop_image] returns the one fitted content crop of the
    page when the page is the first one or has no colour, and the images
    of the splitter (default thresholds 240 and 15, [min_gap] 20,
    [min_segment_height] 75) otherwise; in either case no more images than
    the page has dead rows plus one. *)
Theorem page_output
  (lanczos : Image -> Z -> Z -> Raster) (fdw fdh : Z)
  (image : Image) (page_num img_index : Z) :
  let out := split_and_crop_image lanczos fdw fdh image page_num img_index in
  (page_num = 0 \/ is_colored image = false ->
   out = [enhance_image_for_screen lanczos
            (crop_image_by_blank_or_dark_space image 240 30) fdw fdh])
  /\ (page_num <> 0 /\ is_colored image = true ->
      out = split_image_by_blank_or_dark_spaces lanczos fdw fdh image 240 15 20 75)
  /\ (length out
      <= length (detect_blank_or_dark_spaces image 240 15) + 1)%nat.
Proof.
  intros out. subst out.
  assert (B : page_branch image page_num
              = if negb (page_num =? 0) && is_colored image
                then StripBranch else MangaBranch).
  { unfold page_branch. now rewrite is_not_manga_is_colored. }
  assert (M : page_branch image page_num = MangaBranch ->
              split_and_crop_image lanczos fdw fdh image page_num img_index
              = [enhance_image_for_screen lanczos
                   (crop_image_by_blank_or_dark_space image 240 30) fdw fdh]).
  { intros E. unfold split_and_crop_image. now rewrite E. }
  split; [|split].
  - intros H. apply M. rewrite B.
    destruct H as [-> | ->]; [reflexivity|]. now rewrite andb_false_r.
  - intros [Hp Hc]. apply strip_branch_images. rewrite B, Hc.
    apply Z.eqb_neq in Hp. now rewrite Hp.
  - destruct (page_branch image page_num) eqn:E.
    + rewrite (M eq_refl). cbn [length]. lia.
    + rewrite strip_branch_images by exact E.
      apply split_count_bound.
Qed.

(** ** Which background an image gets *)

Lemma In_getdata (g : Z -> Z -> Z) (w h v : Z) :
  In v (getdata g w h) -> exists x y, 0 <= x < w /\ 0 <= y < h /\ v = g x y.
Proof.
  unfold getdata, row_data. intros H. apply in_flat_map in H.
  destruct H as [y [Hy H]]. apply in_map_iff in H. destruct H as [x [<- Hx]].
  exists x, y. rewrite In_range in Hx, Hy. auto.
Qed.

Lemma zsum_upper (l : list Z) (k : Z) :
  (forall v, In v l -> v <= k) -> zsum l <= k * Z.of_nat (length l).
Proof.
  induction l as [|a l IH]; intros H; [simpl; lia|].
  assert (a <= k) by (apply H; now left).
  assert (zsum l <= k * Z.of_nat (length l))
    by (apply IH; intros v Hv; apply H; now right).
  cbn [zsum fold_right length]. change (fold_right Z.add 0 l) with (zsum l). lia.
Qed.

Lemma zsum_lower (l : list Z) (k : Z) :
  (forall v, In v l -> k <= v) -> k * Z.of_nat (length l) <= zsum l.
Proof.
  induction l as [|a l IH]; intros H; [simpl; lia|].
  assert (k <= a) by (apply H; now left).
  assert (k * Z.of_nat (length l) <= zsum l)
    by (apply IH; intros v Hv; apply H; now right).
  cbn [zsum fold_right length]. change (fold_right Z.add 0 l) with (zsum l). lia.
Qed.

Lemma ratio_le (s n k : Z) :
  0 < n -> s <= k * n -> (inject_Z s / inject_Z n <= inject_Z k)%Q.
Proof.
  intros Hn H. apply Qle_shift_div_r; [now apply inject_Z_pos|].
  rewrite <- inject_Z_mult, <- Zle_Qle. exact H.
Qed.

Lemma ratio_ge (s n k : Z) :
  0 < n -> k * n <= s -> (inject_Z k <= inject_Z s / inject_Z n)%Q.
Proof.
  intros Hn H. apply Qle_shift_div_l; [now apply inject_Z_pos|].
  rewrite <- inject_Z_mult, <- Zle_Qle. exact H.
Qed.

(** X9: the background follows the tone of the image: an image whose
    intensities are all at most 127 gets BLACK, one whose intensities are
    all at least 128 gets WHITE. *)
Theorem background_follows_tone (image : Image) :
  0 < width image -> 0 < height image ->
  ((forall x y, 0 <= x < width image -> 0 <= y < height image ->
                convert_L image x y <= 127) ->
   best_background_for_image image = Ok BLACK)
  /\ ((forall x y, 0 <= x < width image -> 0 <= y < height image ->
                   128 <= convert_L image x y) ->
      best_background_for_image image = Ok WHITE).
Proof.
  intros Hw Hh. rewrite best_background_by_mean by assumption.
  unfold gray_sum.
  pose proof (count_getdata (convert_L image) (width image) (height image)
                ltac:(lia) ltac:(lia)) as Hc.
  assert (Hpos : 0 < width image * height image) by nia.
  split; intros H.
  - pose proof (zsum_upper (getdata (convert_L image) (width image) (height image))
                  127) as U.
    rewrite Hc in U.
    assert (S : zsum (getdata (convert_L image) (width image) (height image))
                <= 127 * (width image * height image)).
    { apply U. intros v Hv. apply In_getdata in Hv.
      destruct Hv as [x [y [Hx [Hy ->]]]]. now apply H. }
    apply (ratio_le _ _ 127 Hpos), fl_mono in S.
    rewrite (fl_Z 127) in S by lia.
    assert (T : Qgtb (255 # 2)
                  (fl (inject_Z (zsum (getdata (convert_L image) (width image)
                                         (height image)))
                       / inject_Z (width image * height image))) = true).
    { apply Qgtb_spec. eapply Qle_lt_trans; [exact S|]. reflexivity. }
    now rewrite T.
  - pose proof (zsum_lower (getdata (convert_L image) (width image) (height image))
                  128) as U.
    rewrite Hc in U.
    assert (S : 128 * (width image * height image)
                <= zsum (getdata (convert_L image) (width image) (height image))).
    { apply U. intros v Hv. apply In_getdata in Hv.
      destruct Hv as [x [y [Hx [Hy ->]]]]. now apply H. }
    apply (ratio_ge _ _ 128 Hpos), fl_mono in S.
    rewrite (fl_Z 128) in S by lia.
    assert (T : Qgtb (255 # 2)
                  (fl (inject_Z (zsum (getdata (convert_L image) (width image)
                                         (height image)))
                       / inject_Z (width image * height image))) = false).
    { apply Qgtb_false. eapply Qle_trans; [|exact S]. discriminate. }
    now rewrite T.
Qed.

Lemma background_follows_tone_witness :
  best_background_for_image
    (mkImage 2 2 (RasterL (fun x y => 100 + x + y))) = Ok BLACK
  /\ best_background_for_image
       (mkImage 2 2 (RasterL (fun x y => 200 + x + y))) = Ok WHITE.
Proof.
  split.
  - apply (background_follows_tone
             (mkImage 2 2 (RasterL (fun x y => 100 + x + y)))).
    + simpl. lia.
    + simpl. lia.
    + intros x y Hx Hy. unfold convert_L. cbn [raster width height] in *. lia.
  - apply (background_follows_tone
             (mkImage 2 2 (RasterL (fun x y => 200 + x + y)))).
    + simpl. lia.
    + simpl. lia.
    + intros x y Hx Hy. unfold convert_L. cbn [raster width height] in *. lia.
Defined.

(** ** Edge cases of the fit *)

Lemma Qdiv_zero_l (q : Q) : (inject_Z 0 / q == 0)%Q.
Proof. unfold Qdiv. apply Qmult_0_l. Qed.

Section Degenerate.

Variable lanczos : Image -> Z -> Z -> Raster.

Lemma enhance_raises (img : Image) (sw sh : Z) (e : exn) :
  enhance_body lanczos img sw sh = Raise e ->
  enhance_image_for_screen lanczos img sw sh = img.
Proof. intros E. unfold enhance_image_for_screen. now rewrite E. Qed.

(** A resize to a side of zero pixels that is not a copy raises. *)
Lemma resize_to_nothing (img : Image) (w h : Z) :
  w = 0 \/ h = 0 -> width img <> w \/ height img <> h ->
  exists e, resize lanczos img (w, h) = Raise e.
Proof.
  intros Hz Hd. unfold resize.
  destruct ((width img =? w) && (height img =? h)) eqn:E.
  - apply andb_true_iff in E. destruct E as [Ew Eh].
    apply Z.eqb_eq in Ew, Eh. lia.
  - destruct (negb (is_c_int w) || negb (is_c_int h));
      [eexists; reflexivity|].
    destruct (Z.ltb_spec w 1); [eexists; reflexivity|].
    destruct (Z.ltb_spec h 1); [eexists; reflexivity|lia].
Qed.

(** X10: what cannot be fitted.  An image without rows, a canvas without
    rows, an image without columns whose height is not the canvas height,
    and a canvas without columns for an image that has columns: in each
    case the [try] block raises (a division by zero, or a resize to
    nothing) and [enhance_image_for_screen] returns the image it was given,
    not a canvas.  (An image without columns that has the canvas height is
    left out: it reaches the mean of an image without pixels.) *)
Theorem degenerate_fit_returns_image (img : Image) (sw sh : Z) :
  0 <= width img -> 0 <= height img ->
  height img = 0
  \/ sh = 0
  \/ (width img = 0 /\ height img <> sh)
  \/ (sw = 0 /\ 0 < width img) ->
  enhance_image_for_screen lanczos img sw sh = img.
Proof.
  intros Hw Hh Hz.
  destruct (Z.eqb_spec (height img) 0) as [Eh|Eh].
  { apply (enhance_raises _ _ _ ZeroDivisionError).
    unfold enhance_body, fitted_size, truediv. rewrite Eh. reflexivity. }
  destruct (Z.eqb_spec sh 0) as [Es|Es].
  { apply (enhance_raises _ _ _ ZeroDivisionError).
    unfold enhance_body, fitted_size, truediv.
    destruct (Z.eqb_spec (height img) 0); [contradiction|].
    rewrite Es. reflexivity. }
  pose proof (fitted_size_cases (width img) (height img) sw sh Eh Es) as Hf.
  destruct Hz as [Hz|[Hz|[[Ew Ed]|[Ew Ep]]]]; try contradiction.
  - (* no columns: the aspect ratio is 0 *)
    rewrite Ew in Hf. rewrite (fl_zero _ (Qdiv_zero_l _)) in Hf.
    destruct (Qgtb 0 (fl (inject_Z sw / inject_Z sh))).
    + apply (enhance_raises _ _ _ ZeroDivisionError).
      unfold enhance_body. rewrite Ew, Hf. reflexivity.
    + unfold fmul in Hf.
      rewrite (fl_zero _ (Qmult_0_r _)) in Hf.
      change (py_int 0) with 0 in Hf.
      destruct (resize_to_nothing img 0 sh ltac:(lia) ltac:(lia)) as [e He].
      apply (enhance_raises _ _ _ e).
      unfold enhance_body. rewrite Ew, Hf. cbn [bind]. now rewrite He.
  - (* the canvas has no columns *)
    subst sw.
    assert (A : (0 < fl (inject_Z (width img) / inject_Z (height img)))%Q)
      by (apply fl_pos_pos, ratio_pos; lia).
    rewrite (fl_zero (inject_Z 0 / inject_Z sh) (Qdiv_zero_l _)) in Hf.
    rewrite (proj2 (Qgtb_spec _ _) A) in Hf.
    unfold fdiv in Hf. rewrite (positive_nonzero _ A) in Hf. cbn [bind] in Hf.
    change (float_of_int 0) with (inject_Z 0) in Hf.
    rewrite (fl_zero _ (Qdiv_zero_l _)) in Hf.
    change (py_int 0) with 0 in Hf.
    destruct (resize_to_nothing img 0 0 ltac:(lia) ltac:(lia)) as [e He].
    apply (enhance_raises _ _ _ e).
    unfold enhance_body. rewrite Hf. cbn [bind]. now rewrite He.
Qed.

End Degenerate.

Lemma degenerate_fit_returns_image_witness :
  enhance_image_for_screen nearest_neighbour
    (plain_page 0 5 (10, 10, 10)) 8 8 = plain_page 0 5 (10, 10, 10)
  /\ enhance_image_for_screen nearest_neighbour
       (plain_page 4 2 (10, 10, 10)) 8 0 = plain_page 4 2 (10, 10, 10).
Proof.
  split.
  - apply (degenerate_fit_returns_image nearest_neighbour
             (plain_page 0 5 (10, 10, 10)) 8 8); simpl; lia.
  - apply (degenerate_fit_returns_image nearest_neighbour
             (plain_page 4 2 (10, 10, 10)) 8 0); simpl; lia.
Defined.

(** ** Where the resized image lands *)

Section Placement.

Variable lanczos : Image -> Z -> Z -> Raster.

(** X11: an image with the aspect ratio of the canvas (all sides positive,
    those of the canvas C ints, [canvas_width * image_height] within
    [2^51]) is resized to the canvas height and to the canvas width or,
    where the doubles fall short of the whole number, one pixel less (a
    7x55 page on a 7x55 canvas becomes 6x55).  It is pasted at the
    corner of the canvas: the pixels left of the new width are those of
    the resized image, a column that was lost shows the background.  An
    image that already has the canvas size and keeps it is not resampled,
    the result shows its own pixels. *)
Theorem same_aspect_fills_canvas (img : Image) (sw sh : Z) :
  0 < width img -> 0 < height img ->
  0 < sw < 2 ^ 31 -> 0 < sh < 2 ^ 31 ->
  sw * height img <= 2 ^ 51 ->
  width img * sh = sw * height img ->
  exists nw : Z,
    fitted_size (width img) (height img) sw sh = Ok (nw, sh)
    /\ sw - 1 <= nw <= sw
    /\ (1 <= nw ->
        exists fit : Fit,
          enhance_body lanczos img sw sh = Ok fit
          /\ new_size fit = (nw, sh)
          /\ paste_at fit = (0, 0)
          /\ (forall x y, 0 <= x < nw -> 0 <= y < sh ->
                as_rgb (enhance_image_for_screen lanczos img sw sh) x y
                = as_rgb (resized_img fit) x y)
          /\ (forall x y, nw <= x < sw -> 0 <= y < sh ->
                as_rgb (enhance_image_for_screen lanczos img sw sh) x y
                = background fit)
          /\ (width img = sw -> height img = sh -> nw = sw ->
              forall x y, 0 <= x < sw -> 0 <= y < sh ->
                as_rgb (enhance_image_for_screen lanczos img sw sh) x y
                = as_rgb img x y)).
Proof.
  intros Hiw Hih Hsw Hsh P1 Heq.
  set (W := width img) in *. set (H := height img) in *.
  assert (P2 : sh * W <= 2 ^ 51) by lia.
  pose proof (fitted_size_when_tall W H sw sh ltac:(lia) ltac:(lia) ltac:(lia)
                ltac:(lia) P1 ltac:(lia)) as Hf.
  destruct (int_mul_aspect sh W H ltac:(lia) ltac:(lia) ltac:(lia) P2)
    as [_ [B _]].
  set (nw := py_int (fl (float_of_int sh * fl (inject_Z W / inject_Z H)))) in *.
  assert (D : sh * W / H = sw).
  { rewrite (Z.mul_comm sh W), Heq. apply Z.div_mul. lia. }
  rewrite D in B.
  exists nw. split; [exact Hf|]. split; [exact B|]. intros Hnw.
  destruct (resize_ok lanczos img nw sh ltac:(lia) ltac:(lia))
    as [r [Hr [Hrw Hrh]]].
  destruct (best_background_two_colours r ltac:(lia) ltac:(lia)) as [c [Hc _]].
  pose proof (enhance_body_ok lanczos img r sw sh nw sh c Hf Hr Hc
                ltac:(lia) ltac:(lia)) as Hb.
  rewrite Z.sub_diag in Hb. change (0 / 2) with 0 in Hb.
  rewrite (Z.div_small (sw - nw) 2) in Hb by lia.
  assert (Hin : forall x y, 0 <= x < nw -> 0 <= y < sh ->
            as_rgb (enhance_image_for_screen lanczos img sw sh) x y = as_rgb r x y).
  { intros x y Hx Hy. unfold enhance_image_for_screen. rewrite Hb.
    cbn [bind try_except new_img paste as_rgb raster width height].
    rewrite Hrw, Hrh.
    destruct (Z.leb_spec 0 x); [|lia]. destruct (Z.ltb_spec x (0 + nw)); [|lia].
    destruct (Z.leb_spec 0 y); [|lia]. destruct (Z.ltb_spec y (0 + sh)); [|lia].
    cbn [andb]. now rewrite !Z.sub_0_r. }
  eexists. split; [exact Hb|]. cbn [new_size paste_at resized_img background].
  split; [reflexivity|]. split; [reflexivity|]. split; [exact Hin|]. split.
  - intros x y Hx Hy. unfold enhance_image_for_screen. rewrite Hb.
    cbn [bind try_except new_img paste as_rgb raster width height].
    rewrite Hrw, Hrh.
    destruct (Z.ltb_spec x (0 + nw)); [lia|].
    now rewrite andb_false_r.
  - intros Ew Eh En x y Hx Hy. rewrite Hin by lia.
    unfold resize in Hr. fold W H in Hr.
    rewrite En, Ew, Eh, !Z.eqb_refl in Hr. cbn [andb] in Hr.
    injection Hr as <-. reflexivity.
Qed.

Lemma fit_sizes (img : Image) (sw sh : Z) (fit : Fit) :
  0 <= width img -> 0 <= height img ->
  enhance_body lanczos img sw sh = Ok fit ->
  exists nw nh,
    new_size fit = (nw, nh)
    /\ paste_at fit = ((sw - nw) / 2, (sh - nh) / 2)
    /\ 0 <= nw <= sw /\ 0 <= nh <= sh /\ (nw = sw \/ nh = sh).
Proof.
  intros Hiw Hih Hb.
  destruct (enhance_body_inv lanczos img sw sh fit Hb)
    as [nw [nh [r [Hf [Hr [Hc [Hsw [Hsh Hfit]]]]]]]].
  destruct (fitted_size_defined _ _ _ _ _ Hf) as [Hih0 Hsh0].
  destruct (fitted_within_canvas (width img) (height img) sw sh nw nh
              Hiw ltac:(lia) Hsw ltac:(lia) Hf) as [Hnw [Hnh Hspan]].
  exists nw, nh. rewrite Hfit. cbn [new_size paste_at].
  split; [reflexivity|]. split; [reflexivity|]. auto.
Qed.

(** X12: a successful fit is centred and letterboxed on one axis only: the
    resized image lies inside the canvas, the margin after it exceeds the
    margin before it by at most one pixel in each direction, and it spans
    the canvas in width or in height. *)
Theorem fit_is_centred (img : Image) (sw sh : Z) (fit : Fit) :
  0 <= width img -> 0 <= height img ->
  enhance_body lanczos img sw sh = Ok fit ->
  let '(nw, nh) := new_size fit in
  let '(px, py) := paste_at fit in
  (0 <= px /\ 0 <= sw - nw - px - px <= 1)
  /\ (0 <= py /\ 0 <= sh - nh - py - py <= 1)
  /\ ((nw = sw /\ px = 0) \/ (nh = sh /\ py = 0)).
Proof.
  intros Hiw Hih Hb.
  destruct (fit_sizes img sw sh fit Hiw Hih Hb)
    as [nw [nh [-> [-> [Hnw [Hnh Hspan]]]]]].
  pose proof (Z.div_mod (sw - nw) 2 ltac:(lia)) as Dx.
  pose proof (Z.mod_pos_bound (sw - nw) 2 ltac:(lia)) as Mx.
  pose proof (Z.div_mod (sh - nh) 2 ltac:(lia)) as Dy.
  pose proof (Z.mod_pos_bound (sh - nh) 2 ltac:(lia)) as My.
  split; [lia|]. split; [lia|].
  destruct Hspan as [E|E]; [left|right]; split; try assumption;
    subst; rewrite Z.sub_diag; reflexivity.
Qed.

End Placement.

(** A 7x55 page on a canvas of its own size loses a column. *)
Lemma same_aspect_fills_canvas_witness :
  exists nw : Z,
    fitted_size 7 55 7 55 = Ok (nw, 55) /\ 7 - 1 <= nw <= 7 /\ nw = 6.
Proof.
  destruct (same_aspect_fills_canvas nearest_neighbour
              (plain_page 7 55 (200, 50, 50)) 7 55)
    as [nw [H1 [H2 _]]]; [cbn [width height plain_page]; lia ..|].
  exists nw. split; [exact H1|]. split; [exact H2|].
  change (fitted_size 7 55 7 55 = Ok (nw, 55)) in H1.
  assert (E : fitted_size 7 55 7 55 = Ok (6, 55)) by (vm_compute; reflexivity).
  rewrite E in H1. now injection H1 as <-.
Defined.

Lemma fit_is_centred_witness :
  exists fit : Fit,
    enhance_body nearest_neighbour (plain_page 4 2 (200, 50, 50)) 8 9 = Ok fit
    /\ new_size fit = (8, 4) /\ paste_at fit = (0, 2).
Proof.
  destruct (enhance_body nearest_neighbour (plain_page 4 2 (200, 50, 50)) 8 9)
    as [fit|e] eqn:E; [|vm_compute in E; discriminate].
  pose proof (fit_is_centred nearest_neighbour
                (plain_page 4 2 (200, 50, 50)) 8 9 fit) as C.
  assert (S : new_size fit = (8, 4) /\ paste_at fit = (0, 2)).
  { pose proof E as E0. vm_compute in E0. injection E0 as E0.
    rewrite <- E0. split; reflexivity. }
  destruct S as [S1 S2]. rewrite S1, S2 in C.
  specialize (C ltac:(simpl; lia) ltac:(simpl; lia) E).
  exists fit. auto.
Defined.

(** ** The temporary PDF of an image *)

Lemma Qgtb_comp (a a' b b' : Q) :
  (a == a')%Q -> (b == b')%Q -> Qgtb a b = Qgtb a' b'.
Proof. intros Ea Eb. unfold Qgtb. now rewrite (Qleb_comp _ _ Ea _ _ Eb). Qed.

(** [aspect > 1] on the double is the comparison of the sides. *)
Lemma aspect_gtb_one (a b : Z) :
  0 < b <= 2 ^ 51 -> Qgtb (fl (inject_Z a / inject_Z b)) 1 = (b <? a).
Proof.
  intros Hb.
  assert (E : (1 == fl (inject_Z 1 / inject_Z 1))%Q) by (vm_compute; reflexivity).
  rewrite (Qgtb_comp _ _ _ _ (Qeq_refl _) E).
  rewrite aspect_gtb by lia. f_equal; lia.
Qed.

(** X13: [temporal_pdf_image] compares the aspect ratio with 1, not with
    the page.  For sides below [2^25]: an image wider than tall gets the
    page width and the proportional height, any other image the page
    height and the proportional width, the proportional side being computed
    in doubles and truncated: the exact proportion rounded down, or one
    less than an exact proportion that is a whole number.  The computed
    side never exceeds the side that was matched, but it can exceed the
    page: it does whenever the exact proportion exceeds the page side by
    two pixels, and only if it exceeds it by one.  On an image of height 0
    the division raises, and nothing catches it. *)
Theorem temporal_pdf_size_spec (iw ih width height : Z) :
  0 < iw < 2 ^ 25 -> 0 < ih < 2 ^ 25 ->
  0 <= width < 2 ^ 25 -> 0 <= height < 2 ^ 25 ->
  (ih < iw ->
   exists nh : Z,
     temporal_pdf_size iw ih width height = Ok (width, nh)
     /\ width * ih / iw - 1 <= nh <= width * ih / iw
     /\ (nh < width * ih / iw -> (width * ih) mod iw = 0)
     /\ 0 <= nh <= width
     /\ (height < nh -> (height + 1) * iw <= width * ih)
     /\ ((height + 2) * iw <= width * ih -> height < nh))
  /\ (iw <= ih ->
      exists nw : Z,
        temporal_pdf_size iw ih width height = Ok (nw, height)
        /\ height * iw / ih - 1 <= nw <= height * iw / ih
        /\ (nw < height * iw / ih -> (height * iw) mod ih = 0)
        /\ 0 <= nw <= height
        /\ (width < nw -> (width + 1) * ih <= height * iw)
        /\ ((width + 2) * ih <= height * iw -> width < nw))
  /\ temporal_pdf_size iw 0 width height = Raise ZeroDivisionError.
Proof.
  intros Hiw Hih Hw Hh.
  assert (E : temporal_pdf_size iw ih width height
              = if ih <? iw
                then Ok (width,
                         py_int (fl (float_of_int width
                                     / fl (inject_Z iw / inject_Z ih))))
                else Ok (py_int (fl (float_of_int height
                                     * fl (inject_Z iw / inject_Z ih))),
                         height)).
  { unfold temporal_pdf_size, truediv.
    destruct (Z.eqb_spec ih 0); [lia|]. cbn [bind].
    rewrite aspect_gtb_one by lia.
    destruct (ih <? iw).
    - unfold fdiv. rewrite positive_nonzero by (apply fl_pos_pos, ratio_pos; lia).
      cbn [bind]. now rewrite py_int_inject.
    - unfold fmul. now rewrite py_int_inject. }
  split; [|split; [|reflexivity]].
  - intros L. rewrite E. destruct (Z.ltb_spec ih iw); [|lia].
    destruct (int_div_aspect width iw ih ltac:(lia) ltac:(lia) ltac:(lia)
                ltac:(nia)) as [N0 [B M]].
    eexists. split; [reflexivity|]. split; [exact B|]. split; [exact M|].
    set (nh := py_int _) in *.
    assert (U : width * ih / iw <= width)
      by (apply Z.div_le_upper_bound; nia).
    split; [lia|]. split.
    + intros G. assert (height + 1 <= width * ih / iw) by lia.
      pose proof (Z.mul_div_le (width * ih) iw ltac:(lia)). nia.
    + intros G. assert (height + 2 <= width * ih / iw)
        by (apply Z.div_le_lower_bound; lia). lia.
  - intros L. rewrite E. destruct (Z.ltb_spec ih iw); [lia|].
    destruct (int_mul_aspect height iw ih ltac:(lia) ltac:(lia) ltac:(lia)
                ltac:(nia)) as [N0 [B M]].
    eexists. split; [reflexivity|]. split; [exact B|]. split; [exact M|].
    set (nw := py_int _) in *.
    assert (U : height * iw / ih <= height)
      by (apply Z.div_le_upper_bound; nia).
    split; [lia|]. split.
    + intros G. assert (width + 1 <= height * iw / ih) by lia.
      pose proof (Z.mul_div_le (height * iw) ih ltac:(lia)). nia.
    + intros G. assert (width + 2 <= height * iw / ih)
        by (apply Z.div_le_lower_bound; lia). lia.
Qed.

(** A 3x4 image on a 595x842 page is given a width above 595, wider than
    the page. *)
Lemma temporal_pdf_size_spec_witness :
  exists nw : Z, temporal_pdf_size 3 4 595 842 = Ok (nw, 842) /\ 595 < nw.
Proof.
  destruct (temporal_pdf_size_spec 3 4 595 842) as [_ [H _]]; try lia.
  destruct (H ltac:(lia)) as [nw [E [_ [_ [_ [_ O]]]]]].
  exists nw. split; [exact E|]. apply O. lia.
Defined.

Lemma before_first_dot_app (stem rest : path) :
  ~ In "."%char stem ->
  before_first_dot (stem ++ "."%char :: rest) = stem
  /\ before_first_dot stem = stem.
Proof.
  induction stem as [|c stem IH]; intros H; [split; reflexivity|].
  assert (Hc : Ascii.eqb c "."%char = false).
  { apply Ascii.eqb_neq. intros ->. apply H. now left. }
  destruct IH as [IH1 IH2]; [intros I; apply H; now right|].
  cbn [app before_first_dot]. rewrite Hc, IH1, IH2. auto.
Qed.

(** X14: the temporary file is named after the part of the path before its
    FIRST dot: whatever follows that dot, directories included, is dropped,
    so two paths that agree up to their first dot get the same temporary
    file; a path without a dot just gets [.pdf] appended. *)
Theorem temporal_pdf_path_spec (stem rest : path) :
  ~ In "."%char stem ->
  temporal_pdf_path (stem ++ "."%char :: rest) = stem ++ ["."; "p"; "d"; "f"]%char
  /\ temporal_pdf_path stem = stem ++ ["."; "p"; "d"; "f"]%char.
Proof.
  intros H. unfold temporal_pdf_path.
  destruct (before_first_dot_app stem rest H) as [-> ->]. auto.
Qed.

(** The paths [a.b/c.png] and [a.jpg] both give [a.pdf]. *)
Lemma temporal_pdf_path_spec_witness :
  temporal_pdf_path ["a"; "."; "b"; "/"; "c"; "."; "p"; "n"; "g"]%char
  = ["a"; "."; "p"; "d"; "f"]%char
  /\ temporal_pdf_path ["a"; "."; "j"; "p"; "g"]%char
     = ["a"; "."; "p"; "d"; "f"]%char.
Proof.
  split.
  - apply (temporal_pdf_path_spec ["a"]%char ["b"; "/"; "c"; "."; "p"; "n"; "g"]%char).
    intros [E|[]]. discriminate.
  - apply (temporal_pdf_path_spec ["a"]%char ["j"; "p"; "g"]%char).
    intros [E|[]]. discriminate.
Defined.

(** ** Deleting the images of a folder *)

Lemma path_eqb_spec (a b : path) : path_eqb a b = true <-> a = b.
Proof.
  unfold path_eqb. destruct (list_eq_dec ascii_dec a b); split; congruence.
Qed.

Lemma path_eqb_refl (a : path) : path_eqb a a = true.
Proof. now apply path_eqb_spec. Qed.

Lemma In_remove_entry (folder : Folder) (name : path) (e : DirEntry) :
  In e (remove_entry folder name) <-> In e folder /\ entry_name e <> name.
Proof.
  unfold remove_entry. rewrite filter_In, negb_true_iff.
  split; intros [H1 H2]; split; try assumption.
  - intros E. apply path_eqb_spec in E. congruence.
  - destruct (path_eqb (entry_name e) name) eqn:E; [|reflexivity].
    apply path_eqb_spec in E. contradiction.
Qed.

Lemma NoDup_remove_entry (folder : Folder) (name : path) :
  NoDup (listdir folder) -> NoDup (listdir (remove_entry folder name)).
Proof.
  unfold listdir, remove_entry. induction folder as [|e l IH]; intros H; [constructor|].
  inversion H as [|? ? Hn Hl]; subst. cbn [filter].
  destruct (negb (path_eqb (entry_name e) name)); [|now apply IH].
  cbn [map]. constructor; [|now apply IH].
  intros I. apply Hn. apply in_map_iff in I. destruct I as [x [Ex Hx]].
  apply filter_In in Hx. apply in_map_iff. exists x. tauto.
Qed.

(** In a folder, whose names are distinct, [os.path.isfile] of the name of
    an entry tells whether that entry is a file. *)
Lemma isfile_entry (folder : Folder) (e : DirEntry) :
  NoDup (listdir folder) -> In e folder ->
  isfile folder (entry_name e) = entry_is_file e.
Proof.
  intros Hn He. unfold isfile.
  destruct (entry_is_file e) eqn:Ef.
  - apply existsb_exists. exists e. now rewrite path_eqb_refl, Ef.
  - destruct (existsb _ folder) eqn:X; [|reflexivity].
    apply existsb_exists in X. destruct X as [e' [He' X]].
    apply andb_true_iff in X. destruct X as [X1 X2]. apply path_eqb_spec in X1.
    assert (e' = e); [|congruence].
    clear -Hn He He' X1. unfold listdir in Hn.
    induction folder as [|a l IH]; [destruct He|].
    inversion Hn as [|? ? Ha Hl]; subst.
    destruct He as [->|He]; destruct He' as [->|He']; auto.
    + exfalso. apply Ha. rewrite <- X1. now apply in_map.
    + exfalso. apply Ha. rewrite X1. now apply in_map.
Qed.

Lemma filter_twice {A : Type} (p q : A -> bool) (l : list A) :
  filter p (filter q l) = filter (fun x => q x && p x) l.
Proof.
  induction l as [|a l IH]; [reflexivity|]. cbn [filter].
  destruct (q a); cbn [filter andb]; [destruct (p a)|]; now rewrite IH.
Qed.

Section DeleteProperties.

Variable remove_fails : path -> bool.
Variable extensions : list path.

(** Whatever [os.remove] does, the loop only removes image files. *)
Lemma delete_loop_safe (files : list path) (folder : Folder) (e : DirEntry) :
  NoDup (listdir folder) ->
  (In e (delete_loop remove_fails extensions files folder) -> In e folder)
  /\ (In e folder -> is_image_file extensions e = false ->
      In e (delete_loop remove_fails extensions files folder)).
Proof.
  revert folder. induction files as [|file rest IH]; intros folder Hn;
    [split; auto|].
  cbn [delete_loop].
  destruct (endswith_any (lower file) extensions && isfile folder file) eqn:T;
    [|now apply IH].
  unfold os_remove. destruct (remove_fails file); [split; auto|].
  destruct (IH (remove_entry folder file) (NoDup_remove_entry _ _ Hn)) as [I1 I2].
  split.
  - intros H. apply I1 in H. now apply In_remove_entry in H.
  - intros He Hi. apply I2; [|exact Hi]. apply In_remove_entry. split; [exact He|].
    intros <-. apply andb_true_iff in T. destruct T as [T1 T2].
    rewrite (isfile_entry folder e Hn He) in T2.
    unfold is_image_file in Hi. rewrite T1, T2 in Hi. discriminate.
Qed.

(** X15: whatever happens to the removals, [delete_images_in_folder] only
    ever deletes: every entry left is an entry of the folder, and every
    entry of the folder that is not a regular file whose lower-cased name
    ends with one of the extensions is still there afterwards. *)
Theorem delete_only_image_files (folder : Folder) (e : DirEntry) :
  NoDup (listdir folder) ->
  (In e (delete_images_in_folder remove_fails folder extensions) -> In e folder)
  /\ (In e folder -> is_image_file extensions e = false ->
      In e (delete_images_in_folder remove_fails folder extensions)).
Proof. intros Hn. now apply delete_loop_safe. Qed.

Lemma delete_loop_filter (files : list path) (folder : Folder) :
  (forall name, remove_fails name = false) ->
  NoDup (listdir folder) ->
  delete_loop remove_fails extensions files folder
  = filter (fun e => negb (is_image_file extensions e && named_in files e)) folder.
Proof.
  intros Hr. revert folder. induction files as [|file rest IH]; intros folder Hn.
  - cbn [delete_loop]. symmetry. apply filter_all.
    intros e _. unfold named_in. cbn [existsb]. now rewrite andb_false_r.
  - cbn [delete_loop].
    destruct (endswith_any (lower file) extensions && isfile folder file) eqn:T.
    + unfold os_remove. rewrite Hr.
      rewrite IH by now apply NoDup_remove_entry.
      unfold remove_entry. rewrite filter_twice.
      apply filter_ext_in. intros e He.
      unfold named_in. cbn [existsb].
      destruct (path_eqb (entry_name e) file) eqn:E; cbn [negb orb andb];
        [|reflexivity].
      apply path_eqb_spec in E. subst file.
      apply andb_true_iff in T. destruct T as [T1 T2].
      rewrite (isfile_entry folder e Hn He) in T2.
      unfold is_image_file. now rewrite T1, T2.
    + rewrite IH by assumption. apply filter_ext_in. intros e He.
      unfold named_in. cbn [existsb].
      destruct (path_eqb (entry_name e) file) eqn:E; cbn [orb]; [|reflexivity].
      apply path_eqb_spec in E. subst file.
      rewrite (isfile_entry folder e Hn He) in T.
      unfold is_image_file. rewrite T. reflexivity.
Qed.

End DeleteProperties.

Lemma NoDup_listdir_filter (p : DirEntry -> bool) (folder : Folder) :
  NoDup (listdir folder) -> NoDup (listdir (filter p folder)).
Proof.
  unfold listdir. induction folder as [|e l IH]; intros H; [constructor|].
  inversion H as [|? ? Hn Hl]; subst. cbn [filter].
  destruct (p e); [|now apply IH].
  cbn [map]. constructor; [|now apply IH].
  intros I. apply Hn. apply in_map_iff in I. destruct I as [x [Ex Hx]].
  apply filter_In in Hx. apply in_map_iff. exists x. tauto.
Qed.

Lemma delete_is_filter (remove_fails : path -> bool) (extensions : list path)
  (folder : Folder) :
  (forall name, remove_fails name = false) ->
  NoDup (listdir folder) ->
  delete_images_in_folder remove_fails folder extensions
  = filter (fun e => negb (is_image_file extensions e)) folder.
Proof.
  intros Hr Hn. unfold delete_images_in_folder.
  rewrite delete_loop_filter by assumption.
  apply filter_ext_in. intros e He.
  assert (N : named_in (listdir folder) e = true).
  { unfold named_in. apply existsb_exists. exists (entry_name e).
    split; [now apply in_map|apply path_eqb_refl]. }
  now rewrite N, andb_true_r.
Qed.

(** X16: when no removal fails, [delete_images_in_folder] leaves exactly
    the entries that are not image files, in their order: no regular file
    whose lower-cased name ends with one of the extensions remains (a dot
    before the extension is not required), and running it again changes
    nothing. *)
Theorem delete_all_image_files (remove_fails : path -> bool)
  (extensions : list path) (folder : Folder) :
  (forall name, remove_fails name = false) ->
  NoDup (listdir folder) ->
  let left := delete_images_in_folder remove_fails folder extensions in
  left = filter (fun e => negb (is_image_file extensions e)) folder
  /\ (forall e, In e left -> is_image_file extensions e = false)
  /\ delete_images_in_folder remove_fails left extensions = left.
Proof.
  intros Hr Hn left. subst left.
  rewrite (delete_is_filter remove_fails extensions folder Hr Hn).
  split; [reflexivity|]. split.
  - intros e He. apply filter_In in He. now apply negb_true_iff.
  - rewrite delete_is_filter;
      [|exact Hr|now apply NoDup_listdir_filter].
    rewrite filter_twice. apply filter_ext. intros e. apply andb_diag.
Qed.

(** A folder with the file [a.PNG], the file [b.txt], the directory
    [c.jpg] and the file [xgif]. *)
Lemma delete_all_image_files_witness :
  delete_images_in_folder (fun _ => false)
    [ mkEntry ["a"; "."; "P"; "N"; "G"]%char true;
      mkEntry ["b"; "."; "t"; "x"; "t"]%char true;
      mkEntry ["c"; "."; "j"; "p"; "g"]%char false;
      mkEntry ["x"; "g"; "i"; "f"]%char true ]
    image_extensions
  = [ mkEntry ["b"; "."; "t"; "x"; "t"]%char true;
      mkEntry ["c"; "."; "j"; "p"; "g"]%char false ].
Proof.
  destruct (delete_all_image_files (fun _ => false) image_extensions
              [ mkEntry ["a"; "."; "P"; "N"; "G"]%char true;
                mkEntry ["b"; "."; "t"; "x"; "t"]%char true;
                mkEntry ["c"; "."; "j"; "p"; "g"]%char false;
                mkEntry ["x"; "g"; "i"; "f"]%char true ]) as [E _].
  - reflexivity.
  - unfold listdir. cbn [map entry_name].
    repeat constructor; cbn [In]; intuition discriminate.
  - rewrite E. vm_compute. reflexivity.
Defined.

(** The same folder when every removal fails: the text file is still
    there (nothing is deleted at all). *)
Lemma delete_only_image_files_witness :
  In (mkEntry ["b"; "."; "t"; "x"; "t"]%char true)
     (delete_images_in_folder (fun _ => true)
        [ mkEntry ["a"; "."; "P"; "N"; "G"]%char true;
          mkEntry ["b"; "."; "t"; "x"; "t"]%char true;
          mkEntry ["c"; "."; "j"; "p"; "g"]%char false;
          mkEntry ["x"; "g"; "i"; "f"]%char true ]
        image_extensions).
Proof.
  apply (delete_only_image_files (fun _ => true) image_extensions).
  - unfold listdir. cbn [map entry_name].
    repeat constructor; cbn [In]; intuition discriminate.
  - right. left. reflexivity.
  - vm_compute. reflexivity.
Defined.

(** ** Loading images *)

Section LoadingProperties.

Variable image_open : path -> option Image.
Variable path_join : path -> path -> path.
Variable folder : path.

Let loads (p : path) : Prop := image_open (path_join folder p) <> None.

(** The RGB image a path gives, when it opens. *)
Let loaded (p : path) : list Image :=
  match image_open (path_join folder p) with
  | Some image => [convert_RGB image]
  | None => []
  end.

Lemma load_loop_prefix (pre rest : list path) (images : list Image) :
  Forall loads pre ->
  load_loop image_open path_join folder (pre ++ rest) images
  = load_loop image_open path_join folder rest (images ++ flat_map loaded pre).
Proof.
  intros H. revert images. induction H as [|p pre Hp _ IH]; intros images.
  - simpl. now rewrite app_nil_r.
  - cbn [app load_loop flat_map]. unfold loaded at 1. unfold loads in Hp.
    destruct (image_open (path_join folder p)); [|contradiction].
    rewrite IH, <- app_assoc. reflexivity.
Qed.

Lemma length_loaded (pre : list path) :
  Forall loads pre -> length (flat_map loaded pre) = length pre.
Proof.
  induction 1 as [|p pre Hp _ IH]; [reflexivity|].
  cbn [flat_map]. rewrite length_app, IH. unfold loaded. unfold loads in Hp.
  destruct (image_open (path_join folder p)); [reflexivity|contradiction].
Qed.

(** X17: [load_images_list_by_path] stops at the first path that fails to
    open and returns, without an error, the RGB images of the paths before
    it; the paths after it are not loaded.  When every path opens it
    returns one image per path. *)
Theorem load_list_stops_at_first_failure (pre rest : list path) (p : path) :
  Forall loads pre ->
  (image_open (path_join folder p) = None ->
   load_images_list_by_path image_open path_join (pre ++ p :: rest) folder
   = load_images_list_by_path image_open path_join pre folder)
  /\ load_images_list_by_path image_open path_join pre folder
     = flat_map loaded pre
  /\ length (load_images_list_by_path image_open path_join pre folder)
     = length pre.
Proof.
  intros H. unfold load_images_list_by_path.
  assert (E : load_loop image_open path_join folder pre [] = flat_map loaded pre).
  { rewrite <- (app_nil_r pre) at 1. now rewrite load_loop_prefix. }
  split; [|split].
  - intros Hp. rewrite load_loop_prefix by assumption.
    cbn [app load_loop]. rewrite Hp. now rewrite E.
  - exact E.
  - rewrite E. now apply length_loaded.
Qed.

Lemma load_loop_generator (paths : list path) (images : list Image) :
  load_loop image_open path_join folder paths images
  = images ++ fst (image_generator image_open path_join paths folder).
Proof.
  revert images. induction paths as [|p rest IH]; intros images.
  - simpl. now rewrite app_nil_r.
  - cbn [load_loop image_generator]. unfold load_image_by_path.
    destruct (image_open (path_join folder p)) as [image|].
    + rewrite IH.
      destruct (image_generator image_open path_join rest folder) as [ys e].
      cbn [fst]. rewrite <- app_assoc. reflexivity.
    + cbn [fst]. now rewrite app_nil_r.
Qed.

Lemma generator_end (paths : list path) :
  snd (image_generator image_open path_join paths folder) = Raised
  <-> exists p, In p paths /\ image_open (path_join folder p) = None.
Proof.
  induction paths as [|p rest IH].
  - simpl. split; [discriminate|]. intros [p [[] _]].
  - cbn [image_generator]. unfold load_image_by_path.
    destruct (image_open (path_join folder p)) as [image|] eqn:E.
    + destruct (image_generator image_open path_join rest folder) as [ys e].
      cbn [snd] in *. rewrite IH. split.
      * intros [q [Hq Hn]]. exists q. split; [now right|exact Hn].
      * intros [q [[<-|Hq] Hn]]; [congruence|]. exists q. auto.
    + cbn [snd]. split; [intros _|reflexivity].
      exists p. split; [now left|exact E].
Qed.

(** X18: [image_generator] yields exactly the images
    [load_images_list_by_path] returns for the same paths, but where the
    list loader returns quietly the generator ends with an exception: it
    raises exactly when some path fails to open. *)
Theorem generator_yields_loaded_images (paths : list path) :
  fst (image_generator image_open path_join paths folder)
  = load_images_list_by_path image_open path_join paths folder
  /\ (snd (image_generator image_open path_join paths folder) = Raised
      <-> exists p, In p paths /\ image_open (path_join folder p) = None).
Proof.
  split; [|apply generator_end].
  unfold load_images_list_by_path. now rewrite load_loop_generator.
Qed.

End LoadingProperties.

(** A folder where [a] opens and [b] does not: of the paths [a], [b], [a]
    only the first image is returned. *)
Lemma load_list_stops_at_first_failure_witness :
  load_images_list_by_path
    (fun p => if path_eqb p ["a"]%char
              then Some (plain_page 1 1 (1, 2, 3)) else None)
    (fun _ file => file) [["a"]; ["b"]; ["a"]]%char []
  = [plain_page 1 1 (1, 2, 3)].
Proof.
  destruct (load_list_stops_at_first_failure
              (fun p => if path_eqb p ["a"]%char
                        then Some (plain_page 1 1 (1, 2, 3)) else None)
              (fun _ file => file) [] [["a"]]%char [["a"]]%char ["b"]%char)
    as [H1 [H2 _]].
  - constructor; [|constructor]. vm_compute. discriminate.
  - etransitivity; [exact (H1 eq_refl)|]. etransitivity; [exact H2|]. reflexivity.
Defined.
